(** * FloorPlan360: the scene / selection / transform engine of [floorplan.py]

    A shallow embedding of the interactive engine of the Tkinter floor-plan
    editor: the geometry kernel, the world/canvas coordinate transform, the
    scene with its selection views, the pointer handlers of the tools and the
    per-mode updates of a transform session.

    Conventions of the embedding.
    - Python floats are read as real numbers ([R]); integers that meet floats
      are injected with [IZR]. The operations are the exact ones: where a
      float operation rounds across a threshold the code tests (a remainder
      that rounds up to its modulus, a product that rounds below an integer
      before [int], a sum of squares that underflows to zero before a
      division), the statements below say so, with a closed bound, a
      rounding margin or a hypothesis on the size of the operands.
    - A Python exception ([KeyError], [ZeroDivisionError], [ValueError], ...)
      is the [None] of the option monad.
    - [Item] objects live in an object store indexed by references; the scene
      list, the single selection, the multi-selection and a transform session
      all hold references, as the Python lists hold aliases of one object.
    - An item's [data] dictionary is a finite map from keys to values.
    - The drawing pass ([_redraw]) belongs to the rendering side; it is not
      part of the handlers below (it writes canvas ids and the text caches). *)

From Stdlib Require Import Reals Lra Lia ZArith Ascii.
From stdpp Require Import base decidable option list gmap strings fin_maps.

Open Scope R_scope.

(** ** Decidable comparisons on the reals *)

#[global] Instance R_eq_dec : EqDecision R := Req_dec_T.
#[global] Instance Rle_decision (x y : R) : Decision (x <= y) := Rle_dec x y.
#[global] Instance Rlt_decision (x y : R) : Decision (x < y) := Rlt_dec x y.

(** ** The Python primitives the engine relies on *)

Module Py.

(** [x / y] on floats: raises [ZeroDivisionError] when [y] is zero. (A
    float divisor is also zero when it underflowed: the sum of the squares
    of two differences below about 1e-162 in size.) *)
Definition div (x y : R) : option R :=
  if decide (y = 0) then None else Some (x / y).

(** [int(x)]: truncation toward zero. *)
Definition int (x : R) : Z :=
  if decide (0 <= x) then Int_part x else (- Int_part (- x))%Z.

(** [round(x)]: nearest integer, ties to the even one. *)
Definition round (x : R) : Z :=
  let f := Int_part x in
  let d := x - IZR f in
  if decide (d < 1 / 2) then f
  else if decide (1 / 2 < d) then (f + 1)%Z
  else if Z.even f then f else (f + 1)%Z.

(** [x % m] on floats, for a positive modulus: the result has the sign of
    the modulus. This is the exact remainder, in [0, m); the float one is
    rounded, and for a negative [x] much smaller than [m] in size it is [m]
    itself, so the float remainder is in [0, m]. *)
Definition fmod (x m : R) : R := x - m * IZR (Int_part (x / m)).

(** [math.hypot], [math.degrees], [math.radians], [math.atan2]. The exact
    [atan2] is in (-pi, pi]; the float one rounds an angle just above -pi to
    -pi, so the float result is in [-pi, pi]. *)
Definition hypot (x y : R) : R := sqrt (x * x + y * y).
Definition degrees (r : R) : R := r * (180 / PI).
Definition radians (d : R) : R := d * (PI / 180).
Definition atan2 (y x : R) : R :=
  if decide (0 < x) then atan (y / x)
  else if decide (x < 0) then
         (if decide (0 <= y) then atan (y / x) + PI else atan (y / x) - PI)
  else if decide (0 < y) then PI / 2
  else if decide (y < 0) then - (PI / 2)
  else 0.

(** [x or d] on floats: [d] when [x] is falsy, that is zero. *)
Definition or_else (x d : R) : R := if decide (x = 0) then d else x.

(** [l.remove(x)]: drops the first occurrence, [ValueError] when absent. *)
Fixpoint remove {A} `{EqDecision A} (x : A) (l : list A) : option (list A) :=
  match l with
  | [] => None
  | y :: l' => if decide (y = x) then Some l' else cons y <$> remove x l'
  end.

(** [try: l.remove(x) except ValueError: pass]. *)
Definition remove_quiet {A} `{EqDecision A} (x : A) (l : list A) : list A :=
  default l (remove x l).

End Py.

(** ** Config *)

Definition GRID_SIZE_PX : R := 32.
Definition GRID_METERS : R := 1 / 2.
Definition MIN_ZOOM : R := 4 / 10.
Definition MAX_ZOOM : R := 25 / 10.
Definition TEXT_COLOR : string := "#111111".
Definition HIT_TOL : R := 8.
Definition HANDLE_SIZE : R := 8.
Definition ROTATE_HANDLE_OFFSET : R := 28.

Abbreviation point := (R * R)%type.
Abbreviation rect := (R * R * R * R)%type.

(** ** Geometry kernel *)

Definition clamp (v lo hi : R) : R := Rmax lo (Rmin hi v).

(** The divisor [dx*dx + dy*dy] is zero, in exact arithmetic, only for the
    degenerate segment the first test catches. As a float it is also zero
    for a segment that is not degenerate but whose two differences are both
    below about 1e-162 in size, and the division then raises; a statement
    that relies on the distance being returned says that the segment is
    [segment_resolved]. *)
Definition dist_point_to_segment (px py x1 y1 x2 y2 : R) : option R :=
  let dx := x2 - x1 in
  let dy := y2 - y1 in
  if decide (dx = dy ∧ dy = 0) then Some (Py.hypot (px - x1) (py - y1))
  else
    q ← Py.div ((px - x1) * dx + (py - y1) * dy) (dx * dx + dy * dy);
    let t := Rmax 0 (Rmin 1 q) in
    let qx := x1 + t * dx in
    let qy := y1 + t * dy in
    Some (Py.hypot (px - qx) (py - qy)).

(** In degrees, within [-180, 180] (the exact angle is above -180). *)
Definition screen_angle (cx cy px py : R) : R :=
  Py.degrees (Py.atan2 (cy - py) (px - cx)).

Definition seg_normal (x1 y1 x2 y2 : R) : option point :=
  let nx := x2 - x1 in
  let ny := y2 - y1 in
  let L := Py.or_else (Py.hypot nx ny) 1 in
  nx' ← Py.div (- ny) L;
  ny' ← Py.div nx L;
  Some (nx', ny').

Definition rect_norm (x0 y0 x1 y1 : R) : rect :=
  (Rmin x0 x1, Rmin y0 y1, Rmax x0 x1, Rmax y0 y1).

Definition point_in_rect (px py : R) (r : rect) : bool :=
  let '(a0, b0, a1, b1) := r in
  let '(x0, y0, x1, y1) := rect_norm a0 b0 a1 b1 in
  bool_decide (x0 <= px ∧ px <= x1) && bool_decide (y0 <= py ∧ py <= y1).

Definition ccw (a b c : point) : bool :=
  bool_decide ((b.2 - a.2) * (c.1 - a.1) < (c.2 - a.2) * (b.1 - a.1)).

Definition segments_intersect (a b c d : point) : bool :=
  negb (eqb (ccw a c d) (ccw b c d)) && negb (eqb (ccw a b c) (ccw a b d)).

Definition seg_intersects_rect (p1 p2 : point) (r : rect) : bool :=
  if point_in_rect p1.1 p1.2 r || point_in_rect p2.1 p2.2 r then true
  else
    let '(a0, b0, a1, b1) := r in
    let '(x0, y0, x1, y1) := rect_norm a0 b0 a1 b1 in
    let edges := [((x0, y0), (x1, y0)); ((x1, y0), (x1, y1));
                  ((x1, y1), (x0, y1)); ((x0, y1), (x0, y0))] in
    existsb (fun e : point * point => segments_intersect p1 p2 e.1 e.2) edges.

Definition rects_intersect (a b : rect) : bool :=
  let '(a0, a1, a2, a3) := a in
  let '(b0, b1, b2, b3) := b in
  let '(ax0, ay0, ax1, ay1) := rect_norm a0 a1 a2 a3 in
  let '(bx0, by0, bx1, by1) := rect_norm b0 b1 b2 b3 in
  negb (bool_decide (ax1 < bx0) || bool_decide (bx1 < ax0)
        || bool_decide (ay1 < by0) || bool_decide (by1 < ay0)).

(** ** Data model *)

(** The values stored in an item's [data] dictionary: numbers, strings,
    booleans and points (a 2-tuple, or the 2-element list JSON gives). *)
Inductive value :=
| VNum (r : R)
| VStr (s : string)
| VBool (b : bool)
| VPoint (x y : R).

Abbreviation ref := nat.
Abbreviation render_key := (string * Z * string * Z)%type.

(** [class Item]; the canvas id and the two image caches are left to the
    rendering side. *)
Record Item := mkItem {
  kind : string;
  data : gmap string value;
  selected : bool;
  last_render_key : option render_key;
  bbox_canvas : option rect
}.

(** [Item(kind, data)]. *)
Definition new_item (k : string) (d : gmap string value) : Item :=
  mkItem k d false None None.

Definition set_data (d : gmap string value) (it : Item) : Item :=
  mkItem (kind it) d (selected it) (last_render_key it) (bbox_canvas it).
Definition set_selected (b : bool) (it : Item) : Item :=
  mkItem (kind it) (data it) b (last_render_key it) (bbox_canvas it).
Definition set_last_render_key (k : option render_key) (it : Item) : Item :=
  mkItem (kind it) (data it) (selected it) k (bbox_canvas it).

(** [d[k]] read as a point ([ax, ay = d[k]]), as a number, as a boolean. *)
Definition get_point (d : gmap string value) (k : string) : option point :=
  match d !! k with
  | Some (VPoint x y) => Some (x, y)
  | _ => None
  end.


(** A value used in arithmetic ([v * scale]): a number, or a boolean, which
    Python counts as 1 or 0; a string or a point raises [TypeError]. *)
Definition as_num (v : value) : option R :=
  match v with
  | VNum r => Some r
  | VBool b => Some (if b then 1 else 0)
  | _ => None
  end.

(** [float(v)]: a number is itself, a boolean is 1 or 0, a string is read as
    a decimal literal ([ValueError] when it is none), a point raises
    [TypeError]. *)

Definition digit_of (c : ascii) : option Z :=
  let n := Z.of_nat (nat_of_ascii c) in
  if decide (48 ≤ n ≤ 57)%Z then Some (n - 48)%Z else None.

Definition is_space (c : ascii) : bool :=
  let n := Z.of_nat (nat_of_ascii c) in
  bool_decide (9 ≤ n ≤ 13 ∨ 28 ≤ n ≤ 32)%Z.

Fixpoint skip_space (l : list ascii) : list ascii :=
  match l with
  | c :: l' => if is_space c then skip_space l' else l
  | [] => []
  end.

Definition read_sign (l : list ascii) : bool * list ascii :=
  match l with
  | c :: l' =>
    if decide (c = "-"%char) then (true, l')
    else if decide (c = "+"%char) then (false, l')
    else (false, l)
  | [] => (false, [])
  end.

(** A run of digits, an underscore being allowed between two of them: the
    number read after [acc], the count of digits after [n], and the rest. *)
Fixpoint read_digits (acc : Z) (n : nat) (l : list ascii)
  : Z * nat * list ascii :=
  match l with
  | c :: l' =>
    match digit_of c with
    | Some d => read_digits (10 * acc + d) (S n) l'
    | None =>
      match l' with
      | c' :: _ =>
        if decide (c = "_"%char ∧ n ≠ 0%nat ∧ is_Some (digit_of c'))
        then read_digits acc n l'
        else (acc, n, l)
      | [] => (acc, n, l)
      end
    end
  | [] => (acc, n, [])
  end.

Definition read_exponent (l : list ascii) : option (Z * list ascii) :=
  match l with
  | c :: l' =>
    if decide (c = "e"%char ∨ c = "E"%char) then
      let '(neg, l1) := read_sign l' in
      let '(e, n, l2) := read_digits 0 0 l1 in
      if decide (n = 0%nat) then None
      else Some (if neg then (- e)%Z else e, l2)
    else Some (0%Z, l)
  | [] => Some (0%Z, [])
  end.

(** [float(s)] for a string: blanks, a sign, digits with an optional
    fraction, an optional exponent, blanks. The spellings of an infinity and
    of a NaN, which [float] accepts too, have no reading as a real number:
    they are left out with the values they denote. *)
Definition float_of_string (s : string) : option R :=
  let '(neg, l) := read_sign (skip_space (String.list_ascii_of_string s)) in
  let '(ip, ni, l) := read_digits 0 0 l in
  let '(fp, nf, l) :=
    match l with
    | c :: l' => if decide (c = "."%char) then read_digits 0 0 l'
                 else (0%Z, 0%nat, l)
    | [] => (0%Z, 0%nat, [])
    end in
  if decide (ni = 0%nat ∧ nf = 0%nat) then None
  else
    el ← read_exponent l;
    if forallb is_space el.2 then
      let v := (IZR ip + IZR fp / 10 ^ nf) * powerRZ 10 el.1 in
      Some (if neg then - v else v)
    else None.

Definition as_float (v : value) : option R :=
  match v with
  | VNum r => Some r
  | VBool b => Some (if b then 1 else 0)
  | VStr s => float_of_string s
  | VPoint _ _ => None
  end.

(** [d.setdefault(k, v)]. *)
Definition setdefault (k : string) (v : value) (d : gmap string value)
  : gmap string value :=
  match d !! k with
  | Some _ => d
  | None => <[k := v]> d
  end.

(** The dictionary under [draw_state["transform"]], one constructor per
    ["mode"] with the keys that mode stores. *)
Inductive Transform :=
| move_any (start_world : point) (item : option ref)
| move_group (start_world : point)
| scale_text (item : ref) (handle : string) (keep_ratio : bool)
             (start_bbox : rect) (start_size : value)
| rotate_text (item : ref) (center : point) (start_cursor start_angle : R)
| room_resize (item : ref) (handle : string)
| seg_endpoint (item : ref) (which : string)
| seg_rotate (item : ref) (center : point) (len start_cursor : R).

(** [draw_state]: the keys the handlers use. *)
Record DrawState := mkDrawState {
  ds_start : option point;
  ds_ruler_start : option point;
  ds_marquee : option (point * point);
  ds_transform : option Transform
}.

Definition ds_empty : DrawState := mkDrawState None None None None.

Record Pan := mkPan {
  pan_active : bool;
  pan_space : bool;
  pan_start : point
}.

(** The editor state of [FloorPlanApp]. *)
Record App := mkApp {
  objs : gmap ref Item;
  items : list ref;
  active_tool : string;
  snap_enabled : bool;
  grid_m : R;
  zoom : R;
  origin : point;
  temp_preview : option (string * point * point);
  draw_state : DrawState;
  selection : option ref;
  selected_items : list ref;
  pan : Pan;
  keep_rulers : bool;
  rulers : list (point * point)
}.

Definition set_objs (v : gmap ref Item) (st : App) : App :=
  mkApp v (items st) (active_tool st) (snap_enabled st) (grid_m st) (zoom st)
        (origin st) (temp_preview st) (draw_state st) (selection st)
        (selected_items st) (pan st) (keep_rulers st) (rulers st).
Definition set_items (v : list ref) (st : App) : App :=
  mkApp (objs st) v (active_tool st) (snap_enabled st) (grid_m st) (zoom st)
        (origin st) (temp_preview st) (draw_state st) (selection st)
        (selected_items st) (pan st) (keep_rulers st) (rulers st).
Definition set_grid_m (v : R) (st : App) : App :=
  mkApp (objs st) (items st) (active_tool st) (snap_enabled st) v (zoom st)
        (origin st) (temp_preview st) (draw_state st) (selection st)
        (selected_items st) (pan st) (keep_rulers st) (rulers st).
Definition set_zoom (v : R) (st : App) : App :=
  mkApp (objs st) (items st) (active_tool st) (snap_enabled st) (grid_m st) v
        (origin st) (temp_preview st) (draw_state st) (selection st)
        (selected_items st) (pan st) (keep_rulers st) (rulers st).
Definition set_origin (v : point) (st : App) : App :=
  mkApp (objs st) (items st) (active_tool st) (snap_enabled st) (grid_m st)
        (zoom st) v (temp_preview st) (draw_state st) (selection st)
        (selected_items st) (pan st) (keep_rulers st) (rulers st).
Definition set_temp_preview (v : option (string * point * point)) (st : App)
  : App :=
  mkApp (objs st) (items st) (active_tool st) (snap_enabled st) (grid_m st)
        (zoom st) (origin st) v (draw_state st) (selection st)
        (selected_items st) (pan st) (keep_rulers st) (rulers st).
Definition set_draw_state (v : DrawState) (st : App) : App :=
  mkApp (objs st) (items st) (active_tool st) (snap_enabled st) (grid_m st)
        (zoom st) (origin st) (temp_preview st) v (selection st)
        (selected_items st) (pan st) (keep_rulers st) (rulers st).
Definition set_selection (v : option ref) (st : App) : App :=
  mkApp (objs st) (items st) (active_tool st) (snap_enabled st) (grid_m st)
        (zoom st) (origin st) (temp_preview st) (draw_state st) v
        (selected_items st) (pan st) (keep_rulers st) (rulers st).
Definition set_selected_items (v : list ref) (st : App) : App :=
  mkApp (objs st) (items st) (active_tool st) (snap_enabled st) (grid_m st)
        (zoom st) (origin st) (temp_preview st) (draw_state st) (selection st)
        v (pan st) (keep_rulers st) (rulers st).
Definition set_pan (v : Pan) (st : App) : App :=
  mkApp (objs st) (items st) (active_tool st) (snap_enabled st) (grid_m st)
        (zoom st) (origin st) (temp_preview st) (draw_state st) (selection st)
        (selected_items st) v (keep_rulers st) (rulers st).
Definition set_rulers (v : list (point * point)) (st : App) : App :=
  mkApp (objs st) (items st) (active_tool st) (snap_enabled st) (grid_m st)
        (zoom st) (origin st) (temp_preview st) (draw_state st) (selection st)
        (selected_items st) (pan st) (keep_rulers st) v.

Definition set_ds_start (v : option point) (ds : DrawState) : DrawState :=
  mkDrawState v (ds_ruler_start ds) (ds_marquee ds) (ds_transform ds).
Definition set_ds_ruler_start (v : option point) (ds : DrawState) : DrawState :=
  mkDrawState (ds_start ds) v (ds_marquee ds) (ds_transform ds).
Definition set_ds_marquee (v : option (point * point)) (ds : DrawState)
  : DrawState :=
  mkDrawState (ds_start ds) (ds_ruler_start ds) v (ds_transform ds).
Definition set_ds_transform (v : option Transform) (ds : DrawState)
  : DrawState :=
  mkDrawState (ds_start ds) (ds_ruler_start ds) (ds_marquee ds) v.

(** A pointer event: canvas position and modifier state. *)
Record Event := mkEvent { ev_x : R; ev_y : R; ev_state : Z }.

(** ** Coordinates *)

Definition grid_px (st : App) : R := GRID_SIZE_PX * zoom st.

Definition world_to_canvas (st : App) (x y : R) : point :=
  ((origin st).1 + x * grid_px st, (origin st).2 + y * grid_px st).

Definition canvas_to_world (st : App) (px py : R) : option point :=
  wx ← Py.div (px - (origin st).1) (grid_px st);
  wy ← Py.div (py - (origin st).2) (grid_px st);
  Some (wx, wy).

Definition snap_world (st : App) (wx wy : R) : point :=
  if negb (snap_enabled st) then (wx, wy)
  else (IZR (Py.round wx), IZR (Py.round wy)).

(** The opening of every handler that needs the pointer in world space:
    [wx, wy = canvas_to_world(px, py)], then
    [if snap_enabled: wx, wy = snap_world(wx, wy)]. *)
Definition pointer_world (st : App) (px py : R) : option point :=
  w ← canvas_to_world st px py;
  Some (if snap_enabled st then snap_world st w.1 w.2 else w).

(** ** Scene: allocation, selection flags, hit-testing *)

#[global] Instance value_eq_dec : EqDecision value.
Proof. solve_decision. Defined.

(** A new [Item] object gets a reference no object has. *)
Definition alloc (it : Item) (st : App) : ref * App :=
  let r := fresh (dom (objs st)) in
  (r, set_objs (<[r := it]> (objs st)) st).

(** [self.items.append(Item(kind, data))]. *)
Definition append_item (k : string) (d : gmap string value) (st : App) : App :=
  let '(r, st1) := alloc (new_item k d) st in
  set_items (items st1 ++ [r]) st1.

(** Assignments through a reference: [it.data = ...], [it.selected = ...]. *)
Definition update_obj (r : ref) (f : Item -> Item) (st : App) : App :=
  set_objs (alter f r (objs st)) st.

Definition _clear_selection (st : App) : App :=
  let st1 := foldl (fun s r => update_obj r (set_selected false) s) st (items st) in
  set_selected_items [] (set_selection None st1).

(** The loop of [_hit_test], from a position in [self.items] with the running
    [best] and [bestd]; a Text item whose box holds the point returns at
    once. *)
Fixpoint hit_test_from (st : App) (px py : R) (l : list ref)
         (best : option ref) (bestd : R) : option (option ref) :=
  match l with
  | [] => Some best
  | r :: l' =>
    it ← objs st !! r;
    if decide (kind it ∈ ["wall"; "door"; "window"]) then
      a ← get_point (data it) "a";
      b ← get_point (data it) "b";
      let '(x1, y1) := world_to_canvas st a.1 a.2 in
      let '(x2, y2) := world_to_canvas st b.1 b.2 in
      d ← dist_point_to_segment px py x1 y1 x2 y2;
      if decide (d <= HIT_TOL ∧ d < bestd)
      then hit_test_from st px py l' (Some r) d
      else hit_test_from st px py l' best bestd
    else if decide (kind it = "room") then
      a ← get_point (data it) "a";
      b ← get_point (data it) "b";
      let '(x0, y0) := world_to_canvas st (Rmin a.1 b.1) (Rmin a.2 b.2) in
      let '(x1, y1) := world_to_canvas st (Rmax a.1 b.1) (Rmax a.2 b.2) in
      if decide ((x0 - HIT_TOL <= px ∧ px <= x1 + HIT_TOL)
                 ∧ (y0 - HIT_TOL <= py ∧ py <= y1 + HIT_TOL)) then
        let d := Rmin (Rmin (Rmin (Rabs (px - x0)) (Rabs (px - x1)))
                            (Rabs (py - y0))) (Rabs (py - y1)) in
        if decide (d < bestd)
        then hit_test_from st px py l' (Some r) d
        else hit_test_from st px py l' best bestd
      else hit_test_from st px py l' best bestd
    else if decide (kind it = "text") then
      match bbox_canvas it with
      | Some (x0, y0, x1, y1) =>
        if decide ((x0 <= px ∧ px <= x1) ∧ (y0 <= py ∧ py <= y1))
        then Some (Some r)
        else hit_test_from st px py l' best bestd
      | None => hit_test_from st px py l' best bestd
      end
    else hit_test_from st px py l' best bestd
  end.

(** The tests [d <= HIT_TOL] and [d < bestd] are made here on the exact
    distances; the code makes them on the distances as computed, which
    differ from them by rounding ([hit_scan] below is the same loop over
    any computed distances). *)
Definition _hit_test (st : App) (px py : R) : option (option ref) :=
  hit_test_from st px py (items st) None 1000000000.

(** ** Handles *)

Definition _handle_size (st : App) : R :=
  IZR (Z.max 6 (Py.int (HANDLE_SIZE * zoom st))).

(** [max(18, int(ROTATE_HANDLE_OFFSET*self.zoom))]. *)
Definition rotate_handle_offset (st : App) : R :=
  IZR (Z.max 18 (Py.int (ROTATE_HANDLE_OFFSET * zoom st))).

Definition _rect_handle_positions (x0 y0 x1 y1 : R) : list (R * R * string) :=
  let cx := (x0 + x1) / 2 in
  let cy := (y0 + y1) / 2 in
  [(x0, y0, "nw"); (cx, y0, "n"); (x1, y0, "ne");
   (x0, cy, "w");                 (x1, cy, "e");
   (x0, y1, "sw"); (cx, y1, "s"); (x1, y1, "se")].

(** [(hx-hs/2) <= px <= (hx+hs/2) and (hy-hs/2) <= py <= (hy+hs/2)]. *)
Definition on_handle (hs hx hy px py : R) : bool :=
  bool_decide (hx - hs / 2 <= px ∧ px <= hx + hs / 2)
  && bool_decide (hy - hs / 2 <= py ∧ py <= hy + hs / 2).

(** The first handle of the layout under the pointer, if any. *)
Definition first_handle (hs px py : R) (hl : list (R * R * string))
  : option string :=
  snd <$> List.find (fun h : R * R * string => on_handle hs h.1.1 h.1.2 px py) hl.

Definition _hit_text_handle (st : App) (it : Item) (px py : R) : option string :=
  match bbox_canvas it with
  | None => None
  | Some (x0, y0, x1, y1) =>
    let cx := (x0 + x1) / 2 in
    let ry := y0 - rotate_handle_offset st in
    let hs := _handle_size st in
    if on_handle hs cx ry px py then Some "rotate"
    else match first_handle hs px py (_rect_handle_positions x0 y0 x1 y1) with
         | Some tag => Some tag
         | None =>
           if bool_decide (x0 <= px ∧ px <= x1) && bool_decide (y0 <= py ∧ py <= y1)
           then Some "inside" else None
         end
  end.

Definition _hit_room_handle (st : App) (it : Item) (px py : R)
  : option (option string) :=
  a ← get_point (data it) "a";
  b ← get_point (data it) "b";
  let '(x0, y0) := world_to_canvas st (Rmin a.1 b.1) (Rmin a.2 b.2) in
  let '(x1, y1) := world_to_canvas st (Rmax a.1 b.1) (Rmax a.2 b.2) in
  let hs := _handle_size st in
  match first_handle hs px py (_rect_handle_positions x0 y0 x1 y1) with
  | Some tag => Some (Some tag)
  | None =>
    if bool_decide (x0 <= px ∧ px <= x1) && bool_decide (y0 <= py ∧ py <= y1)
    then Some (Some "inside") else Some None
  end.

Definition _hit_segment_handle (st : App) (it : Item) (px py : R)
  : option (option string) :=
  a ← get_point (data it) "a";
  b ← get_point (data it) "b";
  let '(x1, y1) := world_to_canvas st a.1 a.2 in
  let '(x2, y2) := world_to_canvas st b.1 b.2 in
  let hs := _handle_size st in
  if on_handle hs x1 y1 px py then Some (Some "a")
  else if on_handle hs x2 y2 px py then Some (Some "b")
  else
    let mx := (x1 + x2) / 2 in
    let my := (y1 + y2) / 2 in
    n ← seg_normal x1 y1 x2 y2;
    let rx := mx + n.1 * rotate_handle_offset st in
    let ry := my + n.2 * rotate_handle_offset st in
    if on_handle hs rx ry px py then Some (Some "rotate")
    else
      d ← dist_point_to_segment px py x1 y1 x2 y2;
      if decide (d <= HIT_TOL) then Some (Some "onseg") else Some None.

(** ** Group bounding box *)

Definition _item_canvas_bbox (st : App) (it : Item) : option (option rect) :=
  if decide (kind it = "room") then
    a ← get_point (data it) "a";
    b ← get_point (data it) "b";
    let '(p0x, p0y) := world_to_canvas st (Rmin a.1 b.1) (Rmin a.2 b.2) in
    let '(p1x, p1y) := world_to_canvas st (Rmax a.1 b.1) (Rmax a.2 b.2) in
    Some (Some (p0x, p0y, p1x, p1y))
  else if decide (kind it ∈ ["wall"; "door"; "window"]) then
    a ← get_point (data it) "a";
    b ← get_point (data it) "b";
    let p1 := world_to_canvas st a.1 a.2 in
    let p2 := world_to_canvas st b.1 b.2 in
    let '(x0, y0, x1, y1) := rect_norm p1.1 p1.2 p2.1 p2.2 in
    let pad := 4 in
    Some (Some (x0 - pad, y0 - pad, x1 + pad, y1 + pad))
  else if decide (kind it = "text") then Some (bbox_canvas it)
  else Some None.

(** [min(f(b) for b in boxes)] and [max(...)] over a non-empty list. *)
Definition min_of (f : rect -> R) (b : rect) (bs : list rect) : R :=
  foldl (fun m c => Rmin m (f c)) (f b) bs.
Definition max_of (f : rect -> R) (b : rect) (bs : list rect) : R :=
  foldl (fun m c => Rmax m (f c)) (f b) bs.

Definition _group_canvas_bbox (st : App) : option (option rect) :=
  bbs ← mapM (fun r => it ← objs st !! r; _item_canvas_bbox st it)
             (selected_items st);
  match omap (fun o : option rect => o) bbs with
  | [] => Some None
  | b :: bs =>
    Some (Some (min_of (fun c => c.1.1.1) b bs, min_of (fun c => c.1.1.2) b bs,
                max_of (fun c => c.1.2) b bs, max_of (fun c => c.2) b bs))
  end.

(** ** Transform sessions *)

(** [self.draw_state["transform"] = t]. *)
Definition set_transform (t : Transform) (st : App) : App :=
  set_draw_state (set_ds_transform (Some t) (draw_state st)) st.

Definition _begin_move_selected (st : App) (px py : R) : option App :=
  w ← pointer_world st px py;
  Some (set_transform (move_any w (selection st)) st).

Definition _begin_move_group (st : App) (px py : R) : option App :=
  w ← pointer_world st px py;
  Some (set_transform (move_group w) st).

Definition _move_item (st : App) (r : ref) (dx dy : R) : option App :=
  it ← objs st !! r;
  if decide (kind it ∈ ["wall"; "door"; "window"]) then
    a ← get_point (data it) "a";
    b ← get_point (data it) "b";
    Some (update_obj r (set_data (<["b" := VPoint (b.1 + dx) (b.2 + dy)]>
                                  (<["a" := VPoint (a.1 + dx) (a.2 + dy)]> (data it)))) st)
  else if decide (kind it = "room") then
    a ← get_point (data it) "a";
    b ← get_point (data it) "b";
    Some (update_obj r (set_data (<["b" := VPoint (b.1 + dx) (b.2 + dy)]>
                                  (<["a" := VPoint (a.1 + dx) (a.2 + dy)]> (data it)))) st)
  else if decide (kind it = "text") then
    p ← get_point (data it) "p";
    Some (update_obj r (set_data (<["p" := VPoint (p.1 + dx) (p.2 + dy)]> (data it))) st)
  else Some st.

(** [for it in l: self._move_item(it, dx, dy)]. *)
Fixpoint move_items (st : App) (l : list ref) (dx dy : R) : option App :=
  match l with
  | [] => Some st
  | r :: l' => st1 ← _move_item st r dx dy; move_items st1 l' dx dy
  end.

(** *** Text: scale and rotate *)

Definition _begin_text_scale (st : App) (r : ref) (px py : R)
           (handle_tag : string) (keep : bool) : option App :=
  it ← objs st !! r;
  bb ← bbox_canvas it;
  sz ← data it !! "size";
  Some (set_transform (scale_text r handle_tag keep bb sz) st).

(** [int(start_size * scale)] is taken of the exact product here. The float
    product can fall just below an integer that the exact one reaches
    (100 * 1.15 is 114.99999999999999), and [int] then gives one less: what
    is stated of the stored size carries a margin for it. *)
Definition _update_text_scale (st : App) (px py : R) : option App :=
  match ds_transform (draw_state st) with
  | Some (scale_text r handle keep (x0, y0, x1, y1) start_size) =>
    let cx := (x0 + x1) / 2 in
    let cy := (y0 + y1) / 2 in
    dx ← Py.div (Rabs (px - cx)) (Rmax 1 (x1 - cx));
    dy ← Py.div (Rabs (py - cy)) (Rmax 1 (y1 - cy));
    let scale :=
      if decide (handle ∈ ["n"; "s"]) then dy
      else if decide (handle ∈ ["e"; "w"]) then dx
      else if keep then Rmax dx dy else (dx + dy) / 2 in
    let scale := clamp scale (2 / 10) 8 in
    start ← as_num start_size;
    let new_size := clamp (IZR (Py.int (start * scale))) 8 512 in
    it ← objs st !! r;
    cur ← data it !! "size";
    if decide (VNum new_size ≠ cur) then
      Some (update_obj r (fun i => set_last_render_key None
                                     (set_data (<["size" := VNum new_size]> (data i)) i)) st)
    else Some st
  | _ => None
  end.

Definition _begin_text_rotate (st : App) (r : ref) (px py : R) : option App :=
  it ← objs st !! r;
  p ← get_point (data it) "p";
  let '(cx, cy) := world_to_canvas st p.1 p.2 in
  let ang0 := screen_angle cx cy px py in
  v ← data it !! "angle";
  ang ← as_float v;
  Some (set_transform (rotate_text r (cx, cy) ang0 ang) st).

Definition _update_text_rotate (st : App) (px py : R) : option App :=
  match ds_transform (draw_state st) with
  | Some (rotate_text r (cx, cy) start_cursor start_angle) =>
    let ang := screen_angle cx cy px py in
    _ ← objs st !! r;
    Some (update_obj r (fun i => set_last_render_key None
            (set_data (<["angle" := VNum (Py.fmod (start_angle + (ang - start_cursor)) 360)]>
                       (data i)) i)) st)
  | _ => None
  end.

(** *** Room: resize *)

Definition _begin_room_resize (st : App) (r : ref) (px py : R)
           (handle_tag : string) : option App :=
  Some (set_transform (room_resize r handle_tag) st).

Definition _update_room_resize (st : App) (px py : R) : option App :=
  match ds_transform (draw_state st) with
  | Some (room_resize r tag) =>
    it ← objs st !! r;
    a ← get_point (data it) "a";
    b ← get_point (data it) "b";
    let x0 := Rmin a.1 b.1 in let y0 := Rmin a.2 b.2 in
    let x1 := Rmax a.1 b.1 in let y1 := Rmax a.2 b.2 in
    w ← pointer_world st px py;
    let x0 := if decide (tag ∈ ["w"; "nw"; "sw"]) then Rmin w.1 (x1 - 1 / 100) else x0 in
    let x1 := if decide (tag ∈ ["e"; "ne"; "se"]) then Rmax w.1 (x0 + 1 / 100) else x1 in
    let y0 := if decide (tag ∈ ["n"; "nw"; "ne"]) then Rmin w.2 (y1 - 1 / 100) else y0 in
    let y1 := if decide (tag ∈ ["s"; "sw"; "se"]) then Rmax w.2 (y0 + 1 / 100) else y1 in
    Some (update_obj r (fun i => set_data (<["b" := VPoint x1 y1]>
                                           (<["a" := VPoint x0 y0]> (data i))) i) st)
  | _ => None
  end.

(** *** Segment: endpoint drag and rotate *)

Definition _begin_segment_endpoint (st : App) (r : ref) (px py : R)
           (which : string) : option App :=
  Some (set_transform (seg_endpoint r which) st).

Definition _update_segment_endpoint (st : App) (px py : R) : option App :=
  match ds_transform (draw_state st) with
  | Some (seg_endpoint r which) =>
    w ← pointer_world st px py;
    _ ← objs st !! r;
    if decide (which = "a")
    then Some (update_obj r (fun i => set_data (<["a" := VPoint w.1 w.2]> (data i)) i) st)
    else Some (update_obj r (fun i => set_data (<["b" := VPoint w.1 w.2]> (data i)) i) st)
  | _ => None
  end.

Definition _begin_segment_rotate (st : App) (r : ref) (px py : R) : option App :=
  it ← objs st !! r;
  a ← get_point (data it) "a";
  b ← get_point (data it) "b";
  let cx := (a.1 + b.1) / 2 in
  let cy := (a.2 + b.2) / 2 in
  let '(ccx, ccy) := world_to_canvas st cx cy in
  Some (set_transform (seg_rotate r (cx, cy) (Py.hypot (b.1 - a.1) (b.2 - a.2))
                                  (screen_angle ccx ccy px py)) st).

(** The two endpoints [_update_segment_rotate] computes, before the snap. *)
Definition rotated_endpoints (st : App) (center : point) (len start_cursor : R)
           (px py : R) : point * point :=
  let '(cx, cy) := center in
  let L := Rmax (1 / 1000000) len in
  let '(ccx, ccy) := world_to_canvas st cx cy in
  let ang := screen_angle ccx ccy px py in
  let d_ang := ang - start_cursor in
  let theta := Py.radians d_ang in
  let dx := (L / 2) * cos theta in
  let dy := (L / 2) * sin theta in
  ((cx - dx, cy - dy), (cx + dx, cy + dy)).

Definition _update_segment_rotate (st : App) (px py : R) : option App :=
  match ds_transform (draw_state st) with
  | Some (seg_rotate r center len start_cursor) =>
    let '(a, b) := rotated_endpoints st center len start_cursor px py in
    _ ← objs st !! r;
    let a := if snap_enabled st then snap_world st a.1 a.2 else a in
    let b := if snap_enabled st then snap_world st b.1 b.2 else b in
    Some (update_obj r (fun i => set_data (<["b" := VPoint b.1 b.2]>
                                           (<["a" := VPoint a.1 a.2]> (data i))) i) st)
  | _ => None
  end.

(** *** Dispatch of a pointer move during a session *)

Definition _continue_transform (st : App) (px py : R) (mod_state : Z)
  : option App :=
  match ds_transform (draw_state st) with
  | None => Some st
  | Some (move_any (sx, sy) it) =>
    w ← pointer_world st px py;
    let dx := w.1 - sx in
    let dy := w.2 - sy in
    let st1 := set_transform (move_any w it) st in
    r ← it;
    _move_item st1 r dx dy
  | Some (move_group (sx, sy)) =>
    w ← pointer_world st px py;
    let dx := w.1 - sx in
    let dy := w.2 - sy in
    let st1 := set_transform (move_group w) st in
    move_items st1 (selected_items st1) dx dy
  | Some (scale_text _ _ _ _ _) => _update_text_scale st px py
  | Some (rotate_text _ _ _ _) => _update_text_rotate st px py
  | Some (room_resize _ _) => _update_room_resize st px py
  | Some (seg_endpoint _ _) => _update_segment_endpoint st px py
  | Some (seg_rotate _ _ _ _) => _update_segment_rotate st px py
  end.

(** ** Selection and removal *)

(** [self._clear_selection(); it.selected = True; self.selection = it;
    self.selected_items = [it]]. *)
Definition select_only (r : ref) (st : App) : App :=
  set_selected_items [r]
    (set_selection (Some r) (update_obj r (set_selected true) (_clear_selection st))).

Definition handle_tags : list string :=
  ["nw"; "n"; "ne"; "w"; "e"; "sw"; "s"; "se"].

(** [_select_or_begin_transform], first part: a click inside the box of a
    multi-selection starts a group move. [Some (Some st')] when it does. *)
Definition select_group_move (st : App) (px py : R) : option (option App) :=
  if decide (1 < length (selected_items st))%nat then
    bbox ← _group_canvas_bbox st;
    match bbox with
    | Some bb =>
      if point_in_rect px py bb then Some <$> _begin_move_group st px py
      else Some None
    | None => Some None
    end
  else Some None.

(** Second part: the handles of the single selection. *)
Definition select_handles (st : App) (px py : R) (mod_state : Z)
  : option (option App) :=
  match selection st with
  | None => Some None
  | Some r =>
    it ← objs st !! r;
    if decide (kind it = "text") then
      match _hit_text_handle st it px py with
      | Some h =>
        if decide (h = "rotate") then Some <$> _begin_text_rotate st r px py
        else if decide (h ∈ handle_tags) then
          let keep_ratio := negb (Z.land mod_state 1 =? 0)%Z in
          Some <$> _begin_text_scale st r px py h keep_ratio
        else if decide (h = "inside") then Some <$> _begin_move_selected st px py
        else Some None
      | None => Some None
      end
    else if decide (kind it = "room") then
      oh ← _hit_room_handle st it px py;
      match oh with
      | Some h =>
        if decide (h ∈ handle_tags) then Some <$> _begin_room_resize st r px py h
        else if decide (h = "inside") then Some <$> _begin_move_selected st px py
        else Some None
      | None => Some None
      end
    else if decide (kind it ∈ ["wall"; "door"; "window"]) then
      oh ← _hit_segment_handle st it px py;
      match oh with
      | Some h =>
        if decide (h ∈ ["a"; "b"]) then Some <$> _begin_segment_endpoint st r px py h
        else if decide (h = "rotate") then Some <$> _begin_segment_rotate st r px py
        else if decide (h = "onseg") then Some <$> _begin_move_selected st px py
        else Some None
      | None => Some None
      end
    else Some None
  end.

(** Third part: pick the item under the pointer, select it alone, and start
    a move when its body was hit. *)
Definition select_pick (st : App) (px py : R) (allow_marquee : bool)
  : option (bool * App) :=
  hit ← _hit_test st px py;
  match hit with
  | Some r =>
    let st1 := select_only r st in
    it ← objs st1 !! r;
    body ←
      (if decide (kind it = "text") then
         Some (bool_decide (_hit_text_handle st1 it px py = Some "inside"))
       else if decide (kind it = "room") then
         oh ← _hit_room_handle st1 it px py;
         Some (bool_decide (oh = Some "inside"))
       else if decide (kind it ∈ ["wall"; "door"; "window"]) then
         oh ← _hit_segment_handle st1 it px py;
         Some (bool_decide (oh = Some "onseg"))
       else Some false);
    if body : bool then st2 ← _begin_move_selected st1 px py; Some (true, st2)
    else Some (true, st1)
  | None =>
    if allow_marquee then Some (false, st)
    else Some (false, _clear_selection st)
  end.

Definition _select_or_begin_transform (st : App) (px py : R) (mod_state : Z)
           (allow_marquee : bool) : option (bool * App) :=
  g ← select_group_move st px py;
  match g with
  | Some st1 => Some (true, st1)
  | None =>
    h ← select_handles st px py mod_state;
    match h with
    | Some st1 => Some (true, st1)
    | None => select_pick st px py allow_marquee
    end
  end.

(** The scan of [_apply_marquee_selection]: the items the rectangle meets,
    in scene order. *)
Fixpoint marquee_scan (st : App) (rect_px : rect) (l : list ref)
  : option (list ref) :=
  match l with
  | [] => Some []
  | r :: l' =>
    it ← objs st !! r;
    keep ←
      (if decide (kind it = "room") then
         a ← get_point (data it) "a";
         b ← get_point (data it) "b";
         let '(p0x, p0y) := world_to_canvas st (Rmin a.1 b.1) (Rmin a.2 b.2) in
         let '(p1x, p1y) := world_to_canvas st (Rmax a.1 b.1) (Rmax a.2 b.2) in
         Some (rects_intersect rect_px (p0x, p0y, p1x, p1y))
       else if decide (kind it ∈ ["wall"; "door"; "window"]) then
         a ← get_point (data it) "a";
         b ← get_point (data it) "b";
         Some (seg_intersects_rect (world_to_canvas st a.1 a.2)
                                   (world_to_canvas st b.1 b.2) rect_px)
       else if decide (kind it = "text") then
         match bbox_canvas it with
         | Some bb => Some (rects_intersect rect_px bb)
         | None => Some false
         end
       else Some false);
    sels ← marquee_scan st rect_px l';
    Some (if keep : bool then r :: sels else sels)
  end.

Definition _apply_marquee_selection (st : App) (rect_px : rect) : option App :=
  sels ← marquee_scan st rect_px (items st);
  let st1 := _clear_selection st in
  let st2 := foldl (fun s r => update_obj r (set_selected true) s) st1 sels in
  Some (set_selection (match sels with [r] => Some r | _ => None end)
                      (set_selected_items sels st2)).

Definition _delete_item (st : App) (r : ref) : option App :=
  if decide (r ∈ items st) then
    let st1 := set_selected_items (Py.remove_quiet r (selected_items st)) st in
    let st2 := if decide (selection st1 = Some r) then set_selection None st1 else st1 in
    l ← Py.remove r (items st2);
    Some (set_items l st2)
  else Some st.

Definition delete_selection (st : App) : App :=
  match selected_items st with
  | _ :: _ =>
    let l := foldl (fun l r => Py.remove_quiet r l) (items st) (selected_items st) in
    set_selection None (set_selected_items [] (set_items l st))
  | [] =>
    match selection st with
    | Some r => set_selection None (set_items (Py.remove_quiet r (items st)) st)
    | None => st
    end
  end.

(** ** Pan and zoom *)

Definition _on_pan_start (st : App) (e : Event) : App :=
  set_pan (mkPan true (pan_space (pan st)) (ev_x e, ev_y e)) st.

Definition _on_pan_drag (st : App) (e : Event) : App :=
  if negb (pan_active (pan st)) then
    if pan_space (pan st) then _on_pan_start st e else st
  else
    let '(sx, sy) := pan_start (pan st) in
    let dx := ev_x e - sx in
    let dy := ev_y e - sy in
    let st1 := set_pan (mkPan (pan_active (pan st)) (pan_space (pan st)) (ev_x e, ev_y e)) st in
    set_origin ((origin st1).1 + dx, (origin st1).2 + dy) st1.

(** [_zoom(factor)]; [w] and [h] are the canvas width and height. *)
Definition _zoom (st : App) (factor w h : R) : option App :=
  let new_zoom := clamp (zoom st * factor) MIN_ZOOM MAX_ZOOM in
  if decide (new_zoom = zoom st) then Some st
  else
    let cx := w / 2 in
    let cy := h / 2 in
    wp ← canvas_to_world st cx cy;
    let st1 := set_zoom new_zoom st in
    let '(cx2, cy2) := world_to_canvas st1 wp.1 wp.2 in
    Some (set_origin ((origin st1).1 + (cx - cx2), (origin st1).2 + (cy - cy2)) st1).

Definition _reset_view (st : App) : App :=
  set_origin (80, 80) (set_zoom 1 st).

(** ** Tool handlers *)

(** [self.draw_state.clear(); self.temp_preview = None]. *)
Definition end_draw (st : App) : App :=
  set_temp_preview None (set_draw_state ds_empty st).

Definition _tool_changed (st : App) : App :=
  set_draw_state ds_empty (set_temp_preview None st).

(** The data of a fresh Text item. *)
Definition text_data (wx wy : R) (txt : string) : gmap string value :=
  <["p" := VPoint wx wy]> (<["text" := VStr txt]> (<["angle" := VNum 0]>
  (<["size" := VNum 18]> (<["color" := VStr TEXT_COLOR]> ∅)))).

(** The data of a fresh Wall, Door, Window or Room. *)
Definition ab_data (a b : point) : gmap string value :=
  <["a" := VPoint a.1 a.2]> (<["b" := VPoint b.1 b.2]> ∅).

(** [_on_left_down]; [txt] is what the text prompt answers (asked only by
    the text tool). *)
Definition _on_left_down (st : App) (e : Event) (txt : option string)
  : option App :=
  w ← pointer_world st (ev_x e) (ev_y e);
  let tool := active_tool st in
  if pan_active (pan st) then Some (_on_pan_start st e)
  else if decide (tool = "select") then
    res ← _select_or_begin_transform st (ev_x e) (ev_y e) (ev_state e) true;
    let '(handled, st1) := res in
    if handled : bool then Some st1
    else Some (set_draw_state
                 (set_ds_marquee (Some ((ev_x e, ev_y e), (ev_x e, ev_y e)))
                                 (draw_state st1)) st1)
  else if decide (tool ∈ ["wall"; "door"; "window"]) then
    match ds_start (draw_state st) with
    | None =>
      Some (set_temp_preview (Some (tool, w, w))
              (set_draw_state (set_ds_start (Some w) (draw_state st)) st))
    | Some a =>
      let b := w in
      let st1 := if decide (a ≠ b) then append_item tool (ab_data a b) st else st in
      Some (end_draw st1)
    end
  else if decide (tool = "room") then
    Some (set_temp_preview (Some ("room", w, w))
            (set_draw_state (set_ds_start (Some w) (draw_state st)) st))
  else if decide (tool = "text") then
    match txt with
    | Some s =>
      if decide (s ≠ "") then Some (append_item "text" (text_data w.1 w.2 s) st)
      else Some st
    | None => Some st
    end
  else if decide (tool = "ruler") then
    match ds_ruler_start (draw_state st) with
    | None =>
      let st1 := if negb (keep_rulers st) && bool_decide (rulers st ≠ [])
                 then set_rulers [] st else st in
      Some (set_temp_preview (Some ("ruler", w, w))
              (set_draw_state (set_ds_ruler_start (Some w) (draw_state st1)) st1))
    | Some a =>
      let b := w in
      let st1 :=
        if decide (a ≠ b) then
          let st' := if negb (keep_rulers st) then set_rulers [] st else st in
          set_rulers (rulers st' ++ [(a, b)]) st'
        else st in
      Some (set_temp_preview None
              (set_draw_state (set_ds_ruler_start None (draw_state st1)) st1))
    end
  else if decide (tool = "eraser") then
    hit ← _hit_test st (ev_x e) (ev_y e);
    match hit with
    | Some r =>
      let st1 := if decide (selection st = Some r) then set_selection None st else st in
      let st2 := set_selected_items (Py.remove_quiet r (selected_items st1)) st1 in
      l ← Py.remove r (items st2);
      Some (set_items l st2)
    | None => Some st
    end
  else Some st.

Definition _on_left_drag (st : App) (e : Event) : option App :=
  w ← pointer_world st (ev_x e) (ev_y e);
  let tool := active_tool st in
  if pan_active (pan st) then Some (_on_pan_drag st e)
  else if decide (tool ∈ ["wall"; "door"; "window"; "room"]) then
    match ds_start (draw_state st) with
    | Some a => Some (set_temp_preview (Some (tool, a, w)) st)
    | None => Some st
    end
  else if decide (tool = "select") then
    match ds_marquee (draw_state st) with
    | Some (start_px, _) =>
      Some (set_draw_state
              (set_ds_marquee (Some (start_px, (ev_x e, ev_y e))) (draw_state st)) st)
    | None => _continue_transform st (ev_x e) (ev_y e) (ev_state e)
    end
  else if decide (tool = "ruler") then
    match ds_ruler_start (draw_state st) with
    | Some a => Some (set_temp_preview (Some ("ruler", a, w)) st)
    | None => Some st
    end
  else Some st.

Definition _on_left_up (st : App) (e : Event) : option App :=
  if decide (active_tool st = "room" ∧ is_Some (ds_start (draw_state st))) then
    w ← pointer_world st (ev_x e) (ev_y e);
    a ← ds_start (draw_state st);
    let b := w in
    let st1 := if decide (a ≠ b) then append_item "room" (ab_data a b) st else st in
    Some (end_draw st1)
  else if decide (active_tool st = "select") then
    match ds_marquee (draw_state st) with
    | Some ((x0, y0), (x1, y1)) =>
      st1 ← _apply_marquee_selection st (rect_norm x0 y0 x1 y1);
      Some (set_draw_state (set_ds_marquee None (draw_state st1)) st1)
    | None => Some (set_draw_state (set_ds_transform None (draw_state st)) st)
    end
  else Some st.

(** [_on_right_click], up to the menu it pops: the item under the pointer
    becomes the selection; the second component is that item, the one the
    menu's Delete entry hands to [_delete_item]. *)
Definition _on_right_click (st : App) (e : Event) : option (App * option ref) :=
  hit ← _hit_test st (ev_x e) (ev_y e);
  match hit with
  | Some r =>
    let st1 := select_only r st in
    it ← objs st1 !! r;
    let st2 :=
      if decide (kind it ∈ ["room"; "wall"; "door"; "window"]) then
        let st' := update_obj r (fun i => set_data (setdefault "measure" (VBool false) (data i)) i) st1 in
        if decide (kind it = "room")
        then update_obj r (fun i => set_data (setdefault "show_area" (VBool true) (data i)) i) st'
        else st'
      else st1 in
    Some (st2, Some r)
  | None => Some (st, None)
  end.

(** Python truthiness of a stored value. *)
Definition truthy (v : value) : bool :=
  match v with
  | VNum r => bool_decide (r ≠ 0)
  | VStr s => bool_decide (s ≠ "")
  | VBool b => b
  | VPoint _ _ => true
  end.

Definition _toggle_measure (st : App) (r : ref) : App :=
  update_obj r (fun i =>
    set_data (<["measure" := VBool (negb (default false (truthy <$> data i !! "measure")))]>
              (data i)) i) st.

Definition _toggle_area (st : App) (r : ref) : App :=
  update_obj r (fun i =>
    set_data (<["show_area" := VBool (negb (default true (truthy <$> data i !! "show_area")))]>
              (data i)) i) st.

Definition _clear_rulers (st : App) : App :=
  set_temp_preview None
    (set_draw_state (set_ds_ruler_start None (draw_state st)) (set_rulers [] st)).

(** ** Documents *)

(** A parsed document: [doc.get("items")], the [meters_per_grid] of its
    [meta], [doc.get("rulers")]; an item object is its [kind] and [data]. *)
Record Doc := mkDoc {
  doc_items : option (list (string * gmap string value));
  doc_meters_per_grid : option R;
  doc_rulers : option (list (point * point))
}.

(** [[Item.from_json(obj) for obj in objs]], each a new object. *)
Fixpoint load_items (st : App) (l : list (string * gmap string value))
  : list ref * App :=
  match l with
  | [] => ([], st)
  | (k, d) :: l' =>
    let '(r, st1) := alloc (new_item k d) st in
    let '(rs, st2) := load_items st1 l' in
    (r :: rs, st2)
  end.

(** The defaults [load_json] gives a Text item. *)
Definition text_defaults (it : Item) : Item :=
  if decide (kind it = "text") then
    set_data (setdefault "color" (VStr TEXT_COLOR)
               (setdefault "size" (VNum 18)
                 (setdefault "angle" (VNum 0) (data it)))) it
  else it.

(** [load_json], after the file was read and parsed into [doc]. *)
Definition load_json (st : App) (doc : Doc) : App :=
  let '(rs, st1) := load_items st (default [] (doc_items doc)) in
  let st2 := set_items rs st1 in
  let st3 := set_grid_m (default GRID_METERS (doc_meters_per_grid doc)) st2 in
  let st4 := set_rulers (default [] (doc_rulers doc)) st3 in
  let st5 := foldl (fun s r => update_obj r text_defaults s) st4 (items st4) in
  _clear_selection st5.

(** [new_file], once the user confirmed. *)
Definition new_file (st : App) : App :=
  set_temp_preview None (set_draw_state ds_empty
    (set_rulers [] (set_selected_items [] (set_selection None (set_items [] st))))).

(** ** Concrete states *)

(** The state [FloorPlanApp.__init__] builds. *)
Definition initial_app : App :=
  mkApp ∅ [] "select" true GRID_METERS 1 (80, 80) None ds_empty None []
        (mkPan false false (0, 0)) false [].

(** A scene holding one vertical Wall from (0,0) to (0,5), selected, with
    snapping off. *)
Definition vertical_wall_app : App :=
  mkApp {[ 0%nat := new_item "wall" (ab_data (0, 0) (0, 5)) ]} [0%nat]
        "select" false GRID_METERS 1 (80, 80) None ds_empty (Some 0%nat)
        [0%nat] (mkPan false false (0, 0)) false [].

(** A scene holding one zero-length Wall at (1,2), selected, snapping off. *)
Definition point_wall_app : App :=
  mkApp {[ 0%nat := new_item "wall" (ab_data (1, 2) (1, 2)) ]} [0%nat]
        "select" false GRID_METERS 1 (80, 80) None ds_empty (Some 0%nat)
        [0%nat] (mkPan false false (0, 0)) false [].

(** The same zero-length Wall, with snapping on. *)
Definition snapped_point_wall_app : App :=
  mkApp {[ 0%nat := new_item "wall" (ab_data (1, 2) (1, 2)) ]} [0%nat]
        "select" true GRID_METERS 1 (80, 80) None ds_empty (Some 0%nat)
        [0%nat] (mkPan false false (0, 0)) false [].

(** A Text label at the world origin whose rendered box is the 20x20 pixel
    square around its canvas anchor (80,80), selected. *)
Definition label_item : Item :=
  mkItem "text" (text_data 0 0 "Label") false None (Some (70, 70, 90, 90)).


(** ** The scale rule of ScaleText, in the specification's words *)


(** ** The Text invariant of the data model *)





(** ** Translation of an item, in the specification's words *)

(** The keys holding the geometry of an item of kind [k]: both stored points
    of a Wall, Door, Window or Room, the anchor of a Text. *)
Definition geometry_keys (k : string) : list string :=
  if decide (k = "text") then ["p"] else ["a"; "b"].

(** Items [moveItem] translates: one of the five kinds, geometry present. *)
Definition movable (it : Item) : Prop :=
  kind it ∈ ["wall"; "door"; "window"; "room"; "text"]
  ∧ ∀ k, k ∈ geometry_keys (kind it) → is_Some (get_point (data it) k).


(** [st'] differs from [st] in the object store at most. *)
Definition same_but_objs (st st' : App) : Prop := st' = set_objs (objs st') st.

(** A document with one item of a kind the editor does not know. *)
Definition stairs_doc : Doc :=
  mkDoc (Some [("stairs", ab_data (0, 0) (2, 1))]) None None.

(** A scene with a Wall, a Room and a Text label, all three selected, a
    group move in progress anchored at (1,1), snapping off. *)
Definition group_app : App :=
  mkApp (<[0%nat := new_item "wall" (ab_data (0, 0) (4, 0))]>
         (<[1%nat := new_item "room" (ab_data (1, 1) (3, 4))]>
          (<[2%nat := label_item]> ∅)))
        [0%nat; 1%nat; 2%nat]
        "select" false GRID_METERS 1 (80, 80) None
        (mkDrawState None None None (Some (move_group (1, 1)))) None
        [0%nat; 1%nat; 2%nat] (mkPan false false (0, 0)) false [].

(** The initial editor (snapping on) with the room tool, a drag begun at the
    world origin. *)
Definition room_drag_app : App :=
  mkApp ∅ [] "room" true GRID_METERS 1 (80, 80) (Some ("room", (0, 0), (0, 0)))
        (mkDrawState (Some (0, 0)) None None None) None []
        (mkPan false false (0, 0)) false [].

(** The initial editor with the wall tool, a first click made at the world
    origin. *)
Definition wall_click_app : App :=
  mkApp ∅ [] "wall" true GRID_METERS 1 (80, 80) (Some ("wall", (0, 0), (0, 0)))
        (mkDrawState (Some (0, 0)) None None None) None []
        (mkPan false false (0, 0)) false [].

(** ** Hit-testing, in the specification's words *)

(** The cached screen box of a Text item contains the point. *)
Definition text_hit (px py : R) (it : Item) : Prop :=
  kind it = "text"
  ∧ ∃ x0 y0 x1 y1, bbox_canvas it = Some (x0, y0, x1, y1)
                   ∧ (x0 <= px ∧ px <= x1) ∧ (y0 <= py ∧ py <= y1).

(** The geometry [_hit_test] reads is present. *)
Definition hit_testable (it : Item) : Prop :=
  kind it ∈ ["wall"; "door"; "window"; "room"] →
  is_Some (get_point (data it) "a") ∧ is_Some (get_point (data it) "b").


(** ** Well-formed scenes *)

(** Every selection view refers to items of the scene only. *)
Definition selection_valid (st : App) : Prop :=
  (∀ r, r ∈ selected_items st → r ∈ items st)
  ∧ (∀ r, selection st = Some r → r ∈ items st).

(** The scene lists an object at most once and lists existing objects only;
    the multi-selection lists an item at most once; the selection views
    stay within the scene. *)
Definition scene_wf (st : App) : Prop :=
  NoDup (items st)
  ∧ NoDup (selected_items st)
  ∧ (∀ r, r ∈ items st → is_Some (objs st !! r))
  ∧ selection_valid st.

(** [group_app] with the eraser as the tool and no session. *)
Definition eraser_app : App :=
  mkApp (objs group_app) (items group_app) "eraser" false GRID_METERS 1 (80, 80)
        None ds_empty None [0%nat; 1%nat; 2%nat] (mkPan false false (0, 0))
        false [].

(** ** Tactics *)

(** Deciding equalities and memberships between string literals. *)
Ltac not_in_literals H :=
  repeat (apply elem_of_cons in H as [H | H]; [discriminate H |]);
  by apply elem_of_nil in H.

Ltac literal_decide :=
  repeat first
    [ rewrite decide_True by first [reflexivity | repeat constructor]
    | rewrite decide_False
        by first [discriminate | let H := fresh in intros H; not_in_literals H] ].

(** ** Operations of the editor *)

(** [st'] has the scene list, both selection views and the zoom of [st],
    and every object of [st] still exists in it. *)
Definition scene_frame (st st' : App) : Prop :=
  items st' = items st
  ∧ selection st' = selection st
  ∧ selected_items st' = selected_items st
  ∧ (∀ r, is_Some (objs st !! r) → is_Some (objs st' !! r))
  ∧ zoom st' = zoom st.

(** The entries of the context menu; an entry the menu does not offer for
    the item under the pointer does nothing. *)
Inductive MenuChoice :=
| MenuDismiss
| MenuToggleMeasure
| MenuToggleArea
| MenuDelete
| MenuClearRulers.

(** [save_json], up to writing the file: the document it dumps. *)
Definition save_doc (st : App) : option Doc :=
  its ← mapM (fun r => it ← objs st !! r; Some (kind it, data it)) (items st);
  Some (mkDoc (Some its) (Some (grid_m st)) (Some (rulers st))).

(** The overlays hidden for an export: no selection, no preview, no
    marquee. *)
Definition hide_overlays (st : App) : App :=
  let st1 := _clear_selection st in
  let st2 := set_temp_preview None st1 in
  set_draw_state (set_ds_marquee None (draw_state st2)) st2.

(** [export_png], once a path was chosen, up to the screen grab: overlays
    are hidden for the grab, then put back. Between the two the method calls
    [self.update()], which dispatches the events pending at that moment to
    their handlers: [during] is what these handlers do to the state (the
    identity when no event is pending). What was saved is put back whatever
    they did. *)
Definition export_png (during : App → App) (st : App) : App :=
  let prev_sel := selection st in
  let prev_multi := selected_items st in
  let prev_preview := temp_preview st in
  let prev_marquee := ds_marquee (draw_state st) in
  let st3 := during (hide_overlays st) in
  let st4 := foldl (fun s r => update_obj r (set_selected false) s) st3 (items st3) in
  let st5 := set_selected_items prev_multi st4 in
  let st6 := foldl (fun s r => update_obj r (set_selected true) s) st5
                   (selected_items st5) in
  let st7 := set_selection prev_sel st6 in
  let st8 := set_temp_preview prev_preview st7 in
  match prev_marquee with
  | Some m => set_draw_state (set_ds_marquee (Some m) (draw_state st8)) st8
  | None => st8
  end.

Definition set_snap_enabled (v : bool) (st : App) : App :=
  mkApp (objs st) (items st) (active_tool st) v (grid_m st) (zoom st)
        (origin st) (temp_preview st) (draw_state st) (selection st)
        (selected_items st) (pan st) (keep_rulers st) (rulers st).
Definition set_keep_rulers (v : bool) (st : App) : App :=
  mkApp (objs st) (items st) (active_tool st) (snap_enabled st) (grid_m st)
        (zoom st) (origin st) (temp_preview st) (draw_state st) (selection st)
        (selected_items st) (pan st) v (rulers st).

(** What the drawing pass ([_redraw]) does to the state: it writes into the
    items of the scene only (the canvas id of each, and for a Text item the
    three defaults, the render key and the screen box, which come from the
    rendered image). It is taken here as any rewrite [paint] of the items of
    the scene, which covers a pass that stops on an error as well. *)
Definition redraw_writes (paint : ref → Item → Item) (st : App) : App :=
  foldl (fun s r => update_obj r (paint r) s) st (items st).

(** What the user can do: the three left-button events (with the answer of
    the text prompt), a right click with the menu entry then chosen, the
    Delete key, loading a document, starting a new one, exporting, choosing
    a tool, the option widgets, panning and zooming; and the drawing pass
    that follows an event. An export carries the operations that are
    pending when it calls [self.update()], in the order of their dispatch;
    an export may be among them. *)
#[local] Unset Elimination Schemes.
Inductive Op :=
| LeftDown (e : Event) (txt : option string)
| LeftDrag (e : Event)
| LeftUp (e : Event)
| RightClick (e : Event) (choice : MenuChoice)
| DeleteKey
| LoadDoc (doc : Doc)
| NewFile
| ChooseTool (tool : string)
| PanStart (e : Event)
| PanDrag (e : Event)
| PanEnd
| SpaceKey (down : bool)
| Zoom (factor w h : R)
| ResetView
| ExportPng (pending : list Op)
| SnapToGrid (on : bool)
| KeepRulers (on : bool)
| MetersPerGrid (v : R)
| Redraw (paint : ref → Item → Item).
#[local] Set Elimination Schemes.

Definition set_active_tool (v : string) (st : App) : App :=
  mkApp (objs st) (items st) v (snap_enabled st) (grid_m st) (zoom st)
        (origin st) (temp_preview st) (draw_state st) (selection st)
        (selected_items st) (pan st) (keep_rulers st) (rulers st).

(** A handler that raises is reported by Tk and ends there: inside
    [self.update()] the dispatch goes on with the next pending event. *)
Fixpoint run_op (st : App) (o : Op) : option App :=
  match o with
  | LeftDown e txt => _on_left_down st e txt
  | LeftDrag e => _on_left_drag st e
  | LeftUp e => _on_left_up st e
  | RightClick e choice =>
    res ← _on_right_click st e;
    match res.2, choice with
    | Some r, MenuDelete => _delete_item res.1 r
    | Some r, MenuToggleMeasure =>
      it ← objs res.1 !! r;
      if decide (kind it ∈ ["room"; "wall"; "door"; "window"])
      then Some (_toggle_measure res.1 r) else Some res.1
    | Some r, MenuToggleArea =>
      it ← objs res.1 !! r;
      if decide (kind it = "room") then Some (_toggle_area res.1 r) else Some res.1
    | None, MenuClearRulers => Some (_clear_rulers res.1)
    | _, _ => Some res.1
    end
  | DeleteKey => Some (delete_selection st)
  | LoadDoc doc => Some (load_json st doc)
  | NewFile => Some (new_file st)
  | ChooseTool tool => Some (_tool_changed (set_active_tool tool st))
  | PanStart e => Some (_on_pan_start st e)
  | PanDrag e => Some (_on_pan_drag st e)
  | PanEnd => Some (set_pan (mkPan false (pan_space (pan st)) (pan_start (pan st))) st)
  | SpaceKey down =>
    Some (set_pan (mkPan (pan_active (pan st)) down (pan_start (pan st))) st)
  | Zoom factor w h => _zoom st factor w h
  | ResetView => Some (_reset_view st)
  | ExportPng pending =>
    Some (export_png
            (fun s => foldl (fun s' o' => default s' (run_op s' o')) s pending)
            st)
  | SnapToGrid on => Some (set_snap_enabled on st)
  | KeepRulers on => Some (set_keep_rulers on st)
  | MetersPerGrid v => Some (set_grid_m v st)
  | Redraw paint => Some (redraw_writes paint st)
  end.

(** The states the editor reaches from its initial state. *)
Inductive reachable : App → Prop :=
| reachable_init : reachable initial_app
| reachable_step (st st' : App) (o : Op) :
    reachable st → run_op st o = Some st' → reachable st'.

(** No event is pending when an export calls [self.update()]. *)
Definition quiet (o : Op) : Prop :=
  match o with
  | ExportPng (_ :: _) => False
  | _ => True
  end.

(** The states reached when every export finds no event pending. *)
Inductive reachable_quiet : App → Prop :=
| reachable_quiet_init : reachable_quiet initial_app
| reachable_quiet_step (st st' : App) (o : Op) :
    reachable_quiet st → quiet o → run_op st o = Some st' →
    reachable_quiet st'.

(** ** Further invariants of the editor state *)

(** The zoom is within its limits. *)
Definition zoom_in_range (st : App) : Prop := MIN_ZOOM <= zoom st <= MAX_ZOOM.

(** A single selection is the whole multi-selection. *)
Definition selection_coherent (st : App) : Prop :=
  ∀ r, selection st = Some r → selected_items st = [r].

(** [st'] has the zoom of [st], and its two selection views agree whenever
    those of [st] do. *)
Definition view_step (st st' : App) : Prop :=
  zoom st' = zoom st ∧ (selection_coherent st → selection_coherent st').

(** ** What the scans decide for one item *)


(** *** The scan over computed distances *)

(** What [_hit_test] computes for a Wall, Door or Window: the distance from
    the pointer to its canvas segment. *)
Definition seg_dist (st : App) (px py : R) (it : Item) : option R :=
  a ← get_point (data it) "a";
  b ← get_point (data it) "b";
  let '(x1, y1) := world_to_canvas st a.1 a.2 in
  let '(x2, y2) := world_to_canvas st b.1 b.2 in
  dist_point_to_segment px py x1 y1 x2 y2.

(** What [_hit_test] computes for a Room: nothing when its box grown by
    [HIT_TOL] does not hold the pointer, else the distance from the pointer
    to the nearest of the four edge lines. *)
Definition room_dist (st : App) (px py : R) (it : Item) : option (option R) :=
  a ← get_point (data it) "a";
  b ← get_point (data it) "b";
  let '(x0, y0) := world_to_canvas st (Rmin a.1 b.1) (Rmin a.2 b.2) in
  let '(x1, y1) := world_to_canvas st (Rmax a.1 b.1) (Rmax a.2 b.2) in
  if decide ((x0 - HIT_TOL <= px ∧ px <= x1 + HIT_TOL)
             ∧ (y0 - HIT_TOL <= py ∧ py <= y1 + HIT_TOL))
  then Some (Some (Rmin (Rmin (Rmin (Rabs (px - x0)) (Rabs (px - x1)))
                              (Rabs (py - y0))) (Rabs (py - y1))))
  else Some None.

(** The loop of [_hit_test] with the two computations as parameters: what
    it does with the distances, whatever numbers the arithmetic returns
    for them. *)
Fixpoint hit_scan (sd : Item → option R) (rd : Item → option (option R))
         (st : App) (px py : R) (l : list ref)
         (best : option ref) (bestd : R) : option (option ref) :=
  match l with
  | [] => Some best
  | r :: l' =>
    it ← objs st !! r;
    if decide (kind it ∈ ["wall"; "door"; "window"]) then
      d ← sd it;
      if decide (d <= HIT_TOL ∧ d < bestd)
      then hit_scan sd rd st px py l' (Some r) d
      else hit_scan sd rd st px py l' best bestd
    else if decide (kind it = "room") then
      od ← rd it;
      match od with
      | Some d =>
        if decide (d < bestd)
        then hit_scan sd rd st px py l' (Some r) d
        else hit_scan sd rd st px py l' best bestd
      | None => hit_scan sd rd st px py l' best bestd
      end
    else if decide (kind it = "text") then
      match bbox_canvas it with
      | Some (x0, y0, x1, y1) =>
        if decide ((x0 <= px ∧ px <= x1) ∧ (y0 <= py ∧ py <= y1))
        then Some (Some r)
        else hit_scan sd rd st px py l' best bestd
      | None => hit_scan sd rd st px py l' best bestd
      end
    else hit_scan sd rd st px py l' best bestd
  end.

(** The scan takes the item as a candidate at the computed distance [d]. *)
Definition scan_candidate (sd : Item → option R)
           (rd : Item → option (option R)) (it : Item) (d : R) : Prop :=
  (kind it ∈ ["wall"; "door"; "window"] ∧ sd it = Some d ∧ d <= HIT_TOL)
  ∨ (kind it = "room" ∧ rd it = Some (Some d)).

(** The marquee rectangle meets the item, as [_apply_marquee_selection]
    tests it: the box of a Room, the segment of a Wall, Door or Window, the
    cached screen box of a Text item. *)
Definition meets_marquee (st : App) (rect_px : rect) (it : Item) : Prop :=
  (kind it = "room"
   ∧ ∃ a b, get_point (data it) "a" = Some a ∧ get_point (data it) "b" = Some b
     ∧ let p0 := world_to_canvas st (Rmin a.1 b.1) (Rmin a.2 b.2) in
       let p1 := world_to_canvas st (Rmax a.1 b.1) (Rmax a.2 b.2) in
       rects_intersect rect_px (p0.1, p0.2, p1.1, p1.2) = true)
  ∨ (kind it ∈ ["wall"; "door"; "window"]
     ∧ ∃ a b, get_point (data it) "a" = Some a ∧ get_point (data it) "b" = Some b
       ∧ seg_intersects_rect (world_to_canvas st a.1 a.2)
                             (world_to_canvas st b.1 b.2) rect_px = true)
  ∨ (kind it = "text"
     ∧ ∃ bb, bbox_canvas it = Some bb ∧ rects_intersect rect_px bb = true).

(** The first box is inside the second. *)
Definition rect_within (b c : rect) : Prop :=
  c.1.1.1 <= b.1.1.1 ∧ c.1.1.2 <= b.1.1.2 ∧ b.1.2 <= c.1.2 ∧ b.2 <= c.2.

(** A Text item has the three keys [load_json] defaults. *)
Definition text_complete (it : Item) : Prop :=
  kind it = "text" →
  is_Some (data it !! "angle") ∧ is_Some (data it !! "size")
  ∧ is_Some (data it !! "color").

(** The [selected] flag of every item of the scene or of the multi-selection
    says whether the item is in the multi-selection. *)
Definition flags_agree (st : App) : Prop :=
  ∀ r it, objs st !! r = Some it → r ∈ items st ∨ r ∈ selected_items st →
          (selected it = true ↔ r ∈ selected_items st).

(** * Properties *)

(** ** Python primitives *)

Lemma div_Some (x y : R) : y ≠ 0 → Py.div x y = Some (x / y).
Proof. intros Hy. unfold Py.div. by case_decide. Qed.

Lemma hypot_0 : Py.hypot 0 0 = 0.
Proof. unfold Py.hypot. replace (0 * 0 + 0 * 0) with 0 by lra. apply sqrt_0. Qed.

Lemma hypot_nonneg (x y : R) : 0 <= Py.hypot x y.
Proof. apply sqrt_pos. Qed.

Lemma hypot_eq_0 (x y : R) : Py.hypot x y = 0 → x = 0 ∧ y = 0.
Proof.
  unfold Py.hypot. intros H.
  apply sqrt_eq_0 in H; [| nra].
  split; nra.
Qed.

Lemma hypot_scale (k x y : R) : 0 <= k → Py.hypot (k * x) (k * y) = k * Py.hypot x y.
Proof.
  intros Hk. unfold Py.hypot.
  replace (k * x * (k * x) + k * y * (k * y)) with (k * k * (x * x + y * y)) by ring.
  rewrite sqrt_mult_alt; [| nra].
  by rewrite sqrt_square.
Qed.

Lemma hypot_cos_sin (t : R) : Py.hypot (cos t) (sin t) = 1.
Proof.
  unfold Py.hypot.
  replace (cos t * cos t + sin t * sin t) with 1.
  - apply sqrt_1.
  - pose proof (sin2_cos2 t) as H. unfold Rsqr in H. lra.
Qed.

Lemma clamp_bounds (v lo hi : R) : lo <= hi → lo <= clamp v lo hi <= hi.
Proof.
  intros H. unfold clamp, Rmax, Rmin.
  repeat destruct (Rle_dec _ _); lra.
Qed.

Lemma int_eq (x : R) (n : Z) : 0 <= x → IZR n <= x < IZR n + 1 → Py.int x = n.
Proof.
  intros H0 [Hlo Hhi]. unfold Py.int. case_decide; [| lra].
  symmetry. apply Int_part_spec. lra.
Qed.

(** ** Coordinates *)

Lemma grid_px_pos (st : App) : MIN_ZOOM <= zoom st → 0 < grid_px st.
Proof. unfold grid_px, GRID_SIZE_PX, MIN_ZOOM. intros H. lra. Qed.

Lemma canvas_to_world_Some (st : App) (px py : R) :
  grid_px st ≠ 0 →
  canvas_to_world st px py
  = Some ((px - (origin st).1) / grid_px st, (py - (origin st).2) / grid_px st).
Proof.
  intros Hg. unfold canvas_to_world.
  by rewrite !div_Some.
Qed.

Lemma pointer_world_total (st : App) (px py : R) :
  grid_px st ≠ 0 → is_Some (pointer_world st px py).
Proof.
  intros Hg. unfold pointer_world.
  rewrite canvas_to_world_Some by done. simpl. eauto.
Qed.

Lemma pointer_world_eq (st : App) (px py : R) :
  grid_px st ≠ 0 →
  let wx := (px - (origin st).1) / grid_px st in
  let wy := (py - (origin st).2) / grid_px st in
  pointer_world st px py
  = Some (if snap_enabled st then (IZR (Py.round wx), IZR (Py.round wy))
          else (wx, wy)).
Proof.
  intros Hg. unfold pointer_world.
  rewrite canvas_to_world_Some by done. simpl.
  unfold snap_world. by destruct (snap_enabled st).
Qed.

(** C8. Canvas-to-world undoes world-to-canvas, for every world point, every
    origin and every zoom in [MIN_ZOOM, MAX_ZOOM], exactly over the reals. *)
Theorem canvas_to_world_of_world_to_canvas (st : App) (x y : R) :
  MIN_ZOOM <= zoom st <= MAX_ZOOM →
  canvas_to_world st (world_to_canvas st x y).1 (world_to_canvas st x y).2
  = Some (x, y).
Proof.
  intros [Hlo _].
  pose proof (grid_px_pos st Hlo) as Hg.
  rewrite canvas_to_world_Some; [| lra].
  unfold world_to_canvas. simpl.
  f_equal. f_equal; field; lra.
Qed.

Lemma canvas_to_world_of_world_to_canvas_witness :
  MIN_ZOOM <= zoom initial_app <= MAX_ZOOM
  ∧ canvas_to_world initial_app (world_to_canvas initial_app 3 4).1
                                (world_to_canvas initial_app 3 4).2
    = Some (3, 4).
Proof.
  assert (MIN_ZOOM <= zoom initial_app <= MAX_ZOOM) as H.
  { unfold MIN_ZOOM, MAX_ZOOM. simpl. lra. }
  split; [exact H |].
  exact (canvas_to_world_of_world_to_canvas initial_app 3 4 H).
Defined.

(** ** The object store *)

Lemma objs_update_obj_eq (r : ref) (f : Item → Item) (st : App) :
  objs (update_obj r f st) !! r = f <$> objs st !! r.
Proof. unfold update_obj. simpl. apply lookup_alter_eq. Qed.

Lemma objs_update_obj_ne (r r' : ref) (f : Item → Item) (st : App) :
  r ≠ r' → objs (update_obj r f st) !! r' = objs st !! r'.
Proof. intros H. unfold update_obj. simpl. by apply lookup_alter_ne. Qed.

Lemma get_point_insert_eq (d : gmap string value) (k : string) (x y : R) :
  get_point (<[k := VPoint x y]> d) k = Some (x, y).
Proof. unfold get_point. by rewrite lookup_insert_eq. Qed.

Lemma get_point_insert_ne (d : gmap string value) (k k' : string) (v : value) :
  k ≠ k' → get_point (<[k := v]> d) k' = get_point d k'.
Proof. intros H. unfold get_point. by rewrite lookup_insert_ne. Qed.

Lemma get_point_ab_data (a b : point) :
  get_point (ab_data a b) "a" = Some a ∧ get_point (ab_data a b) "b" = Some b.
Proof.
  destruct a as [ax ay], b as [bx by_]. unfold ab_data. simpl. split.
  - apply get_point_insert_eq.
  - rewrite get_point_insert_ne; [| done]. apply get_point_insert_eq.
Qed.

(** ** Segment normal and segment rotation *)

Lemma or_else_hypot_nonzero (x y : R) : Py.or_else (Py.hypot x y) 1 ≠ 0.
Proof. unfold Py.or_else. case_decide; [lra | done]. Qed.

Lemma seg_normal_eq (x1 y1 x2 y2 : R) :
  seg_normal x1 y1 x2 y2
  = Some (- (y2 - y1) / Py.or_else (Py.hypot (x2 - x1) (y2 - y1)) 1,
          (x2 - x1) / Py.or_else (Py.hypot (x2 - x1) (y2 - y1)) 1).
Proof.
  unfold seg_normal.
  pose proof (or_else_hypot_nonzero (x2 - x1) (y2 - y1)) as HL.
  by rewrite !div_Some.
Qed.

(** The normal never faults. *)
Lemma seg_normal_total (x1 y1 x2 y2 : R) : is_Some (seg_normal x1 y1 x2 y2).
Proof. rewrite seg_normal_eq. eauto. Qed.

(** On a zero-length segment the divisor falls back to 1 and the result is
    the zero vector. *)
Lemma seg_normal_degenerate (x y : R) : seg_normal x y x y = Some (0, 0).
Proof.
  rewrite seg_normal_eq.
  replace (x - x) with 0 by lra. replace (y - y) with 0 by lra.
  rewrite hypot_0. unfold Py.or_else.
  case_decide; [| done].
  f_equal. f_equal; field.
Qed.

(** Off the degenerate case the normal is a unit vector, perpendicular to the
    segment. *)
Lemma seg_normal_unit (x1 y1 x2 y2 : R) (n : point) :
  (x1, y1) ≠ (x2, y2) →
  seg_normal x1 y1 x2 y2 = Some n →
  Py.hypot n.1 n.2 = 1 ∧ n.1 * (x2 - x1) + n.2 * (y2 - y1) = 0.
Proof.
  intros Hne. rewrite seg_normal_eq. intros [= <-]. simpl.
  set (dx := x2 - x1). set (dy := y2 - y1).
  assert (Py.hypot dx dy ≠ 0) as Hh.
  { intros H0. apply hypot_eq_0 in H0 as [Hx Hy]. apply Hne.
    subst dx dy. f_equal; lra. }
  unfold Py.or_else. case_decide; [done |].
  pose proof (hypot_nonneg dx dy) as Hpos.
  split; [| field; done].
  replace (- dy / Py.hypot dx dy) with (/ Py.hypot dx dy * (- dy)) by (field; done).
  replace (dx / Py.hypot dx dy) with (/ Py.hypot dx dy * dx) by (field; done).
  rewrite hypot_scale.
  - assert (Py.hypot (- dy) dx = Py.hypot dx dy) as ->.
    { unfold Py.hypot. f_equal. ring. }
    field; done.
  - left. apply Rinv_0_lt_compat. lra.
Qed.

(** What [_update_segment_rotate] computes before the snap: the endpoints
    sit at half the floored length from the stored centre, along the
    direction whose angle is the cursor's angle delta alone. *)
Lemma rotated_endpoints_eq (st : App) (c : point) (len sc px py : R) :
  let L := Rmax (1 / 1000000) len in
  let wc := world_to_canvas st c.1 c.2 in
  let theta := Py.radians (screen_angle wc.1 wc.2 px py - sc) in
  rotated_endpoints st c len sc px py
  = ((c.1 - L / 2 * cos theta, c.2 - L / 2 * sin theta),
     (c.1 + L / 2 * cos theta, c.2 + L / 2 * sin theta)).
Proof. destruct c as [cx cy]. reflexivity. Qed.

Lemma rotated_endpoints_radius (st : App) (c : point) (len sc px py : R) :
  let ab := rotated_endpoints st c len sc px py in
  Py.hypot (ab.1.1 - c.1) (ab.1.2 - c.2) = Rmax (1 / 1000000) len / 2
  ∧ Py.hypot (ab.2.1 - c.1) (ab.2.2 - c.2) = Rmax (1 / 1000000) len / 2.
Proof.
  rewrite rotated_endpoints_eq. simpl.
  set (L := Rmax (1 / 1000000) len).
  set (t := Py.radians _).
  assert (0 <= L / 2) as HL.
  { subst L. unfold Rmax. destruct (Rle_dec _ _); lra. }
  split.
  - replace (c.1 - L / 2 * cos t - c.1) with (L / 2 * (- cos t)) by ring.
    replace (c.2 - L / 2 * sin t - c.2) with (L / 2 * (- sin t)) by ring.
    rewrite hypot_scale; [| done].
    assert (Py.hypot (- cos t) (- sin t) = Py.hypot (cos t) (sin t)) as ->.
    { unfold Py.hypot. f_equal. ring. }
    rewrite hypot_cos_sin. ring.
  - replace (c.1 + L / 2 * cos t - c.1) with (L / 2 * cos t) by ring.
    replace (c.2 + L / 2 * sin t - c.2) with (L / 2 * sin t) by ring.
    rewrite hypot_scale; [| done].
    rewrite hypot_cos_sin. ring.
Qed.

Lemma begin_segment_rotate_eq (st : App) (r : ref) (it : Item) (a b : point)
      (px py : R) :
  objs st !! r = Some it →
  get_point (data it) "a" = Some a →
  get_point (data it) "b" = Some b →
  let c := ((a.1 + b.1) / 2, (a.2 + b.2) / 2) in
  let wc := world_to_canvas st c.1 c.2 in
  _begin_segment_rotate st r px py
  = Some (set_transform (seg_rotate r c (Py.hypot (b.1 - a.1) (b.2 - a.2))
                                    (screen_angle wc.1 wc.2 px py)) st).
Proof.
  intros Hr Ha Hb. unfold _begin_segment_rotate.
  rewrite Hr. simpl. rewrite Ha. simpl. rewrite Hb. reflexivity.
Qed.

(** With snapping off, a rotate update stores exactly [rotated_endpoints]. *)
Lemma update_segment_rotate_eq (st : App) (r : ref) (it : Item) (c : point)
      (len sc px py : R) :
  ds_transform (draw_state st) = Some (seg_rotate r c len sc) →
  objs st !! r = Some it →
  snap_enabled st = false →
  ∃ st' it',
    _update_segment_rotate st px py = Some st'
    ∧ objs st' !! r = Some it'
    ∧ get_point (data it') "a" = Some (rotated_endpoints st c len sc px py).1
    ∧ get_point (data it') "b" = Some (rotated_endpoints st c len sc px py).2.
Proof.
  intros Ht Hr Hs. unfold _update_segment_rotate. rewrite Ht.
  destruct (rotated_endpoints st c len sc px py) as [[ax ay] [bx by_]].
  rewrite Hr. simpl.
  eexists _, _. split; [reflexivity |].
  rewrite objs_update_obj_eq, Hr. simpl. split; [reflexivity |].
  destruct (snap_enabled st); [done |]. simpl. split.
  - rewrite get_point_insert_ne; [| done]. apply get_point_insert_eq.
  - apply get_point_insert_eq.
Qed.

(** A rotate update stores [rotated_endpoints], each rounded to the grid
    when snapping is on. *)
Lemma update_segment_rotate_stored (st : App) (r : ref) (it : Item) (c : point)
      (len sc px py : R) :
  ds_transform (draw_state st) = Some (seg_rotate r c len sc) →
  objs st !! r = Some it →
  let ab := rotated_endpoints st c len sc px py in
  ∃ st' it',
    _update_segment_rotate st px py = Some st'
    ∧ objs st' !! r = Some it'
    ∧ get_point (data it') "a"
      = Some (if snap_enabled st
              then (IZR (Py.round ab.1.1), IZR (Py.round ab.1.2)) else ab.1)
    ∧ get_point (data it') "b"
      = Some (if snap_enabled st
              then (IZR (Py.round ab.2.1), IZR (Py.round ab.2.2)) else ab.2).
Proof.
  intros Ht Hr. cbv zeta. unfold _update_segment_rotate. rewrite Ht.
  destruct (rotated_endpoints st c len sc px py) as [[ax ay] [bx by_]].
  rewrite Hr. simpl.
  eexists _, _. split; [reflexivity |].
  rewrite objs_update_obj_eq, Hr. simpl. split; [reflexivity |].
  unfold snap_world. destruct (snap_enabled st); simpl; split;
    first [ apply get_point_insert_eq
          | rewrite get_point_insert_ne; [| done]; apply get_point_insert_eq ].
Qed.

(** Rounding a number less than a half away from an integer gives it. *)
Lemma round_near_int (n : Z) (x : R) : Rabs (x - IZR n) < 1 / 2 → Py.round x = n.
Proof.
  intros Hx. apply Rabs_def2 in Hx as [Hhi Hlo]. unfold Py.round. cbv zeta.
  destruct (Rle_dec (IZR n) x) as [Hle | Hgt].
  - assert (Int_part x = n) as ->.
    { symmetry. apply Int_part_spec. lra. }
    rewrite decide_True by lra. done.
  - assert (Int_part x = (n - 1)%Z) as ->.
    { symmetry. apply Int_part_spec. rewrite minus_IZR. lra. }
    rewrite minus_IZR.
    rewrite decide_False by lra. rewrite decide_True by lra. lia.
Qed.

(** C3, as the code has it. For a zero-length segment, the normal divides by
    the fallback length 1 and is the zero vector (for any other segment it
    is a unit vector); a rotate session started on it records length 0 and
    its update, which divides by nothing, floors the length at 1e-6: with
    snapping off the stored endpoints are the segment's point less and plus
    5e-7 (cos t, sin t), so 5e-7 away from it on either side (in exact
    arithmetic; as floats, up to the rounding of the subtraction and the
    sum); with snapping on the update stores these two points rounded to
    the grid, which for a segment at a grid point is that point twice.
    Neither operation faults. *)
Theorem degenerate_segment_fallbacks (st : App) (r : ref) (it : Item)
        (p : point) (px0 py0 px py : R) :
  objs st !! r = Some it →
  get_point (data it) "a" = Some p →
  get_point (data it) "b" = Some p →
  seg_normal p.1 p.2 p.1 p.2 = Some (0, 0)
  ∧ (∀ q : point, p ≠ q →
       ∃ n, seg_normal p.1 p.2 q.1 q.2 = Some n ∧ Py.hypot n.1 n.2 = 1)
  ∧ ∃ st1 sc st' it' a' b',
      _begin_segment_rotate st r px0 py0 = Some st1
      ∧ ds_transform (draw_state st1) = Some (seg_rotate r p 0 sc)
      ∧ _update_segment_rotate st1 px py = Some st'
      ∧ objs st' !! r = Some it'
      ∧ get_point (data it') "a" = Some a'
      ∧ get_point (data it') "b" = Some b'
      ∧ let ab := rotated_endpoints st1 p 0 sc px py in
        Py.hypot (ab.1.1 - p.1) (ab.1.2 - p.2) = 1 / 2000000
        ∧ Py.hypot (ab.2.1 - p.1) (ab.2.2 - p.2) = 1 / 2000000
        ∧ ab.1.1 + ab.2.1 = 2 * p.1 ∧ ab.1.2 + ab.2.2 = 2 * p.2
        ∧ (snap_enabled st = false → a' = ab.1 ∧ b' = ab.2)
        ∧ (snap_enabled st = true →
           a' = (IZR (Py.round ab.1.1), IZR (Py.round ab.1.2))
           ∧ b' = (IZR (Py.round ab.2.1), IZR (Py.round ab.2.2))
           ∧ ∀ i j : Z, p = (IZR i, IZR j) → a' = p ∧ b' = p).
Proof.
  intros Hr Ha Hb. split; [apply seg_normal_degenerate |].
  split.
  { intros q Hpq.
    destruct (seg_normal_total p.1 p.2 q.1 q.2) as [n Hn].
    exists n. split; [exact Hn |].
    apply (seg_normal_unit p.1 p.2 q.1 q.2 n); [| exact Hn].
    by destruct p, q. }
  rewrite (begin_segment_rotate_eq st r it p p px0 py0 Hr Ha Hb).
  assert (∀ sc, seg_rotate r ((p.1 + p.1) / 2, (p.2 + p.2) / 2)
                           (Py.hypot (p.1 - p.1) (p.2 - p.2)) sc
                = seg_rotate r p 0 sc) as Heq.
  { intros sc. destruct p as [x y]. simpl.
    replace (x - x) with 0 by lra. replace (y - y) with 0 by lra.
    rewrite hypot_0. do 2 f_equal; lra. }
  cbv zeta. rewrite Heq.
  set (sc := screen_angle _ _ px0 py0).
  set (st1 := set_transform (seg_rotate r p 0 sc) st).
  assert (ds_transform (draw_state st1) = Some (seg_rotate r p 0 sc)) as Ht
    by reflexivity.
  destruct (update_segment_rotate_stored st1 r it p 0 sc px py Ht Hr)
    as (st' & it' & Hupd & Hr' & Ha' & Hb').
  cbv zeta in Ha', Hb'.
  change (snap_enabled st1) with (snap_enabled st) in Ha', Hb'.
  destruct (rotated_endpoints_radius st1 p 0 sc px py) as [Hra Hrb].
  assert (Rmax (1 / 1000000) 0 / 2 = 1 / 2000000) as Hm.
  { unfold Rmax. destruct (Rle_dec _ _); lra. }
  rewrite Hm in Hra, Hrb.
  pose proof (rotated_endpoints_eq st1 p 0 sc px py) as Hab. cbv zeta in Hab.
  set (t := Py.radians _) in Hab.
  assert (Rmax (1 / 1000000) 0 / 2 = 1 / 2000000) as HL by exact Hm.
  rewrite HL in Hab.
  eexists st1, sc, st', it', _, _.
  split; [reflexivity |]. split; [exact Ht |]. split; [exact Hupd |].
  split; [exact Hr' |]. split; [exact Ha' |]. split; [exact Hb' |].
  split; [exact Hra |]. split; [exact Hrb |].
  split; [rewrite Hab; simpl; lra |]. split; [rewrite Hab; simpl; lra |].
  split.
  { intros ->. done. }
  intros ->. split; [done |]. split; [done |].
  intros i j ->. rewrite Hab. simpl.
  pose proof (COS_bound t) as [Hc1 Hc2]. pose proof (SIN_bound t) as [Hs1 Hs2].
  assert (∀ (n : Z) (e : R), -1 <= e <= 1 →
            Py.round (IZR n - 1 / 2000000 * e) = n
            ∧ Py.round (IZR n + 1 / 2000000 * e) = n) as Hround.
  { intros n e He. split; apply round_near_int; apply Rabs_def1; lra. }
  destruct (Hround i (cos t) (conj Hc1 Hc2)) as [-> ->].
  destruct (Hround j (sin t) (conj Hs1 Hs2)) as [-> ->]. done.
Qed.

Lemma point_wall_lookup :
  objs point_wall_app !! 0%nat = Some (new_item "wall" (ab_data (1, 2) (1, 2))).
Proof. unfold point_wall_app. simpl. apply lookup_singleton_eq. Qed.

Lemma snapped_point_wall_lookup :
  objs snapped_point_wall_app !! 0%nat
  = Some (new_item "wall" (ab_data (1, 2) (1, 2))).
Proof. unfold snapped_point_wall_app. simpl. apply lookup_singleton_eq. Qed.

Lemma degenerate_segment_fallbacks_witness :
  (∃ st1 st' it' a' b',
      _begin_segment_rotate point_wall_app 0 100 100 = Some st1
      ∧ _update_segment_rotate st1 120 130 = Some st'
      ∧ objs st' !! 0%nat = Some it'
      ∧ get_point (data it') "a" = Some a'
      ∧ get_point (data it') "b" = Some b'
      ∧ Py.hypot (a'.1 - 1) (a'.2 - 2) = 1 / 2000000
      ∧ Py.hypot (b'.1 - 1) (b'.2 - 2) = 1 / 2000000)
  ∧ (∃ st1 st' it',
        _begin_segment_rotate snapped_point_wall_app 0 100 100 = Some st1
        ∧ _update_segment_rotate st1 120 130 = Some st'
        ∧ objs st' !! 0%nat = Some it'
        ∧ get_point (data it') "a" = Some (1, 2)
        ∧ get_point (data it') "b" = Some (1, 2)).
Proof.
  split.
  - destruct (degenerate_segment_fallbacks point_wall_app 0%nat
                (new_item "wall" (ab_data (1, 2) (1, 2))) (1, 2) 100 100 120 130
                point_wall_lookup
                (proj1 (get_point_ab_data (1, 2) (1, 2)))
                (proj2 (get_point_ab_data (1, 2) (1, 2))))
      as (_ & _ & st1 & sc & st' & it' & a' & b' & Hb & _ & Hu & Hr & Ha' & Hb'
          & Hra & Hrb & _ & _ & Hoff & _).
    destruct (Hoff eq_refl) as [-> ->].
    eexists st1, st', it', _, _.
    split; [exact Hb |]. split; [exact Hu |]. split; [exact Hr |].
    split; [exact Ha' |]. split; [exact Hb' |]. split; [exact Hra | exact Hrb].
  - destruct (degenerate_segment_fallbacks snapped_point_wall_app 0%nat
                (new_item "wall" (ab_data (1, 2) (1, 2))) (1, 2) 100 100 120 130
                snapped_point_wall_lookup
                (proj1 (get_point_ab_data (1, 2) (1, 2)))
                (proj2 (get_point_ab_data (1, 2) (1, 2))))
      as (_ & _ & st1 & sc & st' & it' & a' & b' & Hb & _ & Hu & Hr & Ha' & Hb'
          & _ & _ & _ & _ & _ & Hon).
    destruct (Hon eq_refl) as (_ & _ & Hgrid).
    destruct (Hgrid 1%Z 2%Z eq_refl) as [-> ->].
    exists st1, st', it'. done.
Defined.

(** C3, as stated, fails: on the zero-length segment at the origin the
    normal is the zero vector, whose length is not 1, and the rotate update
    places the endpoints 5e-7 from the centre, not at a unit radius. *)
Lemma degenerate_segment_not_unit :
  seg_normal 0 0 0 0 = Some (0, 0)
  ∧ Py.hypot 0 0 ≠ 1
  ∧ (let ab := rotated_endpoints initial_app (0, 0) 0 0 0 0 in
     Py.hypot (ab.1.1 - 0) (ab.1.2 - 0) = 1 / 2000000
     ∧ Py.hypot (ab.1.1 - 0) (ab.1.2 - 0) ≠ 1).
Proof.
  split; [apply seg_normal_degenerate |].
  split; [rewrite hypot_0; lra |].
  cbv zeta.
  set (ab := rotated_endpoints initial_app (0, 0) 0 0 0 0).
  assert (Py.hypot (ab.1.1 - 0) (ab.1.2 - 0) = 1 / 2000000) as Hg.
  { destruct (rotated_endpoints_radius initial_app (0, 0) 0 0 0 0) as [H _].
    assert (Rmax (1 / 1000000) 0 / 2 = 1 / 2000000) as Hm.
    { unfold Rmax. destruct (Rle_dec _ _); lra. }
    rewrite Hm in H. exact H. }
  split; [exact Hg | rewrite Hg; lra].
Qed.

(** ** Rotating a segment *)

Lemma screen_angle_north (cx cy py : R) : py < cy → screen_angle cx cy cx py = 90.
Proof.
  intros H. unfold screen_angle, Py.atan2, Py.degrees.
  case_decide; [lra |]. case_decide; [lra |]. case_decide; [| lra].
  field. apply PI_neq0.
Qed.

Lemma screen_angle_west (cx cy px : R) : px < cx → screen_angle cx cy px cy = 180.
Proof.
  intros H. unfold screen_angle, Py.atan2, Py.degrees.
  case_decide; [lra |]. case_decide; [| lra]. case_decide; [| lra].
  replace ((cy - cy) / (px - cx)) with 0 by (field; lra).
  rewrite atan_0. field. apply PI_neq0.
Qed.

Lemma radians_neg_90 : Py.radians (- 90) = - (PI / 2).
Proof. unfold Py.radians. field. Qed.

Lemma hypot_vertical (y : R) : 0 <= y → Py.hypot 0 y = y.
Proof.
  intros H. unfold Py.hypot.
  replace (0 * 0 + y * y) with (y * y) by ring.
  by apply sqrt_square.
Qed.

Lemma vertical_wall_lookup :
  objs vertical_wall_app !! 0%nat = Some (new_item "wall" (ab_data (0, 0) (0, 5))).
Proof. unfold vertical_wall_app. simpl. apply lookup_singleton_eq. Qed.

Lemma vertical_wall_handle_size : _handle_size vertical_wall_app = 8.
Proof.
  unfold _handle_size, HANDLE_SIZE. simpl zoom.
  rewrite (int_eq (8 * 1) 8) by lra. reflexivity.
Qed.

Lemma vertical_wall_rotate_offset : rotate_handle_offset vertical_wall_app = 28.
Proof.
  unfold rotate_handle_offset, ROTATE_HANDLE_OFFSET. simpl zoom.
  rewrite (int_eq (28 * 1) 28) by lra. reflexivity.
Qed.

Lemma seg_normal_vertical_wall : seg_normal 80 80 80 240 = Some (-1, 0).
Proof.
  rewrite seg_normal_eq.
  replace (80 - 80) with 0 by lra. replace (240 - 80) with 160 by lra.
  rewrite hypot_vertical by lra.
  unfold Py.or_else. rewrite decide_False by lra.
  f_equal. f_equal; lra.
Qed.

Lemma on_handle_true (hs hx hy px py : R) :
  hx - hs / 2 <= px <= hx + hs / 2 → hy - hs / 2 <= py <= hy + hs / 2 →
  on_handle hs hx hy px py = true.
Proof.
  intros Hx Hy. unfold on_handle.
  by rewrite !bool_decide_eq_true_2.
Qed.

Lemma on_handle_false_x (hs hx hy px py : R) :
  px < hx - hs / 2 → on_handle hs hx hy px py = false.
Proof.
  intros Hx. unfold on_handle.
  rewrite bool_decide_eq_false_2; [done | lra].
Qed.

(** The rotate handle of the vertical wall sits at canvas (52,160), 28
    pixels off the midpoint along the normal. *)
Lemma vertical_wall_rotate_handle :
  _hit_segment_handle vertical_wall_app (new_item "wall" (ab_data (0, 0) (0, 5)))
                      52 160 = Some (Some "rotate").
Proof.
  unfold _hit_segment_handle.
  destruct (get_point_ab_data (0, 0) (0, 5)) as [Ha Hb].
  simpl data. rewrite Ha, Hb. simpl.
  replace (80 + 0 * grid_px vertical_wall_app) with 80
    by (unfold grid_px, GRID_SIZE_PX; simpl; lra).
  replace (80 + 5 * grid_px vertical_wall_app) with 240
    by (unfold grid_px, GRID_SIZE_PX; simpl; lra).
  rewrite vertical_wall_handle_size, vertical_wall_rotate_offset.
  rewrite !on_handle_false_x by lra.
  rewrite seg_normal_vertical_wall. simpl.
  rewrite on_handle_true by lra. reflexivity.
Qed.

(** Pressing the button on that handle begins the rotate session. *)
Lemma vertical_wall_press_rotate_handle :
  _on_left_down vertical_wall_app (mkEvent 52 160 0) None
  = _begin_segment_rotate vertical_wall_app 0 52 160.
Proof.
  assert (grid_px vertical_wall_app ≠ 0) as Hg.
  { unfold grid_px, GRID_SIZE_PX. simpl. lra. }
  destruct (pointer_world_total vertical_wall_app 52 160 Hg) as [w Hw].
  unfold _on_left_down. simpl ev_x. simpl ev_y. simpl ev_state. rewrite Hw.
  change (pan_active (pan vertical_wall_app)) with false.
  change (active_tool vertical_wall_app) with "select".
  cbn [mbind option_bind]. rewrite decide_True by done.
  unfold _select_or_begin_transform.
  assert (select_group_move vertical_wall_app 52 160 = Some None) as -> by reflexivity.
  cbn [mbind option_bind].
  assert (select_handles vertical_wall_app 52 160 0
          = Some <$> _begin_segment_rotate vertical_wall_app 0 52 160) as ->.
  { unfold select_handles.
    change (selection vertical_wall_app) with (Some 0%nat). cbv beta iota.
    rewrite vertical_wall_lookup. cbn [mbind option_bind].
    change (kind (new_item "wall" (ab_data (0, 0) (0, 5)))) with "wall".
    literal_decide.
    rewrite vertical_wall_rotate_handle. cbn [mbind option_bind].
    by literal_decide. }
  by destruct (_begin_segment_rotate vertical_wall_app 0 52 160).
Qed.

(** C1 at a failing input. The vertical Wall from (0,0) to (0,5), selected,
    has its midpoint at canvas (80,160) and its rotate handle at (52,160).
    Pressing the button on the handle and dragging the pointer to (80,130),
    a quarter turn of the cursor about the midpoint, stores the endpoints
    (0,5) and (0,0): the wall is still vertical, not perpendicular to what it
    was. The update builds the direction from the cursor delta alone and
    leaves the wall's initial direction out. *)
Theorem rotate_vertical_wall_quarter_turn :
  ∃ st1 st2 it',
    _on_left_down vertical_wall_app (mkEvent 52 160 0) None = Some st1
    ∧ _on_left_drag st1 (mkEvent 80 130 0) = Some st2
    ∧ world_to_canvas vertical_wall_app 0 (5 / 2) = (80, 160)
    ∧ screen_angle 80 160 80 130 - screen_angle 80 160 52 160 = -90
    ∧ objs st2 !! 0%nat = Some it'
    ∧ get_point (data it') "a" = Some (0, 5)
    ∧ get_point (data it') "b" = Some (0, 0).
Proof.
  pose proof (get_point_ab_data (0, 0) (0, 5)) as [Ha Hb].
  pose proof (begin_segment_rotate_eq vertical_wall_app 0%nat _ _ _ 52 160
                vertical_wall_lookup Ha Hb) as Hbegin.
  cbv zeta in Hbegin.
  set (sc := screen_angle _ _ 52 160) in Hbegin.
  set (len := Py.hypot _ _) in Hbegin.
  set (c := ((((0, 0) : point).1 + ((0, 5) : point).1) / 2,
             (((0, 0) : point).2 + ((0, 5) : point).2) / 2)) in Hbegin.
  set (st1 := set_transform (seg_rotate 0%nat c len sc) vertical_wall_app) in Hbegin.
  destruct (update_segment_rotate_eq st1 0%nat _ c len sc 80 130
              eq_refl vertical_wall_lookup eq_refl)
    as (st2 & it' & Hupd & Hobj & Hga & Hgb).
  assert (world_to_canvas vertical_wall_app 0 (5 / 2) = (80, 160)) as Hwc.
  { unfold world_to_canvas, grid_px, GRID_SIZE_PX. simpl. f_equal; lra. }
  assert (sc = 180) as Hsc.
  { subst sc c. unfold world_to_canvas, grid_px, GRID_SIZE_PX. simpl.
    replace (80 + (0 + 0) / 2 * (32 * 1)) with 80 by lra.
    replace (80 + (0 + 5) / 2 * (32 * 1)) with 160 by lra.
    apply screen_angle_west. lra. }
  assert (len = 5) as Hlen.
  { subst len. simpl. replace (0 - 0) with 0 by lra. replace (5 - 0) with 5 by lra.
    apply hypot_vertical. lra. }
  assert (rotated_endpoints st1 c len sc 80 130 = ((0, 5), (0, 0))) as Hrot.
  { rewrite rotated_endpoints_eq. cbv zeta.
    rewrite Hsc, Hlen. subst c.
    unfold world_to_canvas, grid_px, GRID_SIZE_PX. simpl.
    replace (80 + (0 + 0) / 2 * (32 * 1)) with 80 by lra.
    replace (80 + (0 + 5) / 2 * (32 * 1)) with 160 by lra.
    rewrite (screen_angle_north 80 160 130) by lra.
    replace (90 - 180) with (- 90) by lra.
    rewrite radians_neg_90, cos_neg, sin_neg, cos_PI2, sin_PI2.
    assert (Rmax (1 / 1000000) 5 = 5) as ->.
    { unfold Rmax. destruct (Rle_dec _ _); lra. }
    f_equal; f_equal; lra. }
  rewrite Hrot in Hga, Hgb.
  exists st1, st2, it'.
  split; [by rewrite vertical_wall_press_rotate_handle |].
  split.
  { assert (grid_px st1 ≠ 0) as Hg.
    { unfold grid_px, GRID_SIZE_PX. simpl. lra. }
    destruct (pointer_world_total st1 80 130 Hg) as [w Hw].
    unfold _on_left_drag. simpl ev_x. simpl ev_y. rewrite Hw.
    exact Hupd. }
  split; [exact Hwc |].
  split.
  { rewrite (screen_angle_north 80 160 130) by lra.
    rewrite (screen_angle_west 80 160 52) by lra. lra. }
  split; [exact Hobj |].
  split; [exact Hga | exact Hgb].
Qed.

(** ** Scaling a Text item *)









Lemma text_data_lookups (x y : R) (s : string) :
  text_data x y s !! "size" = Some (VNum 18)
  ∧ text_data x y s !! "angle" = Some (VNum 0)
  ∧ text_data x y s !! "p" = Some (VPoint x y).
Proof.
  unfold text_data. split_and!; reflexivity.
Qed.




(** ** Loops over the store *)

Section foldl_update_obj.
Variable f : Item → Item.

Lemma foldl_update_obj_frame (l : list ref) (st : App) :
  let st' := foldl (fun s r => update_obj r f s) st l in
  items st' = items st ∧ selection st' = selection st
  ∧ selected_items st' = selected_items st
  ∧ draw_state st' = draw_state st ∧ zoom st' = zoom st
  ∧ origin st' = origin st ∧ snap_enabled st' = snap_enabled st.
Proof.
  revert st. induction l as [| r l IH]; intros st; simpl; [done |].
  apply (IH (update_obj r f st)).
Qed.

Lemma foldl_update_obj_notin (l : list ref) (st : App) (r : ref) :
  r ∉ l →
  objs (foldl (fun s r => update_obj r f s) st l) !! r = objs st !! r.
Proof.
  revert st. induction l as [| r' l IH]; intros st Hr; simpl; [done |].
  apply not_elem_of_cons in Hr as [Hne Hr].
  rewrite IH by done. by apply objs_update_obj_ne.
Qed.

Lemma foldl_update_obj_in (l : list ref) (st : App) (r : ref) :
  NoDup l → r ∈ l →
  objs (foldl (fun s r => update_obj r f s) st l) !! r = f <$> objs st !! r.
Proof.
  revert st. induction l as [| r' l IH]; intros st Hnd Hr; simpl.
  - by apply elem_of_nil in Hr.
  - apply NoDup_cons in Hnd as [Hnotin Hnd].
    apply elem_of_cons in Hr as [-> | Hr].
    + rewrite foldl_update_obj_notin by done. apply objs_update_obj_eq.
    + rewrite IH by done.
      rewrite objs_update_obj_ne; [done |].
      intros ->. done.
Qed.
End foldl_update_obj.

Lemma clear_selection_frame (st : App) :
  items (_clear_selection st) = items st
  ∧ selection (_clear_selection st) = None
  ∧ selected_items (_clear_selection st) = []
  ∧ draw_state (_clear_selection st) = draw_state st.
Proof.
  unfold _clear_selection. simpl.
  destruct (foldl_update_obj_frame (set_selected false) (items st) st)
    as (? & ? & ? & ? & _).
  done.
Qed.

Lemma clear_selection_objs (st : App) (r : ref) :
  ∃ g : Item → Item,
    objs (_clear_selection st) !! r = g <$> objs st !! r
    ∧ ∀ it, kind (g it) = kind it ∧ data (g it) = data it
            ∧ bbox_canvas (g it) = bbox_canvas it.
Proof.
  unfold _clear_selection. simpl.
  generalize (items st) as l. intros l. revert st.
  induction l as [| r' l IH]; intros st; simpl.
  - exists (fun it => it). split; [by rewrite option_fmap_id | done].
  - destruct (IH (update_obj r' (set_selected false) st)) as (g & Hg & Hk).
    destruct (decide (r' = r)) as [-> | Hne].
    + exists (fun it => g (set_selected false it)). split.
      * rewrite Hg, objs_update_obj_eq. by destruct (objs st !! r).
      * intros it. destruct (Hk (set_selected false it)) as (? & ? & ?). done.
    + exists g. split; [| done].
      rewrite Hg. by rewrite objs_update_obj_ne.
Qed.

(** ** The Text ranges *)



Lemma alloc_objs (it : Item) (st : App) :
  objs (alloc it st).2 = <[(alloc it st).1 := it]> (objs st)
  ∧ objs st !! (alloc it st).1 = None
  ∧ items (alloc it st).2 = items st.
Proof.
  unfold alloc. simpl. split; [done |]. split; [| done].
  apply not_elem_of_dom. apply is_fresh.
Qed.

Lemma append_item_spec (k : string) (d : gmap string value) (st : App) :
  ∃ r, items (append_item k d st) = items st ++ [r]
       ∧ objs st !! r = None
       ∧ objs (append_item k d st) = <[r := new_item k d]> (objs st)
       ∧ selection (append_item k d st) = selection st
       ∧ selected_items (append_item k d st) = selected_items st.
Proof.
  unfold append_item, alloc. simpl.
  exists (fresh (dom (objs st))).
  split_and!; try done.
  apply not_elem_of_dom. apply is_fresh.
Qed.






(** ** Loading a document *)

Lemma load_items_cons (st : App) (k : string) (d : gmap string value)
      (l : list (string * gmap string value)) :
  load_items st ((k, d) :: l)
  = ((alloc (new_item k d) st).1 :: (load_items (alloc (new_item k d) st).2 l).1,
     (load_items (alloc (new_item k d) st).2 l).2).
Proof.
  cbn [load_items].
  destruct (alloc (new_item k d) st) as [r st1]. cbn [fst snd].
  by destruct (load_items st1 l).
Qed.

Lemma load_items_spec (l : list (string * gmap string value)) (st : App) :
  NoDup (load_items st l).1
  ∧ (∀ r, r ∈ (load_items st l).1 → objs st !! r = None)
  ∧ Forall2 (fun r kd => objs (load_items st l).2 !! r = Some (new_item kd.1 kd.2))
            (load_items st l).1 l
  ∧ (∀ r it, objs st !! r = Some it → objs (load_items st l).2 !! r = Some it).
Proof.
  revert st. induction l as [| [k d] l IH]; intros st.
  - simpl. split; [constructor |].
    split; [intros r Hr; by apply elem_of_nil in Hr |].
    split; [constructor | done].
  - rewrite load_items_cons.
    destruct (alloc_objs (new_item k d) st) as (Ho & Hn & _).
    destruct (alloc (new_item k d) st) as [r st1]. cbn [fst snd] in *.
    specialize (IH st1).
    destruct (load_items st1 l) as [rs st2]. cbn [fst snd] in *.
    destruct IH as (Hnd & Hfresh & Hall & Hkeep).
    assert (objs st1 !! r = Some (new_item k d)) as Hr1.
    { rewrite Ho. apply lookup_insert_eq. }
    split.
    { apply NoDup_cons. split; [| done].
      intros Hin. apply Hfresh in Hin. congruence. }
    split.
    { intros r' Hin. apply elem_of_cons in Hin as [-> | Hin]; [done |].
      apply Hfresh in Hin. rewrite Ho in Hin.
      apply lookup_insert_None in Hin. tauto. }
    split.
    { constructor; [by apply Hkeep | done]. }
    intros r' it Hl. apply Hkeep. rewrite Ho.
    rewrite lookup_insert_ne; [done |]. congruence.
Qed.

Lemma set_selected_text_defaults (k : string) (d : gmap string value) :
  set_selected false (text_defaults (new_item k d)) = text_defaults (new_item k d).
Proof. unfold text_defaults. by case_decide. Qed.

(** What [load_json] leaves in the scene: one object per item of the
    document, in order, with its kind and its data, a Text item's missing
    [angle], [size] and [color] defaulted and nothing else changed. *)
Lemma load_json_items (st : App) (doc : Doc) :
  Forall2 (fun r kd => objs (load_json st doc) !! r
                       = Some (text_defaults (new_item kd.1 kd.2)))
          (items (load_json st doc)) (default [] (doc_items doc)).
Proof.
  unfold load_json.
  destruct (load_items_spec (default [] (doc_items doc)) st)
    as (Hnd & _ & Hall & _).
  destruct (load_items st (default [] (doc_items doc))) as [rs st1].
  simpl in Hnd, Hall.
  set (st4 := set_rulers _ (set_grid_m _ (set_items rs st1))).
  set (st5 := foldl (fun s r => update_obj r text_defaults s) st4 (items st4)).
  destruct (foldl_update_obj_frame text_defaults (items st4) st4) as (Hi5 & _).
  fold st5 in Hi5.
  destruct (clear_selection_frame st5) as (Hi & _).
  rewrite Hi, Hi5. simpl.
  apply Forall2_same_length_lookup. split; [by eapply Forall2_length |].
  intros i r kd Hr Hkd.
  assert (r ∈ rs) as Hin by (apply list_elem_of_lookup; eauto).
  unfold _clear_selection. simpl. rewrite Hi5. simpl.
  rewrite foldl_update_obj_in by done.
  unfold st5. simpl.
  rewrite foldl_update_obj_in by done.
  simpl.
  rewrite (Forall2_lookup_lr _ _ _ _ _ _ Hall Hr Hkd). simpl.
  by rewrite set_selected_text_defaults.
Qed.









(** ** Moving items *)

Lemma same_but_objs_refl (st : App) : same_but_objs st st.
Proof. unfold same_but_objs. by destruct st. Qed.

Lemma same_but_objs_trans (st1 st2 st3 : App) :
  same_but_objs st1 st2 → same_but_objs st2 st3 → same_but_objs st1 st3.
Proof. unfold same_but_objs. intros H12 ->. rewrite H12. reflexivity. Qed.

Lemma same_but_objs_update_obj (r : ref) (f : Item → Item) (st : App) :
  same_but_objs st (update_obj r f st).
Proof. reflexivity. Qed.


(** C10. [_move_item] on an item whose kind is none of wall, door, window,
    room and text returns the state it was given: the item's data and every
    other item are as they were. *)
Theorem move_item_unknown_kind (st : App) (r : ref) (it : Item) (dx dy : R) :
  objs st !! r = Some it →
  kind it ∉ ["wall"; "door"; "window"; "room"; "text"] →
  _move_item st r dx dy = Some st.
Proof.
  intros Hr Hk. unfold _move_item. rewrite Hr. simpl.
  apply not_elem_of_cons in Hk as [H1 Hk].
  apply not_elem_of_cons in Hk as [H2 Hk].
  apply not_elem_of_cons in Hk as [H3 Hk].
  apply not_elem_of_cons in Hk as [H4 Hk].
  apply not_elem_of_cons in Hk as [H5 _].
  rewrite decide_False.
  - by rewrite !decide_False.
  - intros Hin.
    apply elem_of_cons in Hin as [? | Hin]; [done |].
    apply elem_of_cons in Hin as [? | Hin]; [done |].
    apply elem_of_cons in Hin as [? | Hin]; [done |].
    by apply elem_of_nil in Hin.
Qed.

(** An item of an unknown kind does enter the scene through a document. *)
Lemma load_stairs_doc :
  ∃ r, items (load_json initial_app stairs_doc) = [r]
       ∧ objs (load_json initial_app stairs_doc) !! r
         = Some (new_item "stairs" (ab_data (0, 0) (2, 1))).
Proof.
  pose proof (load_json_items initial_app stairs_doc) as Hall.
  remember (load_json initial_app stairs_doc) as st' eqn:Hst.
  simpl in Hall.
  apply Forall2_cons_inv_r in Hall as (r & rs & Hr & Hrest & Hit).
  apply Forall2_nil_inv_r in Hrest as ->.
  exists r. split; [done |]. exact Hr.
Qed.

Lemma move_item_unknown_kind_witness :
  ∃ r, items (load_json initial_app stairs_doc) = [r]
       ∧ _move_item (load_json initial_app stairs_doc) r 3 4
         = Some (load_json initial_app stairs_doc).
Proof.
  destruct load_stairs_doc as (r & Hit & Hr).
  exists r. split; [exact Hit |].
  apply (move_item_unknown_kind _ r _ 3 4 Hr).
  simpl. intros Hin.
  repeat (apply elem_of_cons in Hin as [Hin | Hin]; [discriminate Hin |]).
  by apply elem_of_nil in Hin.
Defined.


Lemma geometry_keys_ab (k : string) : k ≠ "text" → geometry_keys k = ["a"; "b"].
Proof. intros H. unfold geometry_keys. by rewrite decide_False. Qed.






Lemma movable_ab (k : string) (a b : point) :
  k ∈ ["wall"; "door"; "window"; "room"] → movable (new_item k (ab_data a b)).
Proof.
  intros Hk. split; simpl.
  - repeat (apply elem_of_cons in Hk as [-> | Hk]);
      try (by apply elem_of_nil in Hk); repeat constructor.
  - intros key Hkey.
    rewrite geometry_keys_ab in Hkey.
    + destruct (get_point_ab_data a b) as [Ha Hb].
      apply elem_of_cons in Hkey as [-> | Hkey]; [by rewrite Ha |].
      apply list_elem_of_singleton in Hkey as ->. by rewrite Hb.
    + intros ->. not_in_literals Hk.
Qed.

Lemma movable_label : movable label_item.
Proof.
  split; simpl.
  - repeat constructor.
  - intros key Hkey. apply list_elem_of_singleton in Hkey as ->.
    unfold get_point. rewrite (proj2 (proj2 (text_data_lookups 0 0 "Label"))).
    eauto.
Qed.

Lemma group_app_movable (r : ref) :
  r ∈ selected_items group_app → ∃ it, objs group_app !! r = Some it ∧ movable it.
Proof.
  simpl. intros Hr.
  apply elem_of_cons in Hr as [-> | Hr].
  { eexists. split; [reflexivity |]. apply movable_ab. repeat constructor. }
  apply elem_of_cons in Hr as [-> | Hr].
  { eexists. split; [reflexivity |]. apply movable_ab. repeat constructor. }
  apply list_elem_of_singleton in Hr as ->.
  eexists. split; [reflexivity |]. apply movable_label.
Qed.

Lemma group_app_NoDup : NoDup (selected_items group_app).
Proof.
  simpl.
  repeat (apply NoDup_cons_2;
          [let H := fresh in
           intros H;
           repeat (apply elem_of_cons in H as [H | H]; [discriminate H |]);
           by apply elem_of_nil in H |]).
  apply NoDup_nil_2.
Qed.


(** ** Finalizing a drawn item *)

Lemma Int_part_IZR (n : Z) : Int_part (IZR n) = n.
Proof. symmetry. apply Int_part_spec. lra. Qed.

Lemma round_IZR (n : Z) : Py.round (IZR n) = n.
Proof.
  unfold Py.round. rewrite Int_part_IZR.
  rewrite decide_True; [done | lra].
Qed.

Lemma end_draw_frame (st : App) :
  items (end_draw st) = items st ∧ objs (end_draw st) = objs st.
Proof. done. Qed.

(** The second click of a linear tool. *)
Lemma linear_second_click (st : App) (e : Event) (txt : option string) (a : point) :
  active_tool st ∈ ["wall"; "door"; "window"] →
  pan_active (pan st) = false →
  ds_start (draw_state st) = Some a →
  grid_px st ≠ 0 →
  ∃ b, pointer_world st (ev_x e) (ev_y e) = Some b
       ∧ _on_left_down st e txt
         = Some (end_draw (if decide (a ≠ b)
                           then append_item (active_tool st) (ab_data a b) st
                           else st)).
Proof.
  intros Ht Hp Hs Hg.
  destruct (pointer_world_total st (ev_x e) (ev_y e) Hg) as [b Hb].
  exists b. split; [done |].
  unfold _on_left_down. rewrite Hb, Hp. simpl.
  rewrite decide_False by (intros Heq; rewrite Heq in Ht; not_in_literals Ht).
  rewrite decide_True by done.
  by rewrite Hs.
Qed.

(** The release of the room tool. *)
Lemma room_release (st : App) (e : Event) (a : point) :
  active_tool st = "room" →
  ds_start (draw_state st) = Some a →
  grid_px st ≠ 0 →
  ∃ b, pointer_world st (ev_x e) (ev_y e) = Some b
       ∧ _on_left_up st e
         = Some (end_draw (if decide (a ≠ b)
                           then append_item "room" (ab_data a b) st
                           else st)).
Proof.
  intros Ht Hs Hg.
  destruct (pointer_world_total st (ev_x e) (ev_y e) Hg) as [b Hb].
  exists b. split; [done |].
  unfold _on_left_up.
  rewrite decide_True by (split; [done | rewrite Hs; eauto]).
  rewrite Hb, Hs. reflexivity.
Qed.

(** What finalizing with start [a] and end [b] leaves in the scene. *)
Lemma finalize_outcome (k : string) (a b : point) (st : App) :
  let st' := end_draw (if decide (a ≠ b) then append_item k (ab_data a b) st else st) in
  (a = b ∧ items st' = items st ∧ objs st' = objs st)
  ∨ (a ≠ b
     ∧ ∃ r it, items st' = items st ++ [r]
               ∧ objs st !! r = None
               ∧ objs st' !! r = Some it
               ∧ kind it = k
               ∧ get_point (data it) "a" = Some a
               ∧ get_point (data it) "b" = Some b).
Proof.
  cbv zeta. case_decide as Hab.
  - right. split; [done |].
    destruct (append_item_spec k (ab_data a b) st) as (r & Hit & Hfresh & Hobjs & _).
    exists r, (new_item k (ab_data a b)).
    destruct (end_draw_frame (append_item k (ab_data a b) st)) as [-> ->].
    rewrite Hobjs, lookup_insert_eq.
    destruct (get_point_ab_data a b) as [Ha Hb].
    done.
  - left. done.
Qed.

(** C2, as the code has it. The second click of a linear tool appends a
    Wall, Door or Window exactly when the two endpoints differ, and the
    release of the room tool appends a Room exactly when the two corners
    differ, so that the rectangle has a nonzero width or a nonzero height;
    with equal points nothing is appended and nothing faults. *)
Theorem finalize_appends_distinct_points (st : App) (e : Event) (a : point) :
  grid_px st ≠ 0 →
  ds_start (draw_state st) = Some a →
  (active_tool st ∈ ["wall"; "door"; "window"] → pan_active (pan st) = false →
   ∀ txt, ∃ b st',
     pointer_world st (ev_x e) (ev_y e) = Some b
     ∧ _on_left_down st e txt = Some st'
     ∧ ((a = b ∧ items st' = items st ∧ objs st' = objs st)
        ∨ (a ≠ b
           ∧ ∃ r it, items st' = items st ++ [r]
                     ∧ objs st !! r = None
                     ∧ objs st' !! r = Some it
                     ∧ kind it = active_tool st
                     ∧ get_point (data it) "a" = Some a
                     ∧ get_point (data it) "b" = Some b)))
  ∧ (active_tool st = "room" →
     ∃ b st',
       pointer_world st (ev_x e) (ev_y e) = Some b
       ∧ _on_left_up st e = Some st'
       ∧ ((a = b ∧ items st' = items st ∧ objs st' = objs st)
          ∨ ((a.1 ≠ b.1 ∨ a.2 ≠ b.2)
             ∧ ∃ r it, items st' = items st ++ [r]
                       ∧ objs st !! r = None
                       ∧ objs st' !! r = Some it
                       ∧ kind it = "room"
                       ∧ get_point (data it) "a" = Some a
                       ∧ get_point (data it) "b" = Some b))).
Proof.
  intros Hg Hs. split.
  - intros Ht Hp txt.
    destruct (linear_second_click st e txt a Ht Hp Hs Hg) as (b & Hb & Hdown).
    eexists b, _. split; [exact Hb |]. split; [exact Hdown |].
    apply finalize_outcome.
  - intros Ht.
    destruct (room_release st e a Ht Hs Hg) as (b & Hb & Hup).
    eexists b, _. split; [exact Hb |]. split; [exact Hup |].
    destruct (finalize_outcome "room" a b st) as [Heq | [Hne Hnew]].
    + by left.
    + right. split; [| exact Hnew].
      destruct a as [ax ay], b as [bx by_]. simpl.
      destruct (decide (ax = bx)) as [-> | ?]; [| by left].
      right. intros ->. done.
Qed.

Lemma finalize_appends_distinct_points_witness :
  (∃ b st',
      pointer_world wall_click_app 208 80 = Some b
      ∧ _on_left_down wall_click_app (mkEvent 208 80 0) None = Some st'
      ∧ (((0, 0) = b ∧ items st' = [] ∧ objs st' = ∅)
         ∨ ((0, 0) ≠ b
            ∧ ∃ r it, items st' = [] ++ [r]
                      ∧ (∅ : gmap ref Item) !! r = None
                      ∧ objs st' !! r = Some it
                      ∧ kind it = "wall"
                      ∧ get_point (data it) "a" = Some (0, 0)
                      ∧ get_point (data it) "b" = Some b)))
  ∧ (∃ b st',
        pointer_world room_drag_app 144 176 = Some b
        ∧ _on_left_up room_drag_app (mkEvent 144 176 0) = Some st'
        ∧ (((0, 0) = b ∧ items st' = [] ∧ objs st' = ∅)
           ∨ ((0 ≠ b.1 ∨ 0 ≠ b.2)
              ∧ ∃ r it, items st' = [] ++ [r]
                        ∧ (∅ : gmap ref Item) !! r = None
                        ∧ objs st' !! r = Some it
                        ∧ kind it = "room"
                        ∧ get_point (data it) "a" = Some (0, 0)
                        ∧ get_point (data it) "b" = Some b))).
Proof.
  assert (grid_px wall_click_app ≠ 0) as Hgw.
  { unfold grid_px, GRID_SIZE_PX. simpl. lra. }
  assert (grid_px room_drag_app ≠ 0) as Hgr.
  { unfold grid_px, GRID_SIZE_PX. simpl. lra. }
  split.
  - destruct (finalize_appends_distinct_points wall_click_app (mkEvent 208 80 0)
                (0, 0) Hgw eq_refl) as [Hlinear _].
    apply (Hlinear (list_elem_of_here _ _) eq_refl None).
  - destruct (finalize_appends_distinct_points room_drag_app (mkEvent 144 176 0)
                (0, 0) Hgr eq_refl) as [_ Hroom].
    apply (Hroom eq_refl).
Defined.

(** C2, as stated, fails for Rooms: with the room tool (snapping on), a drag
    from the world origin released at canvas (80,176), that is at world
    (0,3), appends a Room with corners (0,0) and (0,3), of width zero. *)
Lemma zero_width_room_appended :
  ∃ st' r it,
    _on_left_up room_drag_app (mkEvent 80 176 0) = Some st'
    ∧ items st' = [r]
    ∧ objs st' !! r = Some it
    ∧ kind it = "room"
    ∧ get_point (data it) "a" = Some (0, 0)
    ∧ get_point (data it) "b" = Some (0, 3)
    ∧ Rmax 0 0 - Rmin 0 0 = 0.
Proof.
  assert (grid_px room_drag_app ≠ 0) as Hg.
  { unfold grid_px, GRID_SIZE_PX. simpl. lra. }
  destruct (room_release room_drag_app (mkEvent 80 176 0) (0, 0) eq_refl eq_refl Hg)
    as (b & Hb & Hup).
  assert (b = (0, 3)) as ->.
  { rewrite pointer_world_eq in Hb by done. cbv zeta in Hb.
    unfold grid_px, GRID_SIZE_PX in Hb. simpl in Hb.
    replace ((80 - 80) / (32 * 1)) with (IZR 0) in Hb by (simpl; lra).
    replace ((176 - 80) / (32 * 1)) with (IZR 3) in Hb by (simpl; lra).
    rewrite !round_IZR in Hb. by injection Hb as <-. }
  destruct (finalize_outcome "room" (0, 0) (0, 3) room_drag_app)
    as [[Heq _] | (_ & r & it & Hit & _ & Hr & Hk & Ha & Hbb)].
  { injection Heq. lra. }
  eexists _, r, it. split; [exact Hup |].
  split; [exact Hit |]. split; [exact Hr |]. split; [exact Hk |].
  split; [exact Ha |]. split; [exact Hbb |].
  unfold Rmax, Rmin. destruct (Rle_dec 0 0); lra.
Qed.

(** ** Hit-testing *)

Lemma dist_point_to_segment_total (px py x1 y1 x2 y2 : R) :
  is_Some (dist_point_to_segment px py x1 y1 x2 y2).
Proof.
  unfold dist_point_to_segment. case_decide as Hd; [eauto |].
  rewrite div_Some; [simpl; eauto |].
  intros H0. apply Hd.
  destruct (Rplus_sqr_eq_0 (x2 - x1) (y2 - y1) H0) as [-> ->].
  done.
Qed.

(** From any position of the scan and whatever the running best candidate,
    the first Text item whose box holds the point is what the scan
    returns. *)
Lemma hit_test_from_first_text (st : App) (px py : R) (r : ref) (it : Item)
      (l2 : list ref) (l1 : list ref) (best : option ref) (bestd : R) :
  (∀ r', r' ∈ l1 → ∃ it', objs st !! r' = Some it' ∧ hit_testable it'
                          ∧ ¬ text_hit px py it') →
  objs st !! r = Some it →
  text_hit px py it →
  hit_test_from st px py (l1 ++ r :: l2) best bestd = Some (Some r).
Proof.
  intros Hpre Hr (Hk & x0 & y0 & x1 & y1 & Hbb & Hx & Hy).
  revert best bestd.
  induction l1 as [| r' l1 IH]; intros best bestd.
  - simpl. rewrite Hr. simpl. rewrite Hk. literal_decide.
    rewrite Hbb. by rewrite decide_True.
  - assert (∀ b d, hit_test_from st px py (l1 ++ r :: l2) b d = Some (Some r))
      as Hrest.
    { apply IH. intros r'' Hin. apply Hpre. by constructor. }
    destruct (Hpre r') as (it' & Hr' & Hgeo & Hmiss); [constructor |].
    simpl. rewrite Hr'. simpl.
    case_decide as Hseg.
    + destruct Hgeo as [[a Ha] [b Hb]].
      { repeat (apply elem_of_cons in Hseg as [-> | Hseg]);
          try (by apply elem_of_nil in Hseg); repeat constructor. }
      rewrite Ha, Hb. simpl.
      match goal with
      | |- context [dist_point_to_segment ?p ?q ?u ?v ?w ?z] =>
        destruct (dist_point_to_segment_total p q u v w z) as [d Hd]; rewrite Hd
      end.
      simpl. case_decide; apply Hrest.
    + case_decide as Hroom.
      * destruct Hgeo as [[a Ha] [b Hb]].
        { rewrite Hroom. repeat constructor. }
        rewrite Ha, Hb. simpl.
        repeat case_decide; apply Hrest.
      * case_decide as Htext; [| apply Hrest].
        destruct (bbox_canvas it') as [[[[u0 v0] u1] v1] |] eqn:Hbb';
          [| apply Hrest].
        case_decide as Hin; [| apply Hrest].
        exfalso. apply Hmiss. split; [done |].
        exists u0, v0, u1, v1. done.
Qed.


Lemma group_objs_before_label (st : App) (r' : ref) :
  objs st = objs group_app →
  r' ∈ [0%nat; 1%nat] →
  ∃ it', objs st !! r' = Some it' ∧ hit_testable it' ∧ ¬ text_hit 85 80 it'.
Proof.
  intros -> Hin.
  apply elem_of_cons in Hin as [-> | Hin].
  { eexists. split; [reflexivity |]. split.
    - intros _. destruct (get_point_ab_data (0, 0) (4, 0)) as [Ha Hb].
      simpl. rewrite Ha, Hb. eauto.
    - intros [Hk _]. discriminate Hk. }
  apply list_elem_of_singleton in Hin as ->.
  eexists. split; [reflexivity |]. split.
  - intros _. destruct (get_point_ab_data (1, 1) (3, 4)) as [Ha Hb].
    simpl. rewrite Ha, Hb. eauto.
  - intros [Hk _]. discriminate Hk.
Qed.


Lemma label_text_hit : text_hit 85 80 label_item.
Proof.
  split; [reflexivity |].
  exists 70, 70, 90, 90. split; [reflexivity |]. lra.
Qed.


(** ** Removing items *)

Section remove.
Context {A : Type} `{EqDecision A}.

Lemma remove_is_Some (x : A) (l : list A) : x ∈ l → is_Some (Py.remove x l).
Proof.
  induction l as [| y l IH]; intros Hin; simpl.
  - by apply elem_of_nil in Hin.
  - case_decide; [eauto |].
    apply elem_of_cons in Hin as [-> | Hin]; [done |].
    destruct (IH Hin) as [l' ->]. simpl. eauto.
Qed.

Lemma remove_subset (x y : A) (l l' : list A) :
  Py.remove x l = Some l' → y ∈ l' → y ∈ l.
Proof.
  revert l'. induction l as [| z l IH]; intros l' Hrem Hin; simpl in Hrem.
  - done.
  - case_decide.
    + injection Hrem as <-. by constructor.
    + destruct (Py.remove x l) as [l0 |]; [| done]. simpl in Hrem.
      injection Hrem as <-.
      apply elem_of_cons in Hin as [-> | Hin]; [constructor |].
      constructor. by apply IH with l0.
Qed.

Lemma remove_other (x y : A) (l l' : list A) :
  Py.remove x l = Some l' → y ≠ x → y ∈ l → y ∈ l'.
Proof.
  revert l'. induction l as [| z l IH]; intros l' Hrem Hne Hin; simpl in Hrem.
  - done.
  - case_decide as Hz.
    + injection Hrem as <-.
      apply elem_of_cons in Hin as [-> | Hin]; [congruence | done].
    + destruct (Py.remove x l) as [l0 |]; [| done]. simpl in Hrem.
      injection Hrem as <-.
      apply elem_of_cons in Hin as [-> | Hin]; [constructor |].
      constructor. by apply IH.
Qed.

Lemma remove_NoDup (x : A) (l l' : list A) :
  NoDup l → Py.remove x l = Some l' → NoDup l' ∧ x ∉ l'.
Proof.
  revert l'. induction l as [| z l IH]; intros l' Hnd Hrem; simpl in Hrem.
  - done.
  - apply NoDup_cons in Hnd as [Hz Hnd].
    case_decide as Hzx.
    + injection Hrem as <-. subst z. done.
    + destruct (Py.remove x l) as [l0 |] eqn:Hl; [| done]. simpl in Hrem.
      injection Hrem as <-.
      destruct (IH l0 Hnd eq_refl) as [Hnd0 Hx0].
      split.
      * apply NoDup_cons. split; [| done].
        intros Hin. apply Hz. by eapply remove_subset.
      * apply not_elem_of_cons. split; [congruence | done].
Qed.

Lemma remove_quiet_subset (x y : A) (l : list A) :
  y ∈ Py.remove_quiet x l → y ∈ l.
Proof.
  unfold Py.remove_quiet. destruct (Py.remove x l) as [l' |] eqn:Hl; simpl.
  - by eapply remove_subset.
  - done.
Qed.

Lemma remove_quiet_other (x y : A) (l : list A) :
  y ≠ x → y ∈ l → y ∈ Py.remove_quiet x l.
Proof.
  intros Hne Hin.
  unfold Py.remove_quiet. destruct (Py.remove x l) as [l' |] eqn:Hl; simpl.
  - by eapply remove_other.
  - done.
Qed.

Lemma remove_quiet_NoDup (x : A) (l : list A) :
  NoDup l → NoDup (Py.remove_quiet x l) ∧ x ∉ Py.remove_quiet x l.
Proof.
  intros Hnd.
  unfold Py.remove_quiet. destruct (Py.remove x l) as [l' |] eqn:Hl; simpl.
  - by eapply remove_NoDup.
  - split; [done |]. intros Hin.
    destruct (remove_is_Some x l Hin) as [l' Hl']. congruence.
Qed.

(** [for x in xs: if x in l: l.remove(x)]. *)
Lemma foldl_remove_quiet (xs l : list A) :
  NoDup l →
  NoDup (foldl (fun l x => Py.remove_quiet x l) l xs)
  ∧ ∀ y, y ∈ foldl (fun l x => Py.remove_quiet x l) l xs ↔ y ∈ l ∧ y ∉ xs.
Proof.
  revert l. induction xs as [| x xs IH]; intros l Hnd; simpl.
  - split; [done |]. intros y. split; [| tauto].
    intros Hy. split; [done |]. apply not_elem_of_nil.
  - destruct (remove_quiet_NoDup x l Hnd) as [Hnd' Hx].
    destruct (IH _ Hnd') as [Hnd'' Hiff].
    split; [done |]. intros y. rewrite Hiff. split.
    + intros [Hy Hny]. split; [by eapply remove_quiet_subset |].
      apply not_elem_of_cons. split; [| done]. intros ->. done.
    + intros [Hy Hny]. apply not_elem_of_cons in Hny as [Hne Hny].
      split; [| done]. by apply remove_quiet_other.
Qed.
End remove.

Lemma hit_test_from_in (st : App) (px py : R) (l : list ref)
      (best : option ref) (bestd : R) (r : ref) :
  hit_test_from st px py l best bestd = Some (Some r) → r ∈ l ∨ best = Some r.
Proof.
  revert best bestd. induction l as [| r' l IH]; intros best bestd Hhit.
  - simpl in Hhit. right. congruence.
  - simpl in Hhit.
    destruct (objs st !! r') as [it |]; [| done]. simpl in Hhit.
    repeat match type of Hhit with
           | context [decide ?P] => destruct (decide P)
           | context [get_point ?d ?k] => destruct (get_point d k); simpl in Hhit
           | context [dist_point_to_segment ?a ?b ?c ?d ?e ?f] =>
             destruct (dist_point_to_segment a b c d e f); simpl in Hhit
           | context [bbox_canvas ?i] =>
             destruct (bbox_canvas i) as [[[[? ?] ?] ?] |]
           end;
      try done;
      try (injection Hhit as <-; left; constructor);
      try (destruct (IH _ _ Hhit) as [Hin | Heq];
           [left; by constructor
           | first [by right | injection Heq as <-; left; constructor]]).
Qed.

(** What taking [r] out of the scene and out of both selection views leaves. *)
Lemma removal_wf (st st' : App) (r : ref) (l : list ref) :
  scene_wf st →
  Py.remove r (items st) = Some l →
  objs st' = objs st →
  items st' = l →
  selected_items st' = Py.remove_quiet r (selected_items st) →
  selection st' = (if decide (selection st = Some r) then None else selection st) →
  (r ∉ items st') ∧ (r ∉ selected_items st') ∧ selection st' ≠ Some r ∧ scene_wf st'.
Proof.
  intros (Hnd & Hnds & Hobjs & Hsel & Hone) Hrem Ho Hi Hs Hc.
  destruct (remove_NoDup r (items st) l Hnd Hrem) as [Hndl Hrl].
  destruct (remove_quiet_NoDup r (selected_items st) Hnds) as [Hnds' Hrs].
  assert (selection st' ≠ Some r) as Hnr.
  { rewrite Hc. case_decide; [done | done]. }
  rewrite Hi, Hs. split; [done |]. split; [done |]. split; [done |].
  unfold scene_wf, selection_valid. rewrite Hi, Hs, Ho.
  split; [done |]. split; [done |]. split.
  - intros r' Hin. apply Hobjs. by eapply remove_subset.
  - split.
    + intros r' Hin.
      apply (remove_other r r' (items st) l Hrem).
      * intros ->. done.
      * apply Hsel. by eapply remove_quiet_subset.
    + intros r' Hr'.
      apply (remove_other r r' (items st) l Hrem).
      * intros ->. done.
      * apply Hone. rewrite Hc in Hr'. by case_decide.
Qed.

(** The eraser's pointer-down on a hit. *)
Lemma eraser_down (st : App) (e : Event) (txt : option string) (r : ref) :
  active_tool st = "eraser" →
  pan_active (pan st) = false →
  grid_px st ≠ 0 →
  _hit_test st (ev_x e) (ev_y e) = Some (Some r) →
  ∃ l st',
    Py.remove r (items st) = Some l
    ∧ _on_left_down st e txt = Some st'
    ∧ objs st' = objs st
    ∧ items st' = l
    ∧ selected_items st' = Py.remove_quiet r (selected_items st)
    ∧ selection st' = (if decide (selection st = Some r) then None else selection st).
Proof.
  intros Ht Hp Hg Hhit.
  destruct (pointer_world_total st (ev_x e) (ev_y e) Hg) as [w Hw].
  assert (r ∈ items st) as Hin.
  { unfold _hit_test in Hhit. by destruct (hit_test_from_in _ _ _ _ _ _ _ Hhit). }
  destruct (remove_is_Some r (items st) Hin) as [l Hl].
  exists l. unfold _on_left_down. rewrite Hw, Hp, Ht. simpl.
  rewrite Hhit. simpl.
  case_decide; simpl; rewrite Hl; simpl; eexists; by split_and!.
Qed.

Lemma delete_item_eq (st : App) (r : ref) :
  r ∈ items st →
  ∃ l st',
    Py.remove r (items st) = Some l
    ∧ _delete_item st r = Some st'
    ∧ objs st' = objs st
    ∧ items st' = l
    ∧ selected_items st' = Py.remove_quiet r (selected_items st)
    ∧ selection st' = (if decide (selection st = Some r) then None else selection st).
Proof.
  intros Hin.
  destruct (remove_is_Some r (items st) Hin) as [l Hl].
  exists l. unfold _delete_item. rewrite decide_True by done. simpl.
  case_decide; simpl; rewrite Hl; simpl; eexists; by split_and!.
Qed.

Lemma delete_selection_wf (st : App) :
  scene_wf st →
  selected_items (delete_selection st) = []
  ∧ selection (delete_selection st) = None
  ∧ (∀ r, r ∈ selected_items st → r ∉ items (delete_selection st))
  ∧ (selected_items st = [] → ∀ r, selection st = Some r →
                                   r ∉ items (delete_selection st))
  ∧ scene_wf (delete_selection st).
Proof.
  intros (Hnd & Hnds & Hobjs & Hsel & Hone).
  unfold delete_selection.
  destruct (selected_items st) as [| s sels] eqn:Hs.
  - destruct (selection st) as [r |] eqn:Hr; simpl.
    + destruct (remove_quiet_NoDup r (items st) Hnd) as [Hnd' Hr'].
      rewrite Hs. split; [done |]. split; [done |].
      split; [intros r' Hin; by apply elem_of_nil in Hin |].
      split; [intros _ r' [= <-]; done |].
      unfold scene_wf, selection_valid. simpl. rewrite Hs.
      split; [done |]. split; [constructor |]. split.
      * intros r' Hin. apply Hobjs. by eapply remove_quiet_subset.
      * split; [intros r' Hin; by apply elem_of_nil in Hin | done].
    + rewrite Hs, Hr. split; [done |]. split; [done |].
      split; [intros r' Hin; by apply elem_of_nil in Hin |].
      split; [done |].
      unfold scene_wf, selection_valid. rewrite Hs, Hr. done.
  - simpl.
    destruct (foldl_remove_quiet (sels) (Py.remove_quiet s (items st)))
      as [Hnd' Hiff].
    { by apply remove_quiet_NoDup. }
    destruct (remove_quiet_NoDup s (items st) Hnd) as [_ Hs'].
    split; [done |]. split; [done |].
    split.
    { intros r Hin Hr. apply Hiff in Hr as [Hr Hns].
      apply elem_of_cons in Hin as [-> | Hin]; done. }
    split; [done |].
    unfold scene_wf, selection_valid. simpl.
    split; [done |]. split; [constructor |]. split.
    + intros r Hr. apply Hiff in Hr as [Hr _].
      apply Hobjs. by eapply remove_quiet_subset.
    + split; [intros r' Hin; by apply elem_of_nil in Hin | done].
Qed.

(** C7. In a well-formed scene every removal of an item (the eraser's
    pointer-down on a hit, the context menu's Delete, deleting the
    selection) succeeds and leaves the removed item out of the scene, out of
    the multi-selection and distinct from the single selection; the scene
    stays well-formed, so no selection view refers to an item that is no
    longer in the scene. *)
Theorem removal_clears_selection_views (st : App) :
  scene_wf st →
  (∀ e txt r,
      active_tool st = "eraser" → pan_active (pan st) = false →
      grid_px st ≠ 0 →
      _hit_test st (ev_x e) (ev_y e) = Some (Some r) →
      ∃ st', _on_left_down st e txt = Some st'
             ∧ (r ∉ items st') ∧ (r ∉ selected_items st')
             ∧ selection st' ≠ Some r ∧ scene_wf st')
  ∧ (∀ r, r ∈ items st →
          ∃ st', _delete_item st r = Some st'
                 ∧ (r ∉ items st') ∧ (r ∉ selected_items st')
                 ∧ selection st' ≠ Some r ∧ scene_wf st')
  ∧ (selected_items (delete_selection st) = []
     ∧ selection (delete_selection st) = None
     ∧ (∀ r, r ∈ selected_items st → r ∉ items (delete_selection st))
     ∧ (selected_items st = [] → ∀ r, selection st = Some r →
                                      r ∉ items (delete_selection st))
     ∧ scene_wf (delete_selection st)).
Proof.
  intros Hwf. split; [| split].
  - intros e txt r Ht Hp Hg Hhit.
    destruct (eraser_down st e txt r Ht Hp Hg Hhit)
      as (l & st' & Hl & Hdown & Ho & Hi & Hs & Hc).
    exists st'. split; [done |]. by eapply removal_wf.
  - intros r Hin.
    destruct (delete_item_eq st r Hin) as (l & st' & Hl & Hdel & Ho & Hi & Hs & Hc).
    exists st'. split; [done |]. by eapply removal_wf.
  - by apply delete_selection_wf.
Qed.

Lemma eraser_app_hit : _hit_test eraser_app 85 80 = Some (Some 2%nat).
Proof.
  unfold _hit_test.
  apply (hit_test_from_first_text eraser_app 85 80 2%nat label_item []
                                  [0%nat; 1%nat]).
  - intros r' Hin. by apply group_objs_before_label.
  - reflexivity.
  - apply label_text_hit.
Qed.

Lemma eraser_app_wf : scene_wf eraser_app.
Proof.
  split; [exact group_app_NoDup |].
  split; [exact group_app_NoDup |].
  split.
  - intros r Hin. destruct (group_app_movable r Hin) as (it & Hr & _).
    exists it. exact Hr.
  - split; [done | intros r Hr; discriminate Hr].
Qed.

Lemma removal_clears_selection_views_witness :
  (∃ st', _on_left_down eraser_app (mkEvent 85 80 0) None = Some st'
          ∧ (2%nat ∉ items st') ∧ (2%nat ∉ selected_items st')
          ∧ selection st' ≠ Some 2%nat ∧ scene_wf st')
  ∧ (∃ st', _delete_item eraser_app 1%nat = Some st'
            ∧ (1%nat ∉ items st') ∧ (1%nat ∉ selected_items st')
            ∧ selection st' ≠ Some 1%nat ∧ scene_wf st')
  ∧ (selected_items (delete_selection eraser_app) = []
     ∧ selection (delete_selection eraser_app) = None
     ∧ (∀ r, r ∈ selected_items eraser_app → r ∉ items (delete_selection eraser_app))
     ∧ scene_wf (delete_selection eraser_app)).
Proof.
  destruct (removal_clears_selection_views eraser_app eraser_app_wf)
    as (Herase & Hdelete & Hsel & Hnone & Hall & _ & Hwf).
  split.
  { apply (Herase (mkEvent 85 80 0) None 2%nat).
    - reflexivity.
    - reflexivity.
    - unfold grid_px, GRID_SIZE_PX. simpl. lra.
    - exact eraser_app_hit. }
  split.
  { apply (Hdelete 1%nat). simpl. repeat constructor. }
  done.
Defined.

(** The scenario of the specification: erasing one item of a three-item
    multi-selection leaves the other two selected. *)
Lemma erase_one_of_three_selected :
  ∃ st', _on_left_down eraser_app (mkEvent 85 80 0) None = Some st'
         ∧ items st' = [0%nat; 1%nat]
         ∧ selected_items st' = [0%nat; 1%nat]
         ∧ selection st' = None.
Proof.
  assert (grid_px eraser_app ≠ 0) as Hg.
  { unfold grid_px, GRID_SIZE_PX. simpl. lra. }
  destruct (eraser_down eraser_app (mkEvent 85 80 0) None 2%nat eq_refl eq_refl Hg
              eraser_app_hit) as (l & st' & Hl & Hdown & _ & Hi & Hs & Hc).
  exists st'. split; [exact Hdown |].
  split; [| split; [exact Hs | exact Hc]].
  rewrite Hi. simpl in Hl. by injection Hl as <-.
Qed.

(** ** Well-formedness is an invariant *)

Lemma scene_frame_refl (st : App) : scene_frame st st.
Proof. done. Qed.

Lemma scene_frame_trans (st1 st2 st3 : App) :
  scene_frame st1 st2 → scene_frame st2 st3 → scene_frame st1 st3.
Proof.
  intros (Hi & Hs & Hm & Ho & Hz) (Hi' & Hs' & Hm' & Ho' & Hz').
  split; [congruence |]. split; [congruence |]. split; [congruence |].
  split; [| congruence].
  intros r Hr. by apply Ho', Ho.
Qed.

Lemma scene_frame_wf (st st' : App) :
  scene_wf st → scene_frame st st' → scene_wf st'.
Proof.
  intros (Hnd & Hnds & Hobjs & Hsel & Hone) (Hi & Hs & Hm & Ho & _).
  unfold scene_wf, selection_valid. rewrite Hi, Hs, Hm.
  split_and!; try done.
  intros r Hr. by apply Ho, Hobjs.
Qed.

Lemma scene_frame_update_obj (r : ref) (f : Item → Item) (st : App) :
  scene_frame st (update_obj r f st).
Proof.
  split_and!; try done.
  intros r' [it Hr']. unfold update_obj. simpl.
  destruct (decide (r = r')) as [-> | Hne].
  - rewrite lookup_alter_eq, Hr'. simpl. eauto.
  - rewrite lookup_alter_ne by done. eauto.
Qed.

Lemma scene_frame_same_objs (st st' : App) :
  objs st' = objs st → items st' = items st → selection st' = selection st →
  selected_items st' = selected_items st → zoom st' = zoom st →
  scene_frame st st'.
Proof. intros Ho Hi Hs Hm Hz. split_and!; try done. by rewrite Ho. Qed.

Lemma scene_frame_foldl_update_obj (f : Item → Item) (l : list ref) (st : App) :
  scene_frame st (foldl (fun s r => update_obj r f s) st l).
Proof.
  revert st. induction l as [| r l IH]; intros st; simpl.
  - apply scene_frame_refl.
  - eapply scene_frame_trans; [apply (scene_frame_update_obj r f) | apply IH].
Qed.

Lemma redraw_writes_frame (paint : ref → Item → Item) (st : App) :
  scene_frame st (redraw_writes paint st).
Proof.
  unfold redraw_writes. generalize (items st) as l.
  intros l. revert st. induction l as [| r l IH]; intros st; simpl.
  - apply scene_frame_refl.
  - eapply scene_frame_trans; [apply (scene_frame_update_obj r (paint r)) | apply IH].
Qed.

Lemma move_item_frame (st st' : App) (r : ref) (dx dy : R) :
  _move_item st r dx dy = Some st' → scene_frame st st'.
Proof.
  unfold _move_item. intros H.
  repeat (simplify_option_eq || case_match);
    first [apply scene_frame_update_obj | apply scene_frame_refl].
Qed.

Lemma move_items_frame (l : list ref) (st st' : App) (dx dy : R) :
  move_items st l dx dy = Some st' → scene_frame st st'.
Proof.
  revert st. induction l as [| r l IH]; intros st H; simpl in H.
  - injection H as <-. apply scene_frame_refl.
  - destruct (_move_item st r dx dy) as [st1 |] eqn:H1; [| done]. simpl in H.
    eapply scene_frame_trans; [by eapply move_item_frame | by apply IH].
Qed.

(** Closes a goal [scene_frame st st'] where [st'] is [st] with fields
    other than the scene list and the selection views set, or with one
    object updated. *)
Ltac frame_step :=
  first
    [ apply scene_frame_refl
    | apply scene_frame_update_obj
    | by apply scene_frame_same_objs
    | eapply scene_frame_trans;
      [apply scene_frame_update_obj | by apply scene_frame_same_objs]
    | eapply scene_frame_trans;
      [by apply scene_frame_same_objs | apply scene_frame_update_obj] ].

Ltac unfold_option :=
  repeat (simplify_option_eq || case_match).

Lemma update_text_scale_frame (st st' : App) (px py : R) :
  _update_text_scale st px py = Some st' → scene_frame st st'.
Proof.
  unfold _update_text_scale. intros H. unfold_option; frame_step.
Qed.

Lemma update_text_rotate_frame (st st' : App) (px py : R) :
  _update_text_rotate st px py = Some st' → scene_frame st st'.
Proof.
  unfold _update_text_rotate. intros H. unfold_option; frame_step.
Qed.

Lemma update_room_resize_frame (st st' : App) (px py : R) :
  _update_room_resize st px py = Some st' → scene_frame st st'.
Proof.
  unfold _update_room_resize. intros H. unfold_option; frame_step.
Qed.

Lemma update_segment_endpoint_frame (st st' : App) (px py : R) :
  _update_segment_endpoint st px py = Some st' → scene_frame st st'.
Proof.
  unfold _update_segment_endpoint. intros H. unfold_option; frame_step.
Qed.

Lemma update_segment_rotate_frame (st st' : App) (px py : R) :
  _update_segment_rotate st px py = Some st' → scene_frame st st'.
Proof.
  unfold _update_segment_rotate. intros H.
  destruct (ds_transform (draw_state st)) as [[] |]; try done.
  destruct (rotated_endpoints _ _ _ _ _ _) as [a b].
  unfold_option; frame_step.
Qed.

Lemma continue_transform_frame (st st' : App) (px py : R) (ms : Z) :
  _continue_transform st px py ms = Some st' → scene_frame st st'.
Proof.
  unfold _continue_transform. intros H.
  destruct (ds_transform (draw_state st)) as [[[sx sy] it | [sx sy] | | | | | ] |] eqn:Ht.
  - destruct (pointer_world st px py) as [w |]; [| done]. simpl in H.
    destruct it as [r |]; [| done]. simpl in H.
    eapply scene_frame_trans; [| by eapply move_item_frame].
    by apply scene_frame_same_objs.
  - destruct (pointer_world st px py) as [w |]; [| done]. simpl in H.
    eapply scene_frame_trans; [| by eapply move_items_frame].
    by apply scene_frame_same_objs.
  - by eapply update_text_scale_frame.
  - by eapply update_text_rotate_frame.
  - by eapply update_room_resize_frame.
  - by eapply update_segment_endpoint_frame.
  - by eapply update_segment_rotate_frame.
  - injection H as <-. apply scene_frame_refl.
Qed.

Lemma on_pan_drag_frame (st : App) (e : Event) : scene_frame st (_on_pan_drag st e).
Proof.
  unfold _on_pan_drag, _on_pan_start.
  destruct (pan_active (pan st)), (pan_space (pan st)),
    (pan_start (pan st)); simpl; by apply scene_frame_same_objs.
Qed.

Lemma on_left_drag_frame (st st' : App) (e : Event) :
  _on_left_drag st e = Some st' → scene_frame st st'.
Proof.
  unfold _on_left_drag. intros H.
  destruct (pointer_world st (ev_x e) (ev_y e)) as [w |]; [| done]. simpl in H.
  destruct (pan_active (pan st)).
  { injection H as <-. apply on_pan_drag_frame. }
  repeat case_decide.
  - destruct (ds_start (draw_state st)); injection H as <-; frame_step.
  - destruct (ds_marquee (draw_state st)) as [[? ?] |].
    + injection H as <-. frame_step.
    + by eapply continue_transform_frame.
  - destruct (ds_ruler_start (draw_state st)); injection H as <-; frame_step.
  - injection H as <-. frame_step.
Qed.

Lemma clear_selection_wf (st : App) : scene_wf st → scene_wf (_clear_selection st).
Proof.
  intros (Hnd & _ & Hobjs & _).
  destruct (clear_selection_frame st) as (Hi & Hs & Hm & _).
  unfold scene_wf, selection_valid. rewrite Hi, Hs, Hm.
  split; [done |]. split; [constructor |]. split.
  - intros r Hr. destruct (clear_selection_objs st r) as (g & -> & _).
    destruct (Hobjs r Hr) as [it ->]. simpl. eauto.
  - split; [intros r Hr; by apply elem_of_nil in Hr | done].
Qed.

Lemma select_only_wf (st : App) (r : ref) :
  scene_wf st → r ∈ items st → scene_wf (select_only r st).
Proof.
  intros Hwf Hr.
  destruct (clear_selection_wf st Hwf) as (Hnd & _ & Hobjs & _).
  destruct (scene_frame_update_obj r (set_selected true) (_clear_selection st))
    as (Hi & _ & _ & Ho & _).
  destruct (clear_selection_frame st) as (Hi' & _).
  assert (items (select_only r st) = items st) as Hitems by (by rewrite <- Hi').
  assert (selected_items (select_only r st) = [r]) as Hsel by done.
  assert (selection (select_only r st) = Some r) as Hone by done.
  assert (objs (select_only r st)
          = objs (update_obj r (set_selected true) (_clear_selection st)))
    as Hobj by done.
  unfold scene_wf, selection_valid.
  rewrite Hitems, Hsel, Hone, Hobj. rewrite Hi' in *.
  split; [done |]. split; [apply NoDup_singleton |]. split.
  - intros r' Hr'. by apply Ho, Hobjs.
  - split.
    + intros r' Hr'. by apply list_elem_of_singleton in Hr' as ->.
    + by intros r' [= <-].
Qed.

Lemma begin_move_selected_frame (st st' : App) (px py : R) :
  _begin_move_selected st px py = Some st' → scene_frame st st'.
Proof. unfold _begin_move_selected. intros H. unfold_option; frame_step. Qed.

Lemma begin_move_group_frame (st st' : App) (px py : R) :
  _begin_move_group st px py = Some st' → scene_frame st st'.
Proof. unfold _begin_move_group. intros H. unfold_option; frame_step. Qed.

Lemma begin_text_scale_frame (st st' : App) (r : ref) (px py : R) (h : string)
      (keep : bool) :
  _begin_text_scale st r px py h keep = Some st' → scene_frame st st'.
Proof. unfold _begin_text_scale. intros H. unfold_option; frame_step. Qed.

Lemma begin_text_rotate_frame (st st' : App) (r : ref) (px py : R) :
  _begin_text_rotate st r px py = Some st' → scene_frame st st'.
Proof. unfold _begin_text_rotate. intros H. unfold_option; frame_step. Qed.

Lemma begin_room_resize_frame (st st' : App) (r : ref) (px py : R) (h : string) :
  _begin_room_resize st r px py h = Some st' → scene_frame st st'.
Proof. unfold _begin_room_resize. intros H. unfold_option; frame_step. Qed.

Lemma begin_segment_endpoint_frame (st st' : App) (r : ref) (px py : R)
      (h : string) :
  _begin_segment_endpoint st r px py h = Some st' → scene_frame st st'.
Proof. unfold _begin_segment_endpoint. intros H. unfold_option; frame_step. Qed.

Lemma begin_segment_rotate_frame (st st' : App) (r : ref) (px py : R) :
  _begin_segment_rotate st r px py = Some st' → scene_frame st st'.
Proof. unfold _begin_segment_rotate. intros H. unfold_option; frame_step. Qed.

Lemma select_group_move_frame (st st' : App) (px py : R) :
  select_group_move st px py = Some (Some st') → scene_frame st st'.
Proof.
  unfold select_group_move. intros H.
  case_decide; [| done].
  destruct (_group_canvas_bbox st) as [[bb |] |]; simpl in H; try done.
  destruct (point_in_rect px py bb); [| done].
  destruct (_begin_move_group st px py) as [st1 |] eqn:Hb; simpl in H; [| done].
  injection H as <-.
  by apply begin_move_group_frame with px py.
Qed.

Lemma select_handles_frame (st st' : App) (px py : R) (ms : Z) :
  select_handles st px py ms = Some (Some st') → scene_frame st st'.
Proof.
  unfold select_handles. intros H.
  unfold_option;
    first [ frame_step
          | by eapply begin_move_selected_frame
          | by eapply begin_text_scale_frame
          | by eapply begin_text_rotate_frame
          | by eapply begin_segment_rotate_frame ].
Qed.

Lemma select_pick_wf (st st' : App) (px py : R) (am handled : bool) :
  scene_wf st → select_pick st px py am = Some (handled, st') → scene_wf st'.
Proof.
  intros Hwf H. unfold select_pick in H.
  destruct (_hit_test st px py) as [[r |] |] eqn:Hhit; try done.
  - assert (r ∈ items st) as Hin.
    { unfold _hit_test in Hhit. by destruct (hit_test_from_in _ _ _ _ _ _ _ Hhit). }
    pose proof (select_only_wf st r Hwf Hin) as Hwf1.
    change (Some (Some r) ≫= _) with
      (let st1 := select_only r st in
       it ← objs st1 !! r;
       body ←
         (if decide (kind it = "text") then
            Some (bool_decide (_hit_text_handle st1 it px py = Some "inside"))
          else if decide (kind it = "room") then
            oh ← _hit_room_handle st1 it px py;
            Some (bool_decide (oh = Some "inside"))
          else if decide (kind it ∈ ["wall"; "door"; "window"]) then
            oh ← _hit_segment_handle st1 it px py;
            Some (bool_decide (oh = Some "onseg"))
          else Some false);
       if body : bool then st2 ← _begin_move_selected st1 px py; Some (true, st2)
       else Some (true, st1)) in H.
    remember (select_only r st) as st1 eqn:Hst1. cbv zeta in H.
    destruct (objs st1 !! r) as [it |]; simpl in H; [| done].
    match type of H with
    | (?b ≫= _) = _ => destruct b as [[] |]; simpl in H; [| | done]
    end.
    + destruct (_begin_move_selected st1 px py) as [st2 |] eqn:Hb;
        simpl in H; [| done].
      injection H as _ <-.
      eapply scene_frame_wf; [exact Hwf1 | by eapply begin_move_selected_frame].
    + by injection H as _ <-.
  - simpl in H. destruct am; injection H as _ <-; [done | by apply clear_selection_wf].
Qed.

Lemma select_or_begin_transform_wf (st st' : App) (px py : R) (ms : Z)
      (am handled : bool) :
  scene_wf st →
  _select_or_begin_transform st px py ms am = Some (handled, st') →
  scene_wf st'.
Proof.
  intros Hwf H. unfold _select_or_begin_transform in H.
  destruct (select_group_move st px py) as [[st1 |] |] eqn:Hg; simpl in H; try done.
  { injection H as _ <-.
    eapply scene_frame_wf; [done | by eapply select_group_move_frame]. }
  destruct (select_handles st px py ms) as [[st1 |] |] eqn:Hh; simpl in H; try done.
  { injection H as _ <-.
    eapply scene_frame_wf; [done | by eapply select_handles_frame]. }
  by eapply select_pick_wf.
Qed.

Lemma marquee_scan_sublist (st : App) (rc : rect) (l sels : list ref) :
  marquee_scan st rc l = Some sels → sels `sublist_of` l.
Proof.
  revert sels. induction l as [| r l IH]; intros sels H; simpl in H.
  - by injection H as <-.
  - destruct (objs st !! r) as [it |]; simpl in H; [| done].
    match type of H with
    | (?b ≫= _) = _ => destruct b as [keep |]; simpl in H; [| done]
    end.
    destruct (marquee_scan st rc l) as [sels' |]; simpl in H; [| done].
    injection H as <-.
    destruct keep; [apply sublist_skip | apply sublist_cons]; by apply IH.
Qed.

Lemma apply_marquee_selection_wf (st st' : App) (rc : rect) :
  scene_wf st → _apply_marquee_selection st rc = Some st' → scene_wf st'.
Proof.
  intros Hwf H. unfold _apply_marquee_selection in H.
  destruct (marquee_scan st rc (items st)) as [sels |] eqn:Hscan; simpl in H;
    [| done].
  injection H as <-.
  apply marquee_scan_sublist in Hscan.
  destruct (clear_selection_wf st Hwf) as (Hnd & _ & Hobjs & _).
  destruct (clear_selection_frame st) as (Hi & _).
  destruct (scene_frame_foldl_update_obj (set_selected true) sels
              (_clear_selection st)) as (Hi' & _ & _ & Ho & _).
  unfold scene_wf, selection_valid. simpl. rewrite Hi', Hi.
  rewrite Hi in Hnd, Hobjs.
  split; [done |].
  split; [by eapply sublist_NoDup |]. split.
  - intros r Hr. by apply Ho, Hobjs.
  - split.
    + intros r Hr. by eapply elem_of_sublist.
    + intros r Hr. destruct sels as [| s [| ? ?]]; try done.
      injection Hr as ->. eapply elem_of_sublist; [| done]. constructor.
Qed.

Lemma append_item_wf (k : string) (d : gmap string value) (st : App) :
  scene_wf st → scene_wf (append_item k d st).
Proof.
  intros (Hnd & Hnds & Hobjs & Hsel & Hone).
  destruct (append_item_spec k d st) as (r & Hi & Hfresh & Ho & Hs & Hm).
  unfold scene_wf, selection_valid. rewrite Hi, Ho, Hs, Hm.
  assert (r ∉ items st) as Hnotin.
  { intros Hin. destruct (Hobjs r Hin) as [it Hit]. congruence. }
  split.
  { apply NoDup_app. split; [done |]. split; [| apply NoDup_singleton].
    intros r' Hr' Hr''. apply list_elem_of_singleton in Hr'' as ->. done. }
  split; [done |]. split.
  - intros r' Hr'. apply elem_of_app in Hr' as [Hr' | Hr'].
    + destruct (decide (r = r')) as [-> | Hne]; [done |].
      rewrite lookup_insert_ne by done. by apply Hobjs.
    + apply list_elem_of_singleton in Hr' as ->.
      rewrite lookup_insert_eq. eauto.
  - split.
    + intros r' Hr'. apply elem_of_app. left. by apply Hsel.
    + intros r' Hr'. apply elem_of_app. left. by apply Hone.
Qed.

Lemma load_json_wf (st : App) (doc : Doc) : scene_wf (load_json st doc).
Proof.
  pose proof (load_json_items st doc) as Hall.
  assert (items (load_json st doc)
          = (load_items st (default [] (doc_items doc))).1) as Hi.
  { unfold load_json.
    destruct (load_items st (default [] (doc_items doc))) as [rs st1].
    match goal with
    | |- items (_clear_selection ?s) = _ =>
      destruct (clear_selection_frame s) as (-> & _)
    end.
    match goal with
    | |- items (foldl ?f ?s ?l) = _ =>
      destruct (foldl_update_obj_frame text_defaults l s) as (-> & _)
    end.
    reflexivity. }
  assert (selection (load_json st doc) = None
          ∧ selected_items (load_json st doc) = []) as [Hs Hm].
  { unfold load_json.
    destruct (load_items st (default [] (doc_items doc))) as [rs st1].
    match goal with
    | |- selection (_clear_selection ?s) = _ ∧ _ =>
      destruct (clear_selection_frame s) as (_ & -> & -> & _)
    end.
    done. }
  destruct (load_items_spec (default [] (doc_items doc)) st) as (Hnd & _).
  unfold scene_wf, selection_valid. rewrite Hs, Hm, Hi.
  split; [done |]. split; [constructor |]. split.
  - intros r Hr. rewrite <- Hi in Hr.
    apply list_elem_of_lookup in Hr as [i Hr].
    destruct (Forall2_lookup_l _ _ _ _ _ Hall Hr) as (kd & _ & Hkd).
    rewrite Hkd. eauto.
  - split; [intros r Hr; by apply elem_of_nil in Hr | done].
Qed.

Lemma on_left_down_wf (st st' : App) (e : Event) (txt : option string) :
  scene_wf st → _on_left_down st e txt = Some st' → scene_wf st'.
Proof.
  intros Hwf H. unfold _on_left_down in H.
  destruct (pointer_world st (ev_x e) (ev_y e)) as [w |]; simpl in H; [| done].
  destruct (pan_active (pan st)).
  { injection H as <-. eapply scene_frame_wf; [done | frame_step]. }
  case_decide as Hselect.
  { destruct (_select_or_begin_transform st (ev_x e) (ev_y e) (ev_state e) true)
      as [[handled st1] |] eqn:Hsel; simpl in H; [| done].
    pose proof (select_or_begin_transform_wf _ _ _ _ _ _ _ Hwf Hsel) as Hwf1.
    destruct handled; injection H as <-; [done |].
    eapply scene_frame_wf; [exact Hwf1 | frame_step]. }
  case_decide as Hlinear.
  { destruct (ds_start (draw_state st)) as [a |]; injection H as <-.
    - case_decide.
      + eapply scene_frame_wf; [by apply append_item_wf | frame_step].
      + eapply scene_frame_wf; [done | frame_step].
    - eapply scene_frame_wf; [done | frame_step]. }
  case_decide as Hroom.
  { injection H as <-. eapply scene_frame_wf; [done | frame_step]. }
  case_decide as Htext.
  { destruct txt as [s |]; [case_decide |]; injection H as <-; try done.
    by apply append_item_wf. }
  case_decide as Hruler.
  { destruct (ds_ruler_start (draw_state st)) as [a |]; injection H as <-.
    - eapply scene_frame_wf; [done |].
      case_decide; [destruct (keep_rulers st) |]; frame_step.
    - eapply scene_frame_wf; [done |].
      destruct (negb (keep_rulers st) && bool_decide (rulers st ≠ [])); frame_step. }
  case_decide as Heraser; [| by injection H as <-].
  destruct (_hit_test st (ev_x e) (ev_y e)) as [[r |] |] eqn:Hhit; simpl in H;
    try done; [| by injection H as <-].
  assert (r ∈ items st) as Hin.
  { unfold _hit_test in Hhit. by destruct (hit_test_from_in _ _ _ _ _ _ _ Hhit). }
  destruct (remove_is_Some r (items st) Hin) as [l Hl].
  assert (∀ s, s = st' → objs s = objs st → items s = l →
               selected_items s = Py.remove_quiet r (selected_items st) →
               selection s = (if decide (selection st = Some r) then None
                              else selection st) →
               scene_wf st') as Hfin.
  { intros s <- Ho Hi Hs Hc. by eapply removal_wf. }
  case_decide; simpl in H; rewrite Hl in H; simpl in H; injection H as H;
    eapply Hfin; try exact H; try done.
Qed.

Lemma on_left_up_wf (st st' : App) (e : Event) :
  scene_wf st → _on_left_up st e = Some st' → scene_wf st'.
Proof.
  intros Hwf H. unfold _on_left_up in H.
  case_decide as Hroom.
  { destruct (pointer_world st (ev_x e) (ev_y e)) as [w |]; simpl in H; [| done].
    destruct (ds_start (draw_state st)) as [a |]; simpl in H; [| done].
    injection H as <-.
    case_decide.
    - eapply scene_frame_wf; [by apply append_item_wf | frame_step].
    - eapply scene_frame_wf; [done | frame_step]. }
  case_decide as Hselect; [| by injection H as <-].
  destruct (ds_marquee (draw_state st)) as [[[x0 y0] [x1 y1]] |].
  - destruct (_apply_marquee_selection st (rect_norm x0 y0 x1 y1)) as [st1 |] eqn:Hm;
      simpl in H; [| done].
    injection H as <-.
    eapply scene_frame_wf; [by eapply apply_marquee_selection_wf | frame_step].
  - injection H as <-. eapply scene_frame_wf; [done | frame_step].
Qed.

Lemma on_right_click_wf (st st' : App) (e : Event) (hit : option ref) :
  scene_wf st → _on_right_click st e = Some (st', hit) →
  scene_wf st' ∧ ∀ r, hit = Some r → r ∈ items st'.
Proof.
  intros Hwf H. unfold _on_right_click in H.
  destruct (_hit_test st (ev_x e) (ev_y e)) as [[r |] |] eqn:Hhit; try done.
  - assert (r ∈ items st) as Hin.
    { unfold _hit_test in Hhit. by destruct (hit_test_from_in _ _ _ _ _ _ _ Hhit). }
    pose proof (select_only_wf st r Hwf Hin) as Hwf1.
    assert (items (select_only r st) = items st) as Hi.
    { destruct (clear_selection_frame st) as (Hcs & _). by rewrite <- Hcs. }
    change (Some (Some r) ≫= _) with
      (let st1 := select_only r st in
       it ← objs st1 !! r;
       let st2 :=
         if decide (kind it ∈ ["room"; "wall"; "door"; "window"]) then
           let st' := update_obj r (fun i => set_data (setdefault "measure" (VBool false) (data i)) i) st1 in
           if decide (kind it = "room")
           then update_obj r (fun i => set_data (setdefault "show_area" (VBool true) (data i)) i) st'
           else st'
         else st1 in
       Some (st2, Some r)) in H.
    remember (select_only r st) as st1 eqn:Hst1. cbv zeta in H.
    destruct (objs st1 !! r) as [it |]; simpl in H; [| done].
    injection H as <- <-.
    assert (∀ s, scene_frame st1 s → scene_wf s ∧ ∀ r0, Some r = Some r0 → r0 ∈ items s)
      as Hfin.
    { intros s Hf. split; [by eapply scene_frame_wf |].
      intros r0 [= <-]. destruct Hf as (-> & _). by rewrite Hi. }
    apply Hfin.
    repeat case_decide; try frame_step.
    eapply scene_frame_trans; apply scene_frame_update_obj.
  - simpl in H. injection H as <- <-. split; [done |]. done.
Qed.

Lemma new_file_wf (st : App) : scene_wf (new_file st).
Proof.
  unfold scene_wf, selection_valid, new_file. simpl.
  split_and!; try constructor; try done; intros r Hr; by apply elem_of_nil in Hr.
Qed.

Lemma zoom_wf (st st' : App) (factor w h : R) :
  scene_wf st → _zoom st factor w h = Some st' → scene_wf st'.
Proof.
  unfold _zoom. intros Hwf H. case_decide; [by injection H as <- |].
  destruct (canvas_to_world st (w / 2) (h / 2)) as [wp |]; simpl in H; [| done].
  by injection H as <-.
Qed.

Lemma clear_selection_store (st : App) :
  (∀ r, is_Some (objs st !! r) → is_Some (objs (_clear_selection st) !! r))
  ∧ zoom (_clear_selection st) = zoom st.
Proof.
  split.
  - intros r [it Hr].
    destruct (clear_selection_objs st r) as (g & -> & _). rewrite Hr. simpl. eauto.
  - unfold _clear_selection.
    change (zoom (foldl (fun s r => update_obj r (set_selected false) s) st (items st))
            = zoom st).
    by destruct (foldl_update_obj_frame (set_selected false) (items st) st)
      as (_ & _ & _ & _ & -> & _).
Qed.

(** An export that finds no event pending at its [self.update()]. *)
Lemma export_png_frame (during : App → App) (st : App) :
  (∀ s, during s = s) → scene_frame st (export_png during st).
Proof.
  intros Hid. unfold export_png, hide_overlays. cbv zeta. rewrite Hid.
  destruct (clear_selection_frame st) as (Hi1 & _ & _ & Hd1).
  destruct (clear_selection_store st) as (Ho1 & Hz1).
  remember (_clear_selection st) as st1 eqn:Hst1.
  set (st3 := set_draw_state _ (set_temp_preview None st1)).
  pose proof (scene_frame_foldl_update_obj (set_selected false) (items st3) st3)
    as (Hi4 & Hs4 & Hm4 & Ho4 & Hz4).
  remember (foldl (fun s r => update_obj r (set_selected false) s) st3 (items st3))
    as st4 eqn:Hst4.
  set (st5 := set_selected_items (selected_items st) st4).
  pose proof (scene_frame_foldl_update_obj (set_selected true) (selected_items st5) st5)
    as (Hi6 & Hs6 & Hm6 & Ho6 & Hz6).
  remember (foldl (fun s r => update_obj r (set_selected true) s) st5 (selected_items st5))
    as st6 eqn:Hst6.
  assert (∀ r, is_Some (objs st !! r) → is_Some (objs st6 !! r)) as Ho.
  { intros r Hr. apply Ho6, Ho4, Ho1, Hr. }
  assert (zoom st6 = zoom st) as Hz.
  { rewrite Hz6. change (zoom st5) with (zoom st4). rewrite Hz4. exact Hz1. }
  assert (items st6 = items st) as Hi.
  { rewrite Hi6. change (items st5) with (items st4). rewrite Hi4. exact Hi1. }
  destruct (ds_marquee (draw_state st)); split_and!; done.
Qed.

Lemma export_png_wf (during : App → App) (st : App) :
  (∀ s, during s = s) → scene_wf st → scene_wf (export_png during st).
Proof.
  intros Hid Hwf. eapply scene_frame_wf; [done | by apply export_png_frame].
Qed.

(** Every operation of the editor keeps the scene well-formed, an export
    as long as no event is pending when it calls [self.update()]. *)
Lemma run_op_wf (st st' : App) (o : Op) :
  quiet o → scene_wf st → run_op st o = Some st' → scene_wf st'.
Proof.
  intros Hq Hwf H. destruct o; simpl in H.
  - by eapply on_left_down_wf.
  - eapply scene_frame_wf; [done | by eapply on_left_drag_frame].
  - by eapply on_left_up_wf.
  - destruct (_on_right_click st e) as [[st1 hit] |] eqn:Hrc; simpl in H; [| done].
    destruct (on_right_click_wf st st1 e hit Hwf Hrc) as [Hwf1 Hhit].
    destruct hit as [r |], choice; simpl in H;
      try (by injection H as <-).
    + destruct (objs st1 !! r) as [it |]; simpl in H; [| done].
      case_decide; injection H as <-; [| done].
      eapply scene_frame_wf; [done | apply scene_frame_update_obj].
    + destruct (objs st1 !! r) as [it |]; simpl in H; [| done].
      case_decide; injection H as <-; [| done].
      eapply scene_frame_wf; [done | apply scene_frame_update_obj].
    + destruct (delete_item_eq st1 r (Hhit r eq_refl))
        as (l & st2 & Hl & Hdel & Ho & Hi & Hs & Hc).
      assert (st2 = st') as <- by congruence.
      by eapply removal_wf.
  - injection H as <-. by apply delete_selection_wf.
  - injection H as <-. apply load_json_wf.
  - injection H as <-. apply new_file_wf.
  - injection H as <-. eapply scene_frame_wf; [done | frame_step].
  - injection H as <-. eapply scene_frame_wf; [done | frame_step].
  - injection H as <-. eapply scene_frame_wf; [done | apply on_pan_drag_frame].
  - injection H as <-. eapply scene_frame_wf; [done | frame_step].
  - injection H as <-. eapply scene_frame_wf; [done | frame_step].
  - by eapply zoom_wf.
  - by injection H as <-.
  - destruct pending; [| done]. simpl in H. injection H as <-.
    by apply export_png_wf.
  - injection H as <-. eapply scene_frame_wf; [done | frame_step].
  - injection H as <-. eapply scene_frame_wf; [done | frame_step].
  - injection H as <-. eapply scene_frame_wf; [done | frame_step].
  - injection H as <-. eapply scene_frame_wf; [done | apply redraw_writes_frame].
Qed.

Lemma initial_app_wf : scene_wf initial_app.
Proof.
  unfold scene_wf, selection_valid. simpl.
  split_and!; try constructor; try done; intros r Hr; by apply elem_of_nil in Hr.
Qed.

(** Every state the editor reaches is well-formed, as long as no export
    finds an event pending: the hypothesis of the removal and group-move
    properties holds throughout such a run. *)
Lemma reachable_quiet_wf (st : App) : reachable_quiet st → scene_wf st.
Proof.
  induction 1 as [| st st' o _ IH Hq Hstep].
  - apply initial_app_wf.
  - by eapply run_op_wf.
Qed.

(** * Further properties of the engine *)

(** ** Geometry kernel *)

Lemma dist_point_to_segment_proper (px py x1 y1 x2 y2 : R) :
  (x1, y1) ≠ (x2, y2) →
  let dx := x2 - x1 in
  let dy := y2 - y1 in
  let t := Rmax 0 (Rmin 1 (((px - x1) * dx + (py - y1) * dy) / (dx * dx + dy * dy))) in
  dist_point_to_segment px py x1 y1 x2 y2
  = Some (Py.hypot (px - (x1 + t * dx)) (py - (y1 + t * dy)))
  ∧ 0 <= t <= 1 ∧ 0 < dx * dx + dy * dy.
Proof.
  intros Hne. cbv zeta.
  assert (¬ (x2 - x1 = y2 - y1 ∧ y2 - y1 = 0)) as Hd.
  { intros [H1 H2]. apply Hne. f_equal; lra. }
  assert (0 < (x2 - x1) * (x2 - x1) + (y2 - y1) * (y2 - y1)) as Hn.
  { destruct (Req_dec (x2 - x1) 0) as [Hx | Hx];
      destruct (Req_dec (y2 - y1) 0) as [Hy | Hy];
      first [nra | exfalso; apply Hd; lra]. }
  split_and!; try done.
  - unfold dist_point_to_segment. rewrite decide_False by done.
    rewrite div_Some by lra. reflexivity.
  - unfold Rmax, Rmin. repeat destruct (Rle_dec _ _); lra.
  - unfold Rmax, Rmin. repeat destruct (Rle_dec _ _); lra.
Qed.

(** X3. Normalizing a rectangle does not depend on the order of its two
    corners, gives an ordered rectangle and is idempotent. *)
Theorem rect_norm_order_idempotent (x0 y0 x1 y1 : R) :
  rect_norm x1 y1 x0 y0 = rect_norm x0 y0 x1 y1
  ∧ rect_norm x1 y0 x0 y1 = rect_norm x0 y0 x1 y1
  ∧ (let '(a, b, c, d) := rect_norm x0 y0 x1 y1 in
     a <= c ∧ b <= d ∧ rect_norm a b c d = (a, b, c, d)).
Proof.
  unfold rect_norm.
  split_and!; unfold Rmin, Rmax; repeat destruct (Rle_dec _ _);
    repeat f_equal; lra.
Qed.

Lemma point_in_rect_spec (px py x0 y0 x1 y1 : R) :
  point_in_rect px py (x0, y0, x1, y1) = true
  ↔ (Rmin x0 x1 <= px <= Rmax x0 x1) ∧ (Rmin y0 y1 <= py <= Rmax y0 y1).
Proof.
  unfold point_in_rect, rect_norm.
  rewrite andb_true_iff, !bool_decide_eq_true. tauto.
Qed.

Lemma rects_intersect_spec (a0 a1 a2 a3 b0 b1 b2 b3 : R) :
  rects_intersect (a0, a1, a2, a3) (b0, b1, b2, b3) = true
  ↔ Rmin b0 b2 <= Rmax a0 a2 ∧ Rmin a0 a2 <= Rmax b0 b2
    ∧ Rmin b1 b3 <= Rmax a1 a3 ∧ Rmin a1 a3 <= Rmax b1 b3.
Proof.
  unfold rects_intersect, rect_norm.
  rewrite negb_true_iff, !orb_false_iff, !bool_decide_eq_false.
  split.
  - intros [[[H1 H2] H3] H4]. split_and!; lra.
  - intros (H1 & H2 & H3 & H4). split_and!; lra.
Qed.

(** X4. Two rectangles, their corners in any order, are reported as
    intersecting exactly when some point lies in both, borders included;
    the test is symmetric. *)
Theorem rects_intersect_iff_common_point (a b : rect) :
  (rects_intersect a b = true
   ↔ ∃ px py, point_in_rect px py a = true ∧ point_in_rect px py b = true)
  ∧ rects_intersect b a = rects_intersect a b.
Proof.
  destruct a as [[[a0 a1] a2] a3], b as [[[b0 b1] b2] b3].
  split.
  - rewrite rects_intersect_spec. split.
    + intros (H1 & H2 & H3 & H4).
      exists (Rmax (Rmin a0 a2) (Rmin b0 b2)), (Rmax (Rmin a1 a3) (Rmin b1 b3)).
      rewrite !point_in_rect_spec.
      assert (Rmin a0 a2 <= Rmax a0 a2 ∧ Rmin b0 b2 <= Rmax b0 b2
              ∧ Rmin a1 a3 <= Rmax a1 a3 ∧ Rmin b1 b3 <= Rmax b1 b3)
        as (? & ? & ? & ?).
      { unfold Rmin, Rmax. repeat destruct (Rle_dec _ _); lra. }
      split_and!;
        first [apply Rmax_l | apply Rmax_r | apply Rmax_lub; lra].
    + intros (px & py & Ha & Hb).
      apply point_in_rect_spec in Ha. apply point_in_rect_spec in Hb. lra.
  - apply eq_true_iff_eq. rewrite !rects_intersect_spec. tauto.
Qed.




(** *** Segments against rectangles *)

Ltac ccw_cases :=
  unfold segments_intersect, ccw; simpl;
  repeat case_bool_decide; try reflexivity; exfalso; nra.

Lemma segments_intersect_left (a b c d : point) (X : R) :
  a.1 < X → b.1 < X → X <= c.1 → X <= d.1 → segments_intersect a b c d = false.
Proof.
  destruct a as [a1 a2], b as [b1 b2], c as [c1 c2], d as [d1 d2].
  simpl. intros. ccw_cases.
Qed.

Lemma segments_intersect_right (a b c d : point) (X : R) :
  X < a.1 → X < b.1 → c.1 <= X → d.1 <= X → segments_intersect a b c d = false.
Proof.
  destruct a as [a1 a2], b as [b1 b2], c as [c1 c2], d as [d1 d2].
  simpl. intros. ccw_cases.
Qed.

Lemma segments_intersect_above (a b c d : point) (Y : R) :
  a.2 < Y → b.2 < Y → Y <= c.2 → Y <= d.2 → segments_intersect a b c d = false.
Proof.
  destruct a as [a1 a2], b as [b1 b2], c as [c1 c2], d as [d1 d2].
  simpl. intros. ccw_cases.
Qed.

Lemma segments_intersect_below (a b c d : point) (Y : R) :
  Y < a.2 → Y < b.2 → c.2 <= Y → d.2 <= Y → segments_intersect a b c d = false.
Proof.
  destruct a as [a1 a2], b as [b1 b2], c as [c1 c2], d as [d1 d2].
  simpl. intros. ccw_cases.
Qed.

Lemma Rmin_Rmax_le (x y : R) : Rmin x y <= Rmax x y.
Proof. unfold Rmin, Rmax. repeat destruct (Rle_dec _ _); lra. Qed.

(** X6. A segment is reported as meeting a rectangle only if the box spanned
    by its two endpoints meets the rectangle: a segment wholly to the left
    of, to the right of, above or below the rectangle is never reported. *)
Theorem seg_intersects_rect_within_box (p1 p2 : point) (r : rect) :
  seg_intersects_rect p1 p2 r = true →
  rects_intersect (p1.1, p1.2, p2.1, p2.2) r = true.
Proof.
  destruct r as [[[a0 b0] a1] b1], p1 as [x1 y1], p2 as [x2 y2].
  intros H. apply not_false_iff_true. intros Hr. revert H.
  cbn [fst snd] in Hr.
  apply not_true_iff_false.
  assert (¬ (Rmin a0 a1 <= Rmax x1 x2 ∧ Rmin x1 x2 <= Rmax a0 a1
             ∧ Rmin b0 b1 <= Rmax y1 y2 ∧ Rmin y1 y2 <= Rmax b0 b1)) as Hsep.
  { rewrite <- rects_intersect_spec. by rewrite Hr. }
  pose proof (Rmin_Rmax_le a0 a1) as Hx. pose proof (Rmin_Rmax_le b0 b1) as Hy.
  pose proof (Rmax_l x1 x2). pose proof (Rmax_r x1 x2).
  pose proof (Rmin_l x1 x2). pose proof (Rmin_r x1 x2).
  pose proof (Rmax_l y1 y2). pose proof (Rmax_r y1 y2).
  pose proof (Rmin_l y1 y2). pose proof (Rmin_r y1 y2).
  unfold seg_intersects_rect. cbn [fst snd].
  assert (point_in_rect x1 y1 (a0, b0, a1, b1) = false) as ->.
  { apply not_true_iff_false. rewrite point_in_rect_spec. lra. }
  assert (point_in_rect x2 y2 (a0, b0, a1, b1) = false) as ->.
  { apply not_true_iff_false. rewrite point_in_rect_spec. lra. }
  unfold rect_norm. cbn [orb existsb fst snd].
  set (X0 := Rmin a0 a1) in *. set (X1 := Rmax a0 a1) in *.
  set (Y0 := Rmin b0 b1) in *. set (Y1 := Rmax b0 b1) in *.
  destruct (Rlt_dec (Rmax x1 x2) X0) as [Hl | Hl].
  { rewrite !(segments_intersect_left (x1, y1) (x2, y2) _ _ X0);
      simpl; first [done | lra]. }
  destruct (Rlt_dec X1 (Rmin x1 x2)) as [Hg | Hg].
  { rewrite !(segments_intersect_right (x1, y1) (x2, y2) _ _ X1);
      simpl; first [done | lra]. }
  destruct (Rlt_dec (Rmax y1 y2) Y0) as [Ha | Ha].
  { rewrite !(segments_intersect_above (x1, y1) (x2, y2) _ _ Y0);
      simpl; first [done | lra]. }
  destruct (Rlt_dec Y1 (Rmin y1 y2)) as [Hb | Hb].
  { rewrite !(segments_intersect_below (x1, y1) (x2, y2) _ _ Y1);
      simpl; first [done | lra]. }
  exfalso. apply Hsep. lra.
Qed.

Lemma seg_intersects_rect_within_box_witness :
  seg_intersects_rect (0, 0) (5, 5) (-1, -1, 1, 1) = true
  ∧ rects_intersect (0, 0, 5, 5) (-1, -1, 1, 1) = true.
Proof.
  assert (seg_intersects_rect (0, 0) (5, 5) (-1, -1, 1, 1) = true) as H.
  { unfold seg_intersects_rect. cbn [fst snd].
    assert (point_in_rect 0 0 (-1, -1, 1, 1) = true) as ->; [| done].
    rewrite point_in_rect_spec. unfold Rmin, Rmax.
    repeat destruct (Rle_dec _ _); lra. }
  split; [exact H |].
  exact (seg_intersects_rect_within_box (0, 0) (5, 5) (-1, -1, 1, 1) H).
Defined.

(** *** Screen angles *)

Lemma atan2_range (y x : R) : - PI < Py.atan2 y x <= PI.
Proof.
  unfold Py.atan2. pose proof PI_RGT_0 as Hpi.
  pose proof (atan_bound (y / x)) as Hb.
  repeat case_decide; try lra.
  - assert (y / x <= 0) as Hq.
    { assert (/ x < 0) by (apply Rinv_lt_0_compat; lra). unfold Rdiv. nra. }
    assert (atan (y / x) <= 0).
    { destruct Hq as [Hq | ->]; [| rewrite atan_0; lra].
      left. rewrite <- atan_0. by apply atan_increasing. }
    lra.
  - assert (0 < y / x) as Hq.
    { replace (y / x) with ((- y) * / (- x)) by (field; lra).
      apply Rmult_lt_0_compat; [lra |]. apply Rinv_0_lt_compat. lra. }
    assert (0 < atan (y / x)).
    { rewrite <- atan_0. by apply atan_increasing. }
    lra.
Qed.

(** X7. A screen angle is always within [-180, 180], and is 0 when the
    pointer is on the centre. (The exact angle is above -180; the float one
    is -180.0 for a pointer left of the centre and barely below it.) *)
Theorem screen_angle_range (cx cy px py : R) :
  - 180 <= screen_angle cx cy px py <= 180 ∧ screen_angle cx cy cx cy = 0.
Proof.
  pose proof PI_RGT_0 as Hpi. split.
  - unfold screen_angle, Py.degrees.
    pose proof (atan2_range (cy - py) (px - cx)) as [Hlo Hhi].
    set (a := Py.atan2 _ _) in *. clearbody a.
    assert (0 < 180 / PI) as Hk by (apply Rdiv_lt_0_compat; lra).
    split.
    + replace (- 180) with (- PI * (180 / PI)) by (field; lra).
      apply Rmult_le_compat_r; lra.
    + replace 180 with (PI * (180 / PI)) at 2 by (field; lra).
      apply Rmult_le_compat_r; lra.
  - unfold screen_angle, Py.degrees, Py.atan2.
    repeat case_decide; lra.
Qed.

Lemma hypot_atan (x y : R) :
  x ≠ 0 → Py.hypot x y = Rabs x * sqrt (1 + (y / x)²).
Proof.
  intros Hx. unfold Py.hypot.
  replace (x * x + y * y) with (x² * (1 + (y / x)²)) by (unfold Rsqr; field; lra).
  rewrite sqrt_mult; [| apply Rle_0_sqr |].
  - by rewrite sqrt_Rsqr_abs.
  - pose proof (Rle_0_sqr (y / x)). lra.
Qed.

Lemma atan2_polar (y x : R) :
  let d := Py.hypot x y in
  x = d * cos (Py.atan2 y x) ∧ y = d * sin (Py.atan2 y x).
Proof.
  cbv zeta. unfold Py.atan2.
  assert (∀ t, 0 < sqrt (1 + t²)) as Hs.
  { intros t. apply sqrt_lt_R0. pose proof (Rle_0_sqr t). lra. }
  destruct (decide (0 < x)) as [Hx | Hx].
  { rewrite hypot_atan by lra. rewrite Rabs_right by lra.
    rewrite cos_atan, sin_atan. specialize (Hs (y / x)).
    split; field; repeat split; lra. }
  destruct (decide (x < 0)) as [Hx' | Hx'].
  { rewrite hypot_atan by lra. rewrite Rabs_left by lra.
    specialize (Hs (y / x)).
    destruct (decide (0 <= y)).
    - rewrite neg_cos, neg_sin, cos_atan, sin_atan. split; field; repeat split; lra.
    - replace (atan (y / x) - PI) with (- (PI - atan (y / x))) by ring.
      rewrite cos_neg, sin_neg, Rtrigo_facts.cos_pi_minus, Rtrigo_facts.sin_pi_minus.
      rewrite cos_atan, sin_atan. split; field; repeat split; lra. }
  assert (x = 0) as -> by lra.
  unfold Py.hypot. replace (0 * 0 + y * y) with (y²) by (unfold Rsqr; ring).
  rewrite sqrt_Rsqr_abs.
  repeat case_decide.
  - rewrite cos_PI2, sin_PI2, Rabs_right by lra. lra.
  - rewrite cos_neg, sin_neg, cos_PI2, sin_PI2, Rabs_left by lra. lra.
  - assert (y = 0) as -> by lra. rewrite Rabs_R0. lra.
Qed.

Lemma radians_degrees (a : R) : Py.radians (Py.degrees a) = a.
Proof. unfold Py.radians, Py.degrees. pose proof PI_RGT_0. field. lra. Qed.

(** X8. A screen angle is the direction from the centre to the pointer,
    counter-clockwise with the screen's y axis pointing down: the pointer is
    the centre moved by its distance along that direction. *)
Theorem screen_angle_direction (cx cy px py : R) :
  let d := Py.hypot (px - cx) (py - cy) in
  let theta := Py.radians (screen_angle cx cy px py) in
  px = cx + d * cos theta ∧ py = cy - d * sin theta.
Proof.
  cbv zeta. unfold screen_angle. rewrite radians_degrees.
  destruct (atan2_polar (cy - py) (px - cx)) as [Hc Hs].
  assert (Py.hypot (px - cx) (py - cy) = Py.hypot (px - cx) (cy - py)) as ->.
  { unfold Py.hypot. f_equal. ring. }
  lra.
Qed.

(** ** World and canvas coordinates *)

Lemma canvas_to_world_None (st : App) (px py : R) :
  canvas_to_world st px py = None ↔ zoom st = 0.
Proof.
  split.
  - intros H. destruct (Req_dec (zoom st) 0) as [| Hz]; [done |].
    rewrite canvas_to_world_Some in H; [discriminate H |].
    unfold grid_px, GRID_SIZE_PX. lra.
  - intros Hz. unfold canvas_to_world, Py.div.
    rewrite !decide_True by (unfold grid_px; rewrite Hz; lra). reflexivity.
Qed.

(** X9. The canvas-to-world conversion faults exactly when the zoom is zero;
    and whenever it gives a world point, converting that point back gives
    the canvas point it came from, exactly so in real arithmetic (as
    implemented on floats, up to the rounding of the division, the product
    and the sum). *)
Theorem world_to_canvas_of_canvas_to_world (st : App) (px py : R) :
  (canvas_to_world st px py = None ↔ zoom st = 0)
  ∧ ∀ w, canvas_to_world st px py = Some w →
         world_to_canvas st w.1 w.2 = (px, py).
Proof.
  split; [apply canvas_to_world_None |].
  intros w Hw.
  assert (grid_px st ≠ 0) as Hg.
  { intros Hg. assert (zoom st = 0) as Hz.
    { unfold grid_px, GRID_SIZE_PX in Hg. lra. }
    apply (canvas_to_world_None st px py) in Hz. congruence. }
  rewrite canvas_to_world_Some in Hw by done.
  injection Hw as <-. unfold world_to_canvas. simpl.
  f_equal; field; done.
Qed.

Lemma world_to_canvas_of_canvas_to_world_witness :
  canvas_to_world initial_app 112 144 = Some (1, 2)
  ∧ world_to_canvas initial_app 1 2 = (112, 144).
Proof.
  assert (canvas_to_world initial_app 112 144 = Some (1, 2)) as H.
  { rewrite canvas_to_world_Some.
    - unfold grid_px, GRID_SIZE_PX. simpl. f_equal. f_equal; field.
    - unfold grid_px, GRID_SIZE_PX. simpl. lra. }
  split; [exact H |].
  exact (proj2 (world_to_canvas_of_canvas_to_world initial_app 112 144) (1, 2) H).
Defined.

(** *** Snapping *)

Lemma round_near (x : R) : Rabs (IZR (Py.round x) - x) <= 1 / 2.
Proof.
  unfold Py.round. destruct (base_Int_part x) as [Hlo Hhi].
  set (f := Int_part x) in *. clearbody f.
  repeat case_decide; try destruct (Z.even f);
    rewrite ?plus_IZR; apply Rabs_le; lra.
Qed.

Lemma round_tie (n : Z) :
  Py.round (IZR n + 1 / 2) = if Z.even n then n else (n + 1)%Z.
Proof.
  assert (Int_part (IZR n + 1 / 2) = n) as Hf.
  { symmetry. apply Int_part_spec. lra. }
  unfold Py.round. rewrite Hf.
  rewrite decide_False by lra. rewrite decide_False by lra. reflexivity.
Qed.

(** X10. With snapping on, a world point goes to a grid point at most half a
    cell away on each axis, a point halfway between two grid lines goes to
    the even one, and snapping a snapped point changes nothing; with
    snapping off the point is left as it is. *)
Theorem snap_world_nearest (st : App) (wx wy : R) :
  (snap_enabled st = false → snap_world st wx wy = (wx, wy))
  ∧ (snap_enabled st = true →
     let s := snap_world st wx wy in
     (∃ i j : Z, s = (IZR i, IZR j))
     ∧ Rabs (s.1 - wx) <= 1 / 2 ∧ Rabs (s.2 - wy) <= 1 / 2
     ∧ snap_world st s.1 s.2 = s
     ∧ ∀ n : Z, (snap_world st (IZR n + 1 / 2) wy).1
                = IZR (if Z.even n then n else n + 1)).
Proof.
  unfold snap_world. split; intros ->; simpl; [done |].
  split_and!.
  - eauto.
  - apply round_near.
  - apply round_near.
  - by rewrite !round_IZR.
  - intros n. by rewrite round_tie.
Qed.

Lemma snap_world_nearest_witness :
  snap_enabled initial_app = true
  ∧ Rabs ((snap_world initial_app (5 / 2) 1).1 - 5 / 2) <= 1 / 2.
Proof.
  split; [reflexivity |].
  pose proof (snap_world_nearest initial_app (5 / 2) 1) as [_ H].
  apply (H eq_refl).
Defined.

(** *** Zoom and pan *)

Lemma MIN_MAX_ZOOM : MIN_ZOOM <= MAX_ZOOM.
Proof. unfold MIN_ZOOM, MAX_ZOOM. lra. Qed.

(** X11. A zoom step leaves the zoom within [MIN_ZOOM, MAX_ZOOM], keeps the
    world point shown at the centre of the canvas where it is, and changes
    nothing but the zoom and the origin. *)
Theorem zoom_keeps_centre (st st' : App) (factor w h : R) :
  _zoom st factor w h = Some st' →
  zoom st' = clamp (zoom st * factor) MIN_ZOOM MAX_ZOOM
  ∧ MIN_ZOOM <= zoom st' <= MAX_ZOOM
  ∧ canvas_to_world st' (w / 2) (h / 2) = canvas_to_world st (w / 2) (h / 2)
  ∧ is_Some (canvas_to_world st' (w / 2) (h / 2))
  ∧ st' = set_origin (origin st') (set_zoom (zoom st') st).
Proof.
  unfold _zoom. cbv zeta.
  pose proof (clamp_bounds (zoom st * factor) _ _ MIN_MAX_ZOOM) as Hc.
  generalize dependent (clamp (zoom st * factor) MIN_ZOOM MAX_ZOOM).
  intros z Hc H.
  assert (0 < 32 * z) as Hg'.
  { unfold MIN_ZOOM in *. lra. }
  case_decide as Hz.
  - injection H as <-.
    assert (grid_px st ≠ 0) as Hg.
    { unfold grid_px, GRID_SIZE_PX. rewrite <- Hz. lra. }
    split_and!; try done; try (rewrite <- Hz; apply Hc).
    + rewrite canvas_to_world_Some by done. eauto.
    + by destruct st.
  - destruct (canvas_to_world st (w / 2) (h / 2)) as [[wx wy] |] eqn:Hw;
      [| discriminate H].
    simpl in H. injection H as <-. simpl.
    split_and!; try done; try apply Hc.
    + rewrite canvas_to_world_Some by (unfold grid_px, GRID_SIZE_PX; simpl; lra).
      unfold grid_px, GRID_SIZE_PX. simpl. f_equal. f_equal; field; lra.
    + rewrite canvas_to_world_Some by (unfold grid_px, GRID_SIZE_PX; simpl; lra).
      eauto.
Qed.

Lemma zoom_keeps_centre_witness :
  ∃ st', _zoom initial_app 2 800 600 = Some st'
         ∧ canvas_to_world st' (800 / 2) (600 / 2)
           = canvas_to_world initial_app (800 / 2) (600 / 2).
Proof.
  destruct (_zoom initial_app 2 800 600) as [st' |] eqn:H.
  - exists st'. split; [reflexivity |].
    apply (zoom_keeps_centre initial_app st' 2 800 600 H).
  - exfalso. revert H. unfold _zoom. cbv zeta.
    case_decide; [discriminate |].
    rewrite canvas_to_world_Some; [discriminate |].
    unfold grid_px, GRID_SIZE_PX. simpl. lra.
Defined.

(** X12. While a pan is active, a pointer move shifts the origin by the
    pointer's displacement: the world point that was under the pointer when
    the last pan event came is under the pointer now, and the zoom and the
    scene stay as they are. *)
Theorem pan_drag_follows_pointer (st : App) (e : Event) :
  pan_active (pan st) = true →
  let st' := _on_pan_drag st e in
  canvas_to_world st' (ev_x e) (ev_y e)
  = canvas_to_world st (pan_start (pan st)).1 (pan_start (pan st)).2
  ∧ pan_start (pan st') = (ev_x e, ev_y e)
  ∧ pan_active (pan st') = true
  ∧ st' = set_origin (origin st') (set_pan (pan st') st).
Proof.
  intros Ha. unfold _on_pan_drag. rewrite Ha. simpl.
  destruct (pan_start (pan st)) as [sx sy] eqn:Hs. simpl.
  split_and!; try done.
  unfold canvas_to_world, grid_px. simpl.
  replace (ev_x e - ((origin st).1 + (ev_x e - sx))) with (sx - (origin st).1) by ring.
  replace (ev_y e - ((origin st).2 + (ev_y e - sy))) with (sy - (origin st).2) by ring.
  reflexivity.
Qed.

Lemma pan_drag_follows_pointer_witness :
  let st := _on_pan_start initial_app (mkEvent 100 100 0) in
  pan_active (pan st) = true
  ∧ canvas_to_world (_on_pan_drag st (mkEvent 130 90 0)) 130 90
    = canvas_to_world st 100 100.
Proof.
  split; [reflexivity |].
  apply (pan_drag_follows_pointer (_on_pan_start initial_app (mkEvent 100 100 0))
                                  (mkEvent 130 90 0) eq_refl).
Defined.

(** ** Invariants of a run *)

Lemma view_step_refl (st : App) : view_step st st.
Proof. done. Qed.

Lemma view_step_trans (st1 st2 st3 : App) :
  view_step st1 st2 → view_step st2 st3 → view_step st1 st3.
Proof. intros [Hz Hc] [Hz' Hc']. split; [congruence | auto]. Qed.

Lemma view_step_frame (st st' : App) : scene_frame st st' → view_step st st'.
Proof.
  intros (_ & Hs & Hm & _ & Hz). split; [done |].
  intros Hc r Hr. rewrite Hm. apply Hc. by rewrite <- Hs.
Qed.

Lemma view_step_views (st st' : App) :
  zoom st' = zoom st → selection_coherent st' → view_step st st'.
Proof. by intros Hz Hc. Qed.

Lemma clear_selection_view (st : App) : view_step st (_clear_selection st).
Proof.
  apply view_step_views; [apply clear_selection_store |].
  intros r Hr. by destruct (clear_selection_frame st) as (_ & Hs & _); congruence.
Qed.

Lemma select_only_view (st : App) (r : ref) : view_step st (select_only r st).
Proof.
  apply view_step_views.
  - change (zoom (select_only r st)) with (zoom (_clear_selection st)).
    apply clear_selection_store.
  - by intros r' [= <-].
Qed.

Lemma select_pick_view (st st' : App) (px py : R) (am handled : bool) :
  select_pick st px py am = Some (handled, st') → view_step st st'.
Proof.
  intros H. unfold select_pick in H.
  destruct (_hit_test st px py) as [[r |] |] eqn:Hhit; try done.
  - pose proof (select_only_view st r) as Hv.
    change (Some (Some r) ≫= _) with
      (let st1 := select_only r st in
       it ← objs st1 !! r;
       body ←
         (if decide (kind it = "text") then
            Some (bool_decide (_hit_text_handle st1 it px py = Some "inside"))
          else if decide (kind it = "room") then
            oh ← _hit_room_handle st1 it px py;
            Some (bool_decide (oh = Some "inside"))
          else if decide (kind it ∈ ["wall"; "door"; "window"]) then
            oh ← _hit_segment_handle st1 it px py;
            Some (bool_decide (oh = Some "onseg"))
          else Some false);
       if body : bool then st2 ← _begin_move_selected st1 px py; Some (true, st2)
       else Some (true, st1)) in H.
    remember (select_only r st) as st1 eqn:Hst1. cbv zeta in H.
    destruct (objs st1 !! r) as [it |]; simpl in H; [| done].
    match type of H with
    | (?b ≫= _) = _ => destruct b as [[] |]; simpl in H; [| | done]
    end.
    + destruct (_begin_move_selected st1 px py) as [st2 |] eqn:Hb;
        simpl in H; [| done].
      injection H as _ <-.
      eapply view_step_trans; [exact Hv |].
      apply view_step_frame. by eapply begin_move_selected_frame.
    + by injection H as _ <-.
  - simpl in H. destruct am; injection H as _ <-; [done |].
    apply clear_selection_view.
Qed.

Lemma select_or_begin_transform_view (st st' : App) (px py : R) (ms : Z)
      (am handled : bool) :
  _select_or_begin_transform st px py ms am = Some (handled, st') →
  view_step st st'.
Proof.
  intros H. unfold _select_or_begin_transform in H.
  destruct (select_group_move st px py) as [[st1 |] |] eqn:Hg; simpl in H; try done.
  { injection H as _ <-. apply view_step_frame. by eapply select_group_move_frame. }
  destruct (select_handles st px py ms) as [[st1 |] |] eqn:Hh; simpl in H; try done.
  { injection H as _ <-. apply view_step_frame. by eapply select_handles_frame. }
  by eapply select_pick_view.
Qed.

Lemma apply_marquee_selection_views (st st' : App) (rc : rect) :
  _apply_marquee_selection st rc = Some st' →
  ∃ sels, marquee_scan st rc (items st) = Some sels
          ∧ selected_items st' = sels
          ∧ selection st' = match sels with [r] => Some r | _ => None end
          ∧ items st' = items st
          ∧ zoom st' = zoom st.
Proof.
  intros H. unfold _apply_marquee_selection in H.
  destruct (marquee_scan st rc (items st)) as [sels |] eqn:Hscan; simpl in H;
    [| done].
  injection H as <-. exists sels.
  destruct (scene_frame_foldl_update_obj (set_selected true) sels
              (_clear_selection st)) as (Hi & _ & _ & _ & Hz).
  destruct (clear_selection_frame st) as (Hi' & _).
  destruct (clear_selection_store st) as (_ & Hz').
  split_and!; try done.
  - simpl. by rewrite Hi, Hi'.
  - simpl. by rewrite Hz, Hz'.
Qed.

Lemma apply_marquee_selection_view (st st' : App) (rc : rect) :
  _apply_marquee_selection st rc = Some st' → view_step st st'.
Proof.
  intros H.
  destruct (apply_marquee_selection_views st st' rc H)
    as (sels & _ & Hm & Hs & _ & Hz).
  apply view_step_views; [done |].
  intros r Hr. rewrite Hs in Hr. rewrite Hm.
  destruct sels as [| s [| ? ?]]; try done. by injection Hr as ->.
Qed.

Lemma append_item_view (k : string) (d : gmap string value) (st : App) :
  view_step st (append_item k d st).
Proof.
  destruct (append_item_spec k d st) as (r & _ & _ & _ & Hs & Hm).
  split; [done |].
  intros Hc r' Hr'. rewrite Hm. apply Hc. by rewrite <- Hs.
Qed.

Lemma remove_quiet_singleton_ne (r r' : ref) :
  r' ≠ r → Py.remove_quiet r [r'] = [r'].
Proof.
  intros Hne. unfold Py.remove_quiet. simpl.
  by rewrite decide_False.
Qed.

(** The selection views after one item left the scene. *)
Lemma removal_view (st st' : App) (r : ref) :
  zoom st' = zoom st →
  selected_items st' = Py.remove_quiet r (selected_items st) →
  selection st' = (if decide (selection st = Some r) then None else selection st) →
  view_step st st'.
Proof.
  intros Hz Hm Hs. split; [done |].
  intros Hc r' Hr'. rewrite Hs in Hr'. case_decide as Hsel; [done |].
  rewrite Hm, (Hc r' Hr').
  apply remove_quiet_singleton_ne. intros ->. done.
Qed.

Lemma delete_item_view (st st' : App) (r : ref) :
  _delete_item st r = Some st' → view_step st st'.
Proof.
  intros H. unfold _delete_item in H.
  case_decide as Hin; [| by injection H as <-].
  destruct (remove_is_Some r (items st) Hin) as [l Hl].
  cbv zeta in H.
  case_decide as Hsel; simpl in H; rewrite Hl in H; simpl in H;
    injection H as <-; eapply removal_view; try done; simpl.
  - simpl in Hsel. by rewrite decide_True.
  - simpl in Hsel. by rewrite decide_False.
Qed.

Lemma delete_selection_view (st : App) : view_step st (delete_selection st).
Proof.
  unfold delete_selection.
  destruct (selected_items st) as [| r l] eqn:Hm.
  - destruct (selection st) eqn:Hs; [| done].
    apply view_step_views; [done |]. by intros r.
  - apply view_step_views; [done |]. by intros r'.
Qed.

Lemma load_json_view (st : App) (doc : Doc) : view_step st (load_json st doc).
Proof.
  apply view_step_views.
  - unfold load_json.
    pose proof (load_items_spec (default [] (doc_items doc)) st) as Hl.
    destruct (load_items st (default [] (doc_items doc))) as [rs st1] eqn:Hld.
    match goal with
    | |- zoom (_clear_selection ?s) = _ =>
      destruct (clear_selection_store s) as (_ & ->)
    end.
    match goal with
    | |- zoom (foldl ?f ?s ?l) = _ =>
      destruct (foldl_update_obj_frame text_defaults l s) as (_ & _ & _ & _ & -> & _)
    end.
    simpl. clear Hl. revert st st1 rs Hld.
    induction (default [] (doc_items doc)) as [| [k d] l IH]; intros st st1 rs Hld.
    + simpl in Hld. by injection Hld as <- <-.
    + rewrite load_items_cons in Hld.
      destruct (load_items (alloc (new_item k d) st).2 l) as [rs' st2] eqn:Hl'.
      simpl in Hld. injection Hld as <- <-.
      by rewrite (IH _ _ _ Hl').
  - intros r Hr. unfold load_json in Hr.
    destruct (load_items st (default [] (doc_items doc))) as [rs st1].
    match type of Hr with
    | selection (_clear_selection ?s) = _ =>
      destruct (clear_selection_frame s) as (_ & Hs & _)
    end.
    congruence.
Qed.

Lemma on_left_down_view (st st' : App) (e : Event) (txt : option string) :
  _on_left_down st e txt = Some st' → view_step st st'.
Proof.
  intros H. unfold _on_left_down in H.
  destruct (pointer_world st (ev_x e) (ev_y e)) as [w |]; simpl in H; [| done].
  destruct (pan_active (pan st)).
  { injection H as <-. apply view_step_frame. frame_step. }
  case_decide as Hselect.
  { destruct (_select_or_begin_transform st (ev_x e) (ev_y e) (ev_state e) true)
      as [[handled st1] |] eqn:Hsel; simpl in H; [| done].
    pose proof (select_or_begin_transform_view _ _ _ _ _ _ _ Hsel) as Hv1.
    destruct handled; injection H as <-; [done |].
    eapply view_step_trans; [exact Hv1 |]. apply view_step_frame. frame_step. }
  case_decide as Hlinear.
  { destruct (ds_start (draw_state st)) as [a |]; injection H as <-.
    - case_decide.
      + eapply view_step_trans; [apply append_item_view |].
        apply view_step_frame. frame_step.
      + apply view_step_frame. frame_step.
    - apply view_step_frame. frame_step. }
  case_decide as Hroom.
  { injection H as <-. apply view_step_frame. frame_step. }
  case_decide as Htext.
  { destruct txt as [s |]; [case_decide |]; injection H as <-;
      first [done | apply append_item_view]. }
  case_decide as Hruler.
  { destruct (ds_ruler_start (draw_state st)) as [a |]; injection H as <-.
    - apply view_step_frame.
      case_decide; [destruct (keep_rulers st) |]; frame_step.
    - apply view_step_frame.
      destruct (negb (keep_rulers st) && bool_decide (rulers st ≠ [])); frame_step. }
  case_decide as Heraser; [| by injection H as <-].
  destruct (_hit_test st (ev_x e) (ev_y e)) as [[r |] |] eqn:Hhit; simpl in H;
    try done; [| by injection H as <-].
  assert (r ∈ items st) as Hin.
  { unfold _hit_test in Hhit. by destruct (hit_test_from_in _ _ _ _ _ _ _ Hhit). }
  destruct (remove_is_Some r (items st) Hin) as [l Hl].
  case_decide as Hsel; simpl in H; rewrite Hl in H; simpl in H; injection H as <-;
    eapply removal_view; try done; simpl.
  - by rewrite decide_True.
  - by rewrite decide_False.
Qed.

Lemma on_left_up_view (st st' : App) (e : Event) :
  _on_left_up st e = Some st' → view_step st st'.
Proof.
  intros H. unfold _on_left_up in H.
  case_decide as Hroom.
  { destruct (pointer_world st (ev_x e) (ev_y e)) as [w |]; simpl in H; [| done].
    destruct (ds_start (draw_state st)) as [a |]; simpl in H; [| done].
    injection H as <-.
    case_decide.
    - eapply view_step_trans; [apply append_item_view |].
      apply view_step_frame. frame_step.
    - apply view_step_frame. frame_step. }
  case_decide as Hselect; [| by injection H as <-].
  destruct (ds_marquee (draw_state st)) as [[[x0 y0] [x1 y1]] |].
  - destruct (_apply_marquee_selection st (rect_norm x0 y0 x1 y1)) as [st1 |] eqn:Hm;
      simpl in H; [| done].
    injection H as <-.
    eapply view_step_trans; [by eapply apply_marquee_selection_view |].
    apply view_step_frame. frame_step.
  - injection H as <-. apply view_step_frame. frame_step.
Qed.

Lemma on_right_click_view (st st' : App) (e : Event) (hit : option ref) :
  _on_right_click st e = Some (st', hit) → view_step st st'.
Proof.
  intros H. unfold _on_right_click in H.
  destruct (_hit_test st (ev_x e) (ev_y e)) as [[r |] |] eqn:Hhit; try done.
  - pose proof (select_only_view st r) as Hv.
    change (Some (Some r) ≫= _) with
      (let st1 := select_only r st in
       it ← objs st1 !! r;
       let st2 :=
         if decide (kind it ∈ ["room"; "wall"; "door"; "window"]) then
           let st' := update_obj r (fun i => set_data (setdefault "measure" (VBool false) (data i)) i) st1 in
           if decide (kind it = "room")
           then update_obj r (fun i => set_data (setdefault "show_area" (VBool true) (data i)) i) st'
           else st'
         else st1 in
       Some (st2, Some r)) in H.
    remember (select_only r st) as st1 eqn:Hst1. cbv zeta in H.
    destruct (objs st1 !! r) as [it |]; simpl in H; [| done].
    injection H as <- <-.
    eapply view_step_trans; [exact Hv |]. apply view_step_frame.
    repeat case_decide; try frame_step.
    eapply scene_frame_trans; apply scene_frame_update_obj.
  - simpl in H. by injection H as <- <-.
Qed.

Lemma zoom_views (st st' : App) (factor w h : R) :
  _zoom st factor w h = Some st' →
  (zoom_in_range st → zoom_in_range st')
  ∧ selection st' = selection st ∧ selected_items st' = selected_items st.
Proof.
  unfold _zoom. cbv zeta. intros H.
  case_decide as Hz; [by injection H as <- |].
  destruct (canvas_to_world st (w / 2) (h / 2)) as [[wx wy] |]; [| done].
  simpl in H. injection H as <-. split_and!; try done.
  intros _. apply clamp_bounds, MIN_MAX_ZOOM.
Qed.

(** What an export puts back whatever ran in between: the two selection
    views and the preview. The zoom is the one the pending handlers left. *)
Lemma export_png_views (during : App → App) (st : App) :
  selection (export_png during st) = selection st
  ∧ selected_items (export_png during st) = selected_items st
  ∧ temp_preview (export_png during st) = temp_preview st
  ∧ zoom (export_png during st) = zoom (during (hide_overlays st))
  ∧ items (export_png during st) = items (during (hide_overlays st)).
Proof.
  unfold export_png. cbv zeta.
  set (st3 := during (hide_overlays st)).
  pose proof (scene_frame_foldl_update_obj (set_selected false) (items st3) st3)
    as (Hi4 & _ & _ & _ & Hz4).
  remember (foldl (fun s r => update_obj r (set_selected false) s) st3 (items st3))
    as st4 eqn:Hst4.
  set (st5 := set_selected_items (selected_items st) st4).
  pose proof (scene_frame_foldl_update_obj (set_selected true) (selected_items st5) st5)
    as (Hi6 & _ & Hm6 & _ & Hz6).
  remember (foldl (fun s r => update_obj r (set_selected true) s) st5 (selected_items st5))
    as st6 eqn:Hst6.
  assert (zoom st6 = zoom st3) as Hz.
  { rewrite Hz6. change (zoom st5) with (zoom st4). exact Hz4. }
  assert (items st6 = items st3) as Hi.
  { rewrite Hi6. change (items st5) with (items st4). exact Hi4. }
  destruct (ds_marquee (draw_state st)); split_and!; done.
Qed.

Lemma hide_overlays_view (st : App) : view_step st (hide_overlays st).
Proof.
  apply view_step_views.
  - change (zoom (hide_overlays st)) with (zoom (_clear_selection st)).
    apply clear_selection_store.
  - intros r Hr.
    change (selection (hide_overlays st)) with (selection (_clear_selection st)) in Hr.
    by destruct (clear_selection_frame st) as (_ & Hs & _); congruence.
Qed.

(** Every operation keeps the zoom within its limits and the selection
    views in agreement, an export with events pending included. *)
Lemma run_op_view :
  ∀ (o : Op) (st st' : App),
    run_op st o = Some st' →
    selection_coherent st → zoom_in_range st →
    selection_coherent st' ∧ zoom_in_range st'.
Proof.
  fix IH 1. intros o st st' H Hc Hz.
  assert (view_step st st' → selection_coherent st' ∧ zoom_in_range st') as Hfin.
  { intros [Hz' Hc']. split; [auto |]. unfold zoom_in_range. by rewrite Hz'. }
  destruct o; simpl in H.
  - by eapply Hfin, on_left_down_view.
  - by eapply Hfin, view_step_frame, on_left_drag_frame.
  - by eapply Hfin, on_left_up_view.
  - destruct (_on_right_click st e) as [[st1 hit] |] eqn:Hrc; simpl in H; [| done].
    pose proof (on_right_click_view st st1 e hit Hrc) as Hv1.
    apply Hfin. eapply view_step_trans; [exact Hv1 |].
    destruct hit as [r |], choice; simpl in H;
      try (by injection H as <-).
    + destruct (objs st1 !! r) as [it |]; simpl in H; [| done].
      case_decide; injection H as <-; [| done].
      apply view_step_frame, scene_frame_update_obj.
    + destruct (objs st1 !! r) as [it |]; simpl in H; [| done].
      case_decide; injection H as <-; [| done].
      apply view_step_frame, scene_frame_update_obj.
    + by eapply delete_item_view.
  - injection H as <-. apply Hfin, delete_selection_view.
  - injection H as <-. apply Hfin, load_json_view.
  - injection H as <-. by apply Hfin.
  - injection H as <-. by apply Hfin.
  - injection H as <-. by apply Hfin.
  - injection H as <-. apply Hfin, view_step_frame, on_pan_drag_frame.
  - injection H as <-. by apply Hfin.
  - injection H as <-. by apply Hfin.
  - destruct (zoom_views st st' factor w h H) as (Hz' & Hs & Hm).
    split; [| by apply Hz']. intros r Hr. rewrite Hm. apply Hc. by rewrite <- Hs.
  - injection H as <-. split; [done |].
    unfold zoom_in_range, MIN_ZOOM, MAX_ZOOM. simpl. lra.
  - injection H as <-. clear Hfin.
    set (during := fun s => foldl (fun s' o' => default s' (run_op s' o')) s pending).
    assert (∀ s, selection_coherent s ∧ zoom_in_range s →
                 selection_coherent (during s) ∧ zoom_in_range (during s))
      as Hpend.
    { subst during. cbv beta.
      induction pending as [| o' l IHl]; intros s Hs; [done |].
      simpl. apply IHl.
      destruct (run_op s o') as [s' |] eqn:Hrun; [| exact Hs].
      destruct Hs as [Hcs Hzs]. exact (IH o' s s' Hrun Hcs Hzs). }
    destruct (export_png_views during st) as (Hs & Hm & _ & Hz' & _).
    split.
    + intros r Hr. rewrite Hm. apply Hc. by rewrite <- Hs.
    + unfold zoom_in_range. rewrite Hz'.
      destruct (hide_overlays_view st) as [Hzh Hch].
      apply Hpend. split; [by apply Hch |].
      unfold zoom_in_range. by rewrite Hzh.
  - injection H as <-. by apply Hfin.
  - injection H as <-. by apply Hfin.
  - injection H as <-. by apply Hfin.
  - injection H as <-. apply Hfin, view_step_frame, redraw_writes_frame.
Qed.

Lemma reachable_view (st : App) :
  reachable st → selection_coherent st ∧ zoom_in_range st.
Proof.
  induction 1 as [| st st' o _ [Hc Hz] Hstep].
  - split; [done |]. unfold zoom_in_range, MIN_ZOOM, MAX_ZOOM. simpl. lra.
  - by eapply run_op_view.
Qed.

Lemma reachable_load_stairs : reachable (load_json initial_app stairs_doc).
Proof. by apply (reachable_step initial_app _ (LoadDoc stairs_doc) reachable_init). Qed.

Lemma reachable_quiet_load_stairs :
  reachable_quiet (load_json initial_app stairs_doc).
Proof.
  by apply (reachable_quiet_step initial_app _ (LoadDoc stairs_doc)
              reachable_quiet_init).
Qed.

(** X13. In every state the editor reaches through operations that
    complete (an operation that raises is not a step), no export finding an
    event pending when it calls [self.update()], the scene lists no item
    twice and lists existing objects only, the multi-selection lists no
    item twice, and the multi-selection and the single selection hold items
    of the scene only. (An export that dispatches a pending eraser click
    puts back a selection that names the erased item:
    [export_with_pending_erase] below.) *)
Theorem reachable_scene_well_formed (st : App) :
  reachable_quiet st →
  NoDup (items st) ∧ NoDup (selected_items st)
  ∧ (∀ r, r ∈ items st → is_Some (objs st !! r))
  ∧ (∀ r, r ∈ selected_items st → r ∈ items st)
  ∧ (∀ r, selection st = Some r → r ∈ items st).
Proof.
  intros Hr. destruct (reachable_quiet_wf st Hr) as (H1 & H2 & H3 & H4 & H5). done.
Qed.

Lemma reachable_scene_well_formed_witness :
  reachable_quiet (load_json initial_app stairs_doc)
  ∧ NoDup (items (load_json initial_app stairs_doc)).
Proof.
  split; [exact reachable_quiet_load_stairs |].
  apply (reachable_scene_well_formed _ reachable_quiet_load_stairs).
Defined.

(** X14. In every state the editor reaches through operations that
    complete, the zoom is within [MIN_ZOOM, MAX_ZOOM], so the conversion of
    a pointer position to world coordinates, with which the pointer
    handlers open, never divides by zero. *)
Theorem reachable_zoom_in_range (st : App) :
  reachable st →
  MIN_ZOOM <= zoom st <= MAX_ZOOM
  ∧ ∀ px py, is_Some (canvas_to_world st px py)
             ∧ is_Some (pointer_world st px py).
Proof.
  intros Hr. destruct (reachable_view st Hr) as [_ Hz]. split; [done |].
  intros px py.
  assert (grid_px st ≠ 0) as Hg.
  { pose proof (grid_px_pos st (proj1 Hz)). lra. }
  split; [| by apply pointer_world_total].
  rewrite canvas_to_world_Some by done. eauto.
Qed.

Lemma reachable_zoom_in_range_witness :
  reachable (load_json initial_app stairs_doc)
  ∧ MIN_ZOOM <= zoom (load_json initial_app stairs_doc) <= MAX_ZOOM.
Proof.
  split; [exact reachable_load_stairs |].
  apply (reachable_zoom_in_range _ reachable_load_stairs).
Defined.

(** X15. In every state the editor reaches through operations that
    complete, a single selection is the only element of the
    multi-selection. So the branch of [delete_selection] for a single
    selection without a multi-selection never runs: with an empty
    multi-selection the Delete key changes nothing. *)
Theorem reachable_selection_coherent (st : App) :
  reachable st →
  (∀ r, selection st = Some r → selected_items st = [r])
  ∧ (selected_items st = [] → selection st = None ∧ delete_selection st = st).
Proof.
  intros Hr. destruct (reachable_view st Hr) as [Hc _]. split; [done |].
  intros Hm.
  assert (selection st = None) as Hs.
  { destruct (selection st) as [r |] eqn:Hs; [| done].
    specialize (Hc r Hs). congruence. }
  split; [done |]. unfold delete_selection. by rewrite Hm, Hs.
Qed.

Lemma reachable_selection_coherent_witness :
  reachable (load_json initial_app stairs_doc)
  ∧ (selected_items (load_json initial_app stairs_doc) = [] →
     selection (load_json initial_app stairs_doc) = None
     ∧ delete_selection (load_json initial_app stairs_doc)
       = load_json initial_app stairs_doc).
Proof.
  split; [exact reachable_load_stairs |].
  apply (reachable_selection_coherent _ reachable_load_stairs).
Defined.

(** ** The hit-test scan *)


Lemma text_hit_kind (px py : R) (it : Item) : text_hit px py it → kind it = "text".
Proof. by intros [Hk _]. Qed.

#[local] Opaque world_to_canvas.


#[local] Transparent world_to_canvas.


Lemma hypot_horizontal (x : R) : Py.hypot x 0 = Rabs x.
Proof.
  unfold Py.hypot. replace (x * x + 0 * 0) with (x²) by (unfold Rsqr; ring).
  apply sqrt_Rsqr_abs.
Qed.

(** The distance to the canvas segment of the vertical wall, beside it. *)
Lemma dist_vertical_wall (px py : R) :
  80 <= py <= 240 →
  dist_point_to_segment px py 80 80 80 240 = Some (Rabs (px - 80)).
Proof.
  intros Hy.
  destruct (dist_point_to_segment_proper px py 80 80 80 240) as (-> & _ & _).
  { intros [=]. lra. }
  f_equal. rewrite <- hypot_horizontal.
  assert (((px - 80) * (80 - 80) + (py - 80) * (240 - 80))
          / ((80 - 80) * (80 - 80) + (240 - 80) * (240 - 80)) = (py - 80) / 160)
    as -> by (field; lra).
  assert (0 <= (py - 80) / 160 <= 1) as Hq.
  { unfold Rdiv. lra. }
  rewrite Rmin_right by lra. rewrite Rmax_right by lra.
  f_equal; field.
Qed.

Lemma vertical_wall_hit_test (px py d : R) :
  dist_point_to_segment px py 80 80 80 240 = Some d →
  _hit_test vertical_wall_app px py
  = Some (if decide (d <= HIT_TOL ∧ d < 1000000000) then Some 0%nat else None).
Proof.
  intros Hd. unfold _hit_test.
  change (items vertical_wall_app) with [0%nat]. cbn [hit_test_from].
  rewrite vertical_wall_lookup. cbn [mbind option_bind].
  change (kind (new_item "wall" (ab_data (0, 0) (0, 5)))) with "wall".
  literal_decide.
  destruct (get_point_ab_data (0, 0) (0, 5)) as [Ha Hb].
  simpl data. rewrite Ha, Hb. simpl.
  replace (80 + 0 * grid_px vertical_wall_app) with 80
    by (unfold grid_px, GRID_SIZE_PX; simpl; lra).
  replace (80 + 5 * grid_px vertical_wall_app) with 240
    by (unfold grid_px, GRID_SIZE_PX; simpl; lra).
  rewrite Hd. simpl. by case_decide.
Qed.

Lemma vertical_wall_hit : _hit_test vertical_wall_app 82 100 = Some (Some 0%nat).
Proof.
  rewrite (vertical_wall_hit_test 82 100 (Rabs (82 - 80)))
    by (apply dist_vertical_wall; lra).
  rewrite decide_True; [done |].
  rewrite Rabs_right by lra. unfold HIT_TOL. lra.
Qed.

Lemma vertical_wall_miss : _hit_test vertical_wall_app 200 100 = Some None.
Proof.
  rewrite (vertical_wall_hit_test 200 100 (Rabs (200 - 80)))
    by (apply dist_vertical_wall; lra).
  rewrite decide_False; [done |].
  rewrite Rabs_right by lra. unfold HIT_TOL. lra.
Qed.



(** *** The scan, whatever the distances *)

(** [_hit_test] is the scan over the distances its own arithmetic gives. *)
Lemma hit_test_from_scan (st : App) (px py : R) (l : list ref)
      (best : option ref) (bestd : R) :
  hit_test_from st px py l best bestd
  = hit_scan (seg_dist st px py) (room_dist st px py) st px py l best bestd.
Proof.
  revert best bestd. induction l as [| r l IH]; intros best bestd; [done |].
  cbn [hit_test_from hit_scan].
  destruct (objs st !! r) as [it |]; [| done]. cbn [mbind option_bind].
  unfold seg_dist, room_dist.
  case_decide as Hseg.
  { destruct (get_point (data it) "a") as [a |]; [| done].
    destruct (get_point (data it) "b") as [b |]; [| done].
    cbn [mbind option_bind].
    destruct (world_to_canvas st a.1 a.2) as [x1 y1].
    destruct (world_to_canvas st b.1 b.2) as [x2 y2].
    destruct (dist_point_to_segment px py x1 y1 x2 y2) as [d |]; [| done].
    cbn [mbind option_bind]. case_decide; apply IH. }
  case_decide as Hroom.
  { destruct (get_point (data it) "a") as [a |]; [| done].
    destruct (get_point (data it) "b") as [b |]; [| done].
    cbn [mbind option_bind].
    destruct (world_to_canvas st (Rmin a.1 b.1) (Rmin a.2 b.2)) as [x0 y0].
    destruct (world_to_canvas st (Rmax a.1 b.1) (Rmax a.2 b.2)) as [x1 y1].
    case_decide; cbn [mbind option_bind]; [| apply IH].
    case_decide; apply IH. }
  case_decide; [| apply IH].
  destruct (bbox_canvas it) as [[[[x0 y0] x1] y1] |]; [| apply IH].
  case_decide; [done | apply IH].
Qed.

Lemma scan_candidate_functional (sd : Item → option R)
      (rd : Item → option (option R)) (it : Item) (d d' : R) :
  scan_candidate sd rd it d → scan_candidate sd rd it d' → d' = d.
Proof.
  intros [(Hk & Hd & _) | (Hk & Hd)] [(Hk' & Hd' & _) | (Hk' & Hd')].
  - congruence.
  - rewrite Hk' in Hk. not_in_literals Hk.
  - rewrite Hk in Hk'. not_in_literals Hk'.
  - congruence.
Qed.

(** One round of the scan. *)
Lemma hit_scan_step (sd : Item → option R) (rd : Item → option (option R))
      (st : App) (px py : R) (r : ref) (it : Item)
      (l : list ref) (best : option ref) (bestd : R) (res : option ref) :
  objs st !! r = Some it →
  hit_scan sd rd st px py (r :: l) best bestd = Some res →
  (text_hit px py it ∧ res = Some r)
  ∨ (¬ text_hit px py it
     ∧ ((∃ d, scan_candidate sd rd it d ∧ d < bestd
              ∧ hit_scan sd rd st px py l (Some r) d = Some res)
        ∨ ((∀ d, scan_candidate sd rd it d → bestd <= d)
           ∧ hit_scan sd rd st px py l best bestd = Some res))).
Proof.
  intros Hr H. cbn [hit_scan] in H. rewrite Hr in H. cbn [mbind option_bind] in H.
  case_decide as Hseg.
  { right. split.
    { intros Ht. apply text_hit_kind in Ht. rewrite Ht in Hseg.
      not_in_literals Hseg. }
    destruct (sd it) as [d |] eqn:Hd; cbn [mbind option_bind] in H; [| done].
    case_decide as Hc.
    - left. exists d. split_and!; try done; [| apply Hc].
      left. split_and!; try done. apply Hc.
    - right. split; [| done].
      intros d' [(_ & Hd' & Htol) | (Hk' & _)].
      + assert (d' = d) as -> by congruence.
        destruct (Rle_dec bestd d); [done |]. exfalso. apply Hc. split; lra.
      + rewrite Hk' in Hseg. not_in_literals Hseg. }
  case_decide as Hroom.
  { right. split.
    { intros Ht. apply text_hit_kind in Ht. congruence. }
    destruct (rd it) as [od |] eqn:Hd; cbn [mbind option_bind] in H; [| done].
    destruct od as [d |].
    - case_decide as Hc.
      + left. exists d. split_and!; try done. by right.
      + right. split; [| done].
        intros d' [(Hk' & _) | (_ & Hd')].
        * rewrite Hroom in Hk'. not_in_literals Hk'.
        * assert (d' = d) as -> by congruence.
          destruct (Rle_dec bestd d); [done |]. exfalso. apply Hc. lra.
    - right. split; [| done].
      intros d' [(Hk' & _) | (_ & Hd')].
      + rewrite Hroom in Hk'. not_in_literals Hk'.
      + congruence. }
  assert (∀ d, ¬ scan_candidate sd rd it d) as Hnc.
  { intros d [(Hk' & _) | (Hk' & _)]; done. }
  case_decide as Htext.
  - destruct (bbox_canvas it) as [[[[x0 y0] x1] y1] |] eqn:Hbb.
    + case_decide as Hin.
      * left. injection H as <-. split; [| done].
        split; [done |]. exists x0, y0, x1, y1. done.
      * right. split.
        { intros (_ & u0 & v0 & u1 & v1 & Hbb' & Hu & Hv).
          rewrite Hbb in Hbb'. injection Hbb' as <- <- <- <-. by apply Hin. }
        right. split; [| done]. intros d Hd. by destruct (Hnc d).
    + right. split.
      { intros (_ & u0 & v0 & u1 & v1 & Hbb' & _). congruence. }
      right. split; [| done]. intros d Hd. by destruct (Hnc d).
  - right. split.
    { intros Ht. by apply text_hit_kind in Ht. }
    right. split; [| done]. intros d Hd. by destruct (Hnc d).
Qed.

(** What the scan returns, from any position and running best, whatever
    the computed distances. *)
Lemma hit_scan_spec (sd : Item → option R) (rd : Item → option (option R))
      (st : App) (px py : R) (l : list ref)
      (best : option ref) (bestd : R) (res : option ref) :
  hit_scan sd rd st px py l best bestd = Some res →
  (∃ r it, res = Some r ∧ r ∈ l ∧ objs st !! r = Some it ∧ text_hit px py it)
  ∨ ((∀ r it, r ∈ l → objs st !! r = Some it → ¬ text_hit px py it)
     ∧ ∃ bd, bd <= bestd
       ∧ (∀ r it d, r ∈ l → objs st !! r = Some it →
                    scan_candidate sd rd it d → bd <= d)
       ∧ ((res = best ∧ bd = bestd)
          ∨ ∃ r it, res = Some r ∧ r ∈ l ∧ objs st !! r = Some it
                    ∧ scan_candidate sd rd it bd ∧ bd < bestd)).
Proof.
  revert best bestd. induction l as [| r0 l IH]; intros best bestd H.
  { simpl in H. injection H as <-. right. split.
    - intros r it Hr. by apply elem_of_nil in Hr.
    - exists bestd. split; [lra |]. split; [| by left].
      intros r it d Hr. by apply elem_of_nil in Hr. }
  destruct (objs st !! r0) as [it0 |] eqn:Hr0;
    [| simpl in H; rewrite Hr0 in H; done].
  destruct (hit_scan_step _ _ _ _ _ _ _ _ _ _ _ Hr0 H)
    as [[Ht ->] | [Hnt [(d0 & Hc0 & Hlt & Hrec) | [Hnc Hrec]]]].
  - left. exists r0, it0. split_and!; try done. constructor.
  - destruct (IH _ _ Hrec)
      as [(r & it & -> & Hin & Hr & Ht) | (Hno & bd & Hle & Hmin & Hres)].
    + left. exists r, it. split_and!; try done. by constructor.
    + right. split.
      { intros r it Hin Hr. apply elem_of_cons in Hin as [-> | Hin]; [| by eapply Hno].
        assert (it = it0) as -> by congruence. done. }
      exists bd. split; [lra |]. split.
      { intros r it d Hin Hr Hc. apply elem_of_cons in Hin as [-> | Hin];
          [| by eapply Hmin].
        assert (it = it0) as -> by congruence.
        rewrite (scan_candidate_functional _ _ _ _ _ Hc0 Hc). done. }
      right. destruct Hres as [[-> ->] | (r & it & -> & Hin & Hr & Hc & Hlt')].
      * exists r0, it0. split_and!; try done. constructor.
      * exists r, it. split_and!; try done; [by constructor | lra].
  - destruct (IH _ _ Hrec)
      as [(r & it & -> & Hin & Hr & Ht) | (Hno & bd & Hle & Hmin & Hres)].
    + left. exists r, it. split_and!; try done. by constructor.
    + right. split.
      { intros r it Hin Hr. apply elem_of_cons in Hin as [-> | Hin]; [| by eapply Hno].
        assert (it = it0) as -> by congruence. done. }
      exists bd. split; [done |]. split.
      { intros r it d Hin Hr Hc. apply elem_of_cons in Hin as [-> | Hin];
          [| by eapply Hmin].
        assert (it = it0) as -> by congruence.
        specialize (Hnc d Hc). lra. }
      destruct Hres as [[-> ->] | (r & it & -> & Hin & Hr & Hc & Hlt')].
      * by left.
      * right. exists r, it. split_and!; try done. by constructor.
Qed.

(** X17. [_hit_test] is the scan [hit_scan] over the distances its own
    arithmetic computes. Whatever the distances computed for the items,
    when the scan returns an item that is not a Text item, no Text box of
    the scene holds the pointer and the item is a nearest candidate by
    these distances: a Wall, Door or Window whose computed distance is at
    most [HIT_TOL], or a Room whose grown box was found to hold the pointer,
    and no candidate of the scene has a smaller computed distance. *)
Theorem hit_test_nearest (st : App) (px py : R) :
  _hit_test st px py
  = hit_scan (seg_dist st px py) (room_dist st px py) st px py (items st)
             None 1000000000
  ∧ ∀ sd rd r it,
      hit_scan sd rd st px py (items st) None 1000000000 = Some (Some r) →
      objs st !! r = Some it →
      kind it ≠ "text" →
      (∀ r' it', r' ∈ items st → objs st !! r' = Some it' → ¬ text_hit px py it')
      ∧ ∃ d, scan_candidate sd rd it d ∧ d < 1000000000
             ∧ ∀ r' it' d', r' ∈ items st → objs st !! r' = Some it' →
                            scan_candidate sd rd it' d' → d <= d'.
Proof.
  split; [apply hit_test_from_scan |].
  intros sd rd r it H Hr Hk.
  destruct (hit_scan_spec _ _ _ _ _ _ _ _ _ H)
    as [(r' & it' & [= <-] & Hin & Hr' & Ht)
       | (Hno & bd & _ & Hmin & [[[=] _] | (r' & it' & [= <-] & Hin & Hr' & Hc & Hlt)])].
  - assert (it' = it) as -> by congruence.
    by apply text_hit_kind in Ht.
  - assert (it' = it) as -> by congruence.
    split; [done |]. exists bd. split; [done |]. split; [done |]. done.
Qed.

(** X18. Whatever the distances computed for the items, when the scan of
    [_hit_test] returns nothing, no Text box of the scene holds the pointer,
    the scene has no candidate at a computed distance below the initial
    bound 1e9, and so no Wall, Door or Window whose computed distance is at
    most [HIT_TOL]. *)
Theorem hit_test_none (st : App) (px py : R) :
  _hit_test st px py
  = hit_scan (seg_dist st px py) (room_dist st px py) st px py (items st)
             None 1000000000
  ∧ ∀ sd rd,
      hit_scan sd rd st px py (items st) None 1000000000 = Some None →
      ∀ r it, r ∈ items st → objs st !! r = Some it →
              ¬ text_hit px py it
              ∧ (∀ d, scan_candidate sd rd it d → 1000000000 <= d)
              ∧ (kind it ∈ ["wall"; "door"; "window"] →
                 ∀ d, sd it = Some d → HIT_TOL < d).
Proof.
  split; [apply hit_test_from_scan |].
  intros sd rd H r it Hin Hr.
  destruct (hit_scan_spec _ _ _ _ _ _ _ _ _ H)
    as [(r' & it' & [=] & _)
       | (Hno & bd & _ & Hmin & [[_ ->] | (r' & it' & [=] & _)])].
  assert (∀ d, scan_candidate sd rd it d → 1000000000 <= d) as Hfar.
  { intros d Hc. by eapply Hmin. }
  split_and!; [by eapply Hno | done |].
  intros Hk d Hd.
  destruct (Rlt_dec HIT_TOL d) as [| Hle]; [done |].
  assert (scan_candidate sd rd it d) as Hc.
  { left. split_and!; try done. lra. }
  specialize (Hfar d Hc). unfold HIT_TOL in Hle. lra.
Qed.

Lemma vertical_wall_scan_hit :
  hit_scan (seg_dist vertical_wall_app 82 100) (room_dist vertical_wall_app 82 100)
           vertical_wall_app 82 100 (items vertical_wall_app) None 1000000000
  = Some (Some 0%nat).
Proof.
  rewrite <- hit_test_from_scan. exact vertical_wall_hit.
Qed.

Lemma vertical_wall_scan_miss :
  hit_scan (seg_dist vertical_wall_app 200 100) (room_dist vertical_wall_app 200 100)
           vertical_wall_app 200 100 (items vertical_wall_app) None 1000000000
  = Some None.
Proof.
  rewrite <- hit_test_from_scan. exact vertical_wall_miss.
Qed.

Lemma hit_test_nearest_witness :
  hit_scan (seg_dist vertical_wall_app 82 100) (room_dist vertical_wall_app 82 100)
           vertical_wall_app 82 100 (items vertical_wall_app) None 1000000000
  = Some (Some 0%nat)
  ∧ ∃ d, scan_candidate (seg_dist vertical_wall_app 82 100)
                        (room_dist vertical_wall_app 82 100)
                        (new_item "wall" (ab_data (0, 0) (0, 5))) d.
Proof.
  split; [exact vertical_wall_scan_hit |].
  assert (kind (new_item "wall" (ab_data (0, 0) (0, 5))) ≠ "text") as Hk by done.
  destruct (proj2 (hit_test_nearest vertical_wall_app 82 100) _ _ 0%nat _
              vertical_wall_scan_hit vertical_wall_lookup Hk) as (_ & d & Hd & _).
  by exists d.
Defined.

Lemma hit_test_none_witness :
  hit_scan (seg_dist vertical_wall_app 200 100) (room_dist vertical_wall_app 200 100)
           vertical_wall_app 200 100 (items vertical_wall_app) None 1000000000
  = Some None
  ∧ ∀ d, ¬ scan_candidate (seg_dist vertical_wall_app 200 100)
                          (room_dist vertical_wall_app 200 100)
                          (new_item "wall" (ab_data (0, 0) (0, 5))) d.
Proof.
  split; [exact vertical_wall_scan_miss |].
  assert (0%nat ∈ items vertical_wall_app) as Hin by constructor.
  destruct (proj2 (hit_test_none vertical_wall_app 200 100) _ _
              vertical_wall_scan_miss 0%nat _ Hin vertical_wall_lookup)
    as (_ & Hfar & _).
  intros d Hc. pose proof (Hfar d Hc) as Hd.
  destruct Hc as [(_ & _ & Htol) | (Hk & _)]; [| discriminate Hk].
  unfold HIT_TOL in Htol. lra.
Defined.

(** ** Marquee selection *)

Lemma foldl_set_selected (b : bool) (l : list ref) (st : App) (r : ref) :
  objs (foldl (fun s r => update_obj r (set_selected b) s) st l) !! r
  = if decide (r ∈ l) then set_selected b <$> objs st !! r else objs st !! r.
Proof.
  revert st. induction l as [| r0 l IH]; intros st; cbn [foldl].
  - rewrite decide_False; [done | apply not_elem_of_nil].
  - rewrite IH. destruct (decide (r = r0)) as [-> | Hne].
    + rewrite objs_update_obj_eq. rewrite (decide_True (P := r0 ∈ r0 :: l))
        by constructor.
      case_decide; [| done]. by destruct (objs st !! r0).
    + rewrite objs_update_obj_ne by done.
      destruct (decide (r ∈ l)) as [Hin | Hnin].
      * rewrite decide_True; [done | by constructor].
      * rewrite decide_False; [done |]. by apply not_elem_of_cons.
Qed.

Lemma clear_selection_lookup (st : App) (r : ref) :
  objs (_clear_selection st) !! r
  = if decide (r ∈ items st) then set_selected false <$> objs st !! r
    else objs st !! r.
Proof. unfold _clear_selection. simpl. apply foldl_set_selected. Qed.

#[local] Opaque world_to_canvas.

(** What the scan decides for the item at its head. *)
Lemma marquee_scan_cons (st : App) (rc : rect) (r : ref) (l sels : list ref) :
  marquee_scan st rc (r :: l) = Some sels →
  ∃ it keep sels',
    objs st !! r = Some it
    ∧ marquee_scan st rc l = Some sels'
    ∧ sels = (if keep : bool then r :: sels' else sels')
    ∧ (keep = true ↔ meets_marquee st rc it).
Proof.
  intros H. simpl in H.
  destruct (objs st !! r) as [it |] eqn:Hr; simpl in H; [| done].
  exists it.
  match type of H with
  | (?b ≫= _) = _ => destruct b as [keep |] eqn:Hkeep; simpl in H; [| done]
  end.
  destruct (marquee_scan st rc l) as [sels' |]; simpl in H; [| done].
  injection H as <-. exists keep, sels'. split_and!; try done.
  case_decide as Hroom.
  { destruct (get_point (data it) "a") as [a |] eqn:Ha; simpl in Hkeep; [| done].
    destruct (get_point (data it) "b") as [b |] eqn:Hb; simpl in Hkeep; [| done].
    destruct (world_to_canvas st (Rmin a.1 b.1) (Rmin a.2 b.2)) as [x0 y0] eqn:Hw0.
    destruct (world_to_canvas st (Rmax a.1 b.1) (Rmax a.2 b.2)) as [x1 y1] eqn:Hw1.
    injection Hkeep as <-. split.
    - intros Hk. left. split; [done |]. exists a, b. rewrite Hw0, Hw1. done.
    - intros [(_ & a' & b' & Ha' & Hb' & Hm) | [(Hk & _) | (Hk & _)]].
      + assert (a' = a) as -> by congruence. assert (b' = b) as -> by congruence.
        rewrite Hw0, Hw1 in Hm. done.
      + rewrite Hroom in Hk. not_in_literals Hk.
      + congruence. }
  case_decide as Hseg.
  { destruct (get_point (data it) "a") as [a |] eqn:Ha; simpl in Hkeep; [| done].
    destruct (get_point (data it) "b") as [b |] eqn:Hb; simpl in Hkeep; [| done].
    injection Hkeep as <-. split.
    - intros Hk. right. left. split; [done |]. by exists a, b.
    - intros [(Hk & _) | [(_ & a' & b' & Ha' & Hb' & Hm) | (Hk & _)]].
      + done.
      + assert (a' = a) as -> by congruence. assert (b' = b) as -> by congruence.
        done.
      + rewrite Hk in Hseg. not_in_literals Hseg. }
  case_decide as Htext.
  { destruct (bbox_canvas it) as [bb |] eqn:Hbb; injection Hkeep as <-; split.
    - intros Hk. right. right. split; [done |]. by exists bb.
    - intros [(Hk & _) | [(Hk & _) | (_ & bb' & Hbb' & Hm)]]; [done | done |].
      congruence.
    - done.
    - intros [(Hk & _) | [(Hk & _) | (_ & bb' & Hbb' & Hm)]]; [done | done |].
      congruence. }
  injection Hkeep as <-. split; [done |].
  intros [(Hk & _) | [(Hk & _) | (Hk & _)]]; done.
Qed.

#[local] Transparent world_to_canvas.

Lemma marquee_scan_spec (st : App) (rc : rect) (l sels : list ref) :
  marquee_scan st rc l = Some sels →
  sels `sublist_of` l
  ∧ ∀ r, r ∈ l → ∃ it, objs st !! r = Some it
                        ∧ (r ∈ sels ↔ meets_marquee st rc it).
Proof.
  revert sels. induction l as [| r0 l IH]; intros sels H.
  { simpl in H. injection H as <-. split; [done |].
    intros r Hr. by apply elem_of_nil in Hr. }
  destruct (marquee_scan_cons _ _ _ _ _ H) as (it0 & keep & sels' & Hr0 & Hrec & -> & Hk).
  destruct (IH _ Hrec) as [Hsub Hmem].
  split.
  { destruct keep; [by apply sublist_skip | by apply sublist_cons]. }
  assert (∀ r it, r ∈ sels' → objs st !! r = Some it → meets_marquee st rc it)
    as Hsels'.
  { intros r it Hin Hr.
    destruct (Hmem r) as (it' & Hr' & Hiff); [by eapply elem_of_sublist |].
    assert (it' = it) as -> by congruence. by apply Hiff. }
  intros r Hin. apply elem_of_cons in Hin as [-> | Hin].
  - exists it0. split; [done |]. destruct keep.
    + split; [intros _; by apply Hk | intros _; constructor].
    + split; [intros Hin'; by eapply Hsels' |].
      intros Hm. apply Hk in Hm. done.
  - destruct (Hmem r Hin) as (it & Hr & Hiff). exists it. split; [done |].
    destruct keep; [| done].
    rewrite elem_of_cons, Hiff. split; [| by right].
    intros [-> | Hm]; [| done].
    assert (it = it0) as -> by congruence. by apply Hk.
Qed.

(** X19. A marquee selection leaves the scene as it is and selects exactly
    the items the rectangle meets, in scene order; the single selection is
    set exactly when one item was selected; and afterwards the [selected]
    flag of an item of the scene is set exactly when the item is in the
    multi-selection, its kind and data being untouched. *)
Theorem marquee_selects_what_it_meets (st st' : App) (rc : rect) :
  _apply_marquee_selection st rc = Some st' →
  items st' = items st
  ∧ selected_items st' `sublist_of` items st
  ∧ selection st' = match selected_items st' with [r] => Some r | _ => None end
  ∧ ∀ r, r ∈ items st →
         ∃ it it', objs st !! r = Some it ∧ objs st' !! r = Some it'
                   ∧ kind it' = kind it ∧ data it' = data it
                   ∧ (r ∈ selected_items st' ↔ meets_marquee st rc it)
                   ∧ (selected it' = true ↔ r ∈ selected_items st').
Proof.
  intros H.
  destruct (apply_marquee_selection_views st st' rc H)
    as (sels & Hscan & Hm & Hs & Hi & _).
  destruct (marquee_scan_spec _ _ _ _ Hscan) as [Hsub Hmem].
  rewrite Hm. split_and!; try done.
  intros r Hin. destruct (Hmem r Hin) as (it & Hr & Hiff).
  assert (objs st' !! r
          = if decide (r ∈ sels)
            then Some (set_selected true (set_selected false it))
            else Some (set_selected false it)) as Hr'.
  { unfold _apply_marquee_selection in H. rewrite Hscan in H. simpl in H.
    injection H as <-. simpl.
    rewrite foldl_set_selected, clear_selection_lookup.
    rewrite (decide_True (P := r ∈ items st)) by done. rewrite Hr.
    by case_decide. }
  exists it. case_decide as Hsel; eexists; split_and!; try done; simpl; split; done.
Qed.

Lemma marquee_selects_what_it_meets_witness :
  ∃ st', _apply_marquee_selection vertical_wall_app (70, 70, 90, 90) = Some st'
         ∧ items st' = items vertical_wall_app.
Proof.
  destruct (_apply_marquee_selection vertical_wall_app (70, 70, 90, 90))
    as [st' |] eqn:H.
  - exists st'. split; [reflexivity |].
    apply (marquee_selects_what_it_meets vertical_wall_app st' (70, 70, 90, 90) H).
  - exfalso. revert H. unfold _apply_marquee_selection.
    change (items vertical_wall_app) with [0%nat]. cbn [marquee_scan].
    rewrite vertical_wall_lookup. cbn [mbind option_bind].
    change (kind (new_item "wall" (ab_data (0, 0) (0, 5)))) with "wall".
    literal_decide.
    destruct (get_point_ab_data (0, 0) (0, 5)) as [Ha Hb].
    simpl data. rewrite Ha, Hb. simpl. discriminate.
Defined.

(** ** The group bounding box *)

Lemma min_of_spec (f : rect → R) (b : rect) (bs : list rect) :
  (∀ c, c ∈ b :: bs → min_of f b bs <= f c)
  ∧ ∃ c, c ∈ b :: bs ∧ min_of f b bs = f c.
Proof.
  unfold min_of. revert b. induction bs as [| c0 bs IH]; intros b; simpl.
  - split.
    + intros c Hc. apply list_elem_of_singleton in Hc as ->. lra.
    + exists b. split; [constructor | done].
  - assert (∀ m m', m <= m' →
              foldl (fun m c => Rmin m (f c)) m bs
              <= foldl (fun m c => Rmin m (f c)) m' bs) as Hmono.
    { clear. induction bs as [| c bs IH]; intros m m' Hm; simpl; [done |].
      apply IH. by apply Rle_min_compat_r. }
    assert (∀ m, (∀ c, c ∈ bs → foldl (fun m c => Rmin m (f c)) m bs <= f c)
                 ∧ foldl (fun m c => Rmin m (f c)) m bs <= m
                 ∧ (foldl (fun m c => Rmin m (f c)) m bs = m
                    ∨ ∃ c, c ∈ bs ∧ foldl (fun m c => Rmin m (f c)) m bs = f c))
      as Hgen.
    { clear. induction bs as [| c bs IH]; intros m; simpl.
      - split; [intros c Hc; by apply elem_of_nil in Hc |]. split; [lra | by left].
      - destruct (IH (Rmin m (f c))) as (Hall & Hle & Hatt).
        pose proof (Rmin_l m (f c)). pose proof (Rmin_r m (f c)).
        split_and!.
        + intros c' Hc'. apply elem_of_cons in Hc' as [-> | Hc']; [lra | by apply Hall].
        + lra.
        + destruct Hatt as [Heq | (c' & Hc' & Heq)].
          * rewrite Heq. unfold Rmin. destruct (Rle_dec m (f c)); [by left |].
            right. exists c. split; [constructor | done].
          * right. exists c'. split; [by constructor | done]. }
    destruct (Hgen (Rmin (f b) (f c0))) as (Hall & Hle & Hatt).
    pose proof (Rmin_l (f b) (f c0)). pose proof (Rmin_r (f b) (f c0)).
    split.
    + intros c Hc. apply elem_of_cons in Hc as [-> | Hc]; [lra |].
      apply elem_of_cons in Hc as [-> | Hc]; [lra | by apply Hall].
    + destruct Hatt as [Heq | (c' & Hc' & Heq)].
      * rewrite Heq. unfold Rmin. destruct (Rle_dec (f b) (f c0)).
        -- exists b. split; [constructor | done].
        -- exists c0. split; [constructor; constructor | done].
      * exists c'. split; [by do 2 constructor | done].
Qed.

Lemma max_of_min_of (f : rect → R) (b : rect) (bs : list rect) :
  max_of f b bs = - min_of (fun c => - f c) b bs.
Proof.
  unfold max_of, min_of.
  assert (∀ m, foldl (fun m c => Rmax m (f c)) m bs
               = - foldl (fun m c => Rmin m (- f c)) (- m) bs) as Hgen.
  { induction bs as [| c bs IH]; intros m; simpl; [lra |].
    rewrite IH. do 2 f_equal.
    unfold Rmax, Rmin. repeat destruct (Rle_dec _ _); lra. }
  rewrite Hgen. reflexivity.
Qed.

Lemma max_of_spec (f : rect → R) (b : rect) (bs : list rect) :
  (∀ c, c ∈ b :: bs → f c <= max_of f b bs)
  ∧ ∃ c, c ∈ b :: bs ∧ max_of f b bs = f c.
Proof.
  rewrite max_of_min_of.
  destruct (min_of_spec (fun c => - f c) b bs) as [Hall (c & Hc & Heq)].
  split.
  - intros c' Hc'. specialize (Hall c' Hc'). simpl in Hall. lra.
  - exists c. split; [done |]. rewrite Heq. lra.
Qed.

(** X20. The group box encloses the box of every selected item that has
    one, and each of its four sides is a side of one of those boxes; there
    is no group box exactly when no selected item has a box. *)
Theorem group_canvas_bbox_encloses (st : App) (res : option rect) :
  _group_canvas_bbox st = Some res →
  let boxed r bi := r ∈ selected_items st
                    ∧ ∃ it, objs st !! r = Some it
                            ∧ _item_canvas_bbox st it = Some (Some bi) in
  match res with
  | Some bb =>
    (∀ r bi, boxed r bi → rect_within bi bb)
    ∧ (∃ r bi, boxed r bi ∧ bi.1.1.1 = bb.1.1.1)
    ∧ (∃ r bi, boxed r bi ∧ bi.1.1.2 = bb.1.1.2)
    ∧ (∃ r bi, boxed r bi ∧ bi.1.2 = bb.1.2)
    ∧ (∃ r bi, boxed r bi ∧ bi.2 = bb.2)
  | None => ∀ r bi, ¬ boxed r bi
  end.
Proof.
  intros H. cbv zeta. unfold _group_canvas_bbox in H.
  destruct (mapM _ (selected_items st)) as [bbs |] eqn:Hmap; simpl in H; [| done].
  apply mapM_Some_1 in Hmap.
  assert (∀ r bi, (r ∈ selected_items st
                   ∧ ∃ it, objs st !! r = Some it
                           ∧ _item_canvas_bbox st it = Some (Some bi))
                  → bi ∈ omap (fun o : option rect => o) bbs) as Hin.
  { intros r bi (Hr & it & Hit & Hbb).
    apply list_elem_of_lookup in Hr as [i Hi].
    destruct (Forall2_lookup_l _ _ _ _ _ Hmap Hi) as (b & Hb & Hf).
    rewrite Hit in Hf. simpl in Hf. rewrite Hbb in Hf. injection Hf as <-.
    apply list_elem_of_omap. exists (Some bi). split; [| done].
    by eapply list_elem_of_lookup_2. }
  assert (∀ bi, bi ∈ omap (fun o : option rect => o) bbs →
                ∃ r, r ∈ selected_items st
                     ∧ ∃ it, objs st !! r = Some it
                             ∧ _item_canvas_bbox st it = Some (Some bi)) as Hout.
  { intros bi Hbi. apply list_elem_of_omap in Hbi as (o & Ho & ->).
    apply list_elem_of_lookup in Ho as [i Hi].
    destruct (Forall2_lookup_r _ _ _ _ _ Hmap Hi) as (r & Hr & Hf).
    exists r. split; [by eapply list_elem_of_lookup_2 |].
    destruct (objs st !! r) as [it |]; simpl in Hf; [| done].
    by exists it. }
  destruct (omap (fun o : option rect => o) bbs) as [| b bs] eqn:Hbs.
  { injection H as <-. intros r bi Hb. apply Hin in Hb. by apply elem_of_nil in Hb. }
  injection H as <-.
  destruct (min_of_spec (fun c => c.1.1.1) b bs) as [Hx0 (cx0 & Hcx0 & Ex0)].
  destruct (min_of_spec (fun c => c.1.1.2) b bs) as [Hy0 (cy0 & Hcy0 & Ey0)].
  destruct (max_of_spec (fun c => c.1.2) b bs) as [Hx1 (cx1 & Hcx1 & Ex1)].
  destruct (max_of_spec (fun c => c.2) b bs) as [Hy1 (cy1 & Hcy1 & Ey1)].
  split_and!.
  - intros r bi Hb. apply Hin in Hb. unfold rect_within. cbn [fst snd].
    split_and!; [by apply Hx0 | by apply Hy0 | by apply Hx1 | by apply Hy1].
  - destruct (Hout _ Hcx0) as (r & Hr). by exists r, cx0.
  - destruct (Hout _ Hcy0) as (r & Hr). by exists r, cy0.
  - destruct (Hout _ Hcx1) as (r & Hr). by exists r, cx1.
  - destruct (Hout _ Hcy1) as (r & Hr). by exists r, cy1.
Qed.

Lemma vertical_wall_group_bbox :
  ∃ bb, _group_canvas_bbox vertical_wall_app = Some (Some bb).
Proof.
  unfold _group_canvas_bbox. change (selected_items vertical_wall_app) with [0%nat].
  cbn [mapM]. rewrite vertical_wall_lookup. cbn [mbind option_bind].
  unfold _item_canvas_bbox.
  change (kind (new_item "wall" (ab_data (0, 0) (0, 5)))) with "wall".
  literal_decide.
  destruct (get_point_ab_data (0, 0) (0, 5)) as [Ha Hb].
  simpl data. rewrite Ha, Hb. eexists. reflexivity.
Qed.

Lemma group_canvas_bbox_encloses_witness :
  ∃ bb, _group_canvas_bbox vertical_wall_app = Some (Some bb)
        ∧ ∀ r bi, r ∈ selected_items vertical_wall_app
                  ∧ (∃ it, objs vertical_wall_app !! r = Some it
                           ∧ _item_canvas_bbox vertical_wall_app it = Some (Some bi))
                  → rect_within bi bb.
Proof.
  destruct vertical_wall_group_bbox as [bb H]. exists bb.
  split; [exact H |].
  apply (group_canvas_bbox_encloses vertical_wall_app (Some bb) H).
Defined.

(** ** Removing items keeps the order of the others *)

Section remove_filter.
Context {A : Type} `{EqDecision A}.

Lemma filter_ne_notin (x : A) (l : list A) : x ∉ l → filter (λ y, y ≠ x) l = l.
Proof.
  induction l as [| y l IH]; intros Hx; [done |].
  apply not_elem_of_cons in Hx as [Hne Hx].
  rewrite filter_cons_True by done. by rewrite IH.
Qed.

Lemma remove_filter (x : A) (l : list A) :
  NoDup l → x ∈ l → Py.remove x l = Some (filter (λ y, y ≠ x) l).
Proof.
  induction l as [| y l IH]; intros Hnd Hx.
  - by apply elem_of_nil in Hx.
  - apply NoDup_cons in Hnd as [Hy Hnd]. simpl.
    destruct (decide (y = x)) as [-> | Hne].
    + rewrite filter_cons_False by (intros Hc; by apply Hc).
      by rewrite filter_ne_notin.
    + apply elem_of_cons in Hx as [-> | Hx]; [done |].
      rewrite IH by done. simpl. by rewrite filter_cons_True.
Qed.

Lemma remove_quiet_filter (x : A) (l : list A) :
  NoDup l → Py.remove_quiet x l = filter (λ y, y ≠ x) l.
Proof.
  intros Hnd. unfold Py.remove_quiet.
  destruct (decide (x ∈ l)) as [Hx | Hx].
  - by rewrite remove_filter.
  - rewrite filter_ne_notin by done.
    assert (Py.remove x l = None) as ->; [| done].
    clear Hnd. induction l as [| y l IH]; [done |].
    apply not_elem_of_cons in Hx as [Hne Hx]. simpl.
    rewrite decide_False by done. by rewrite IH.
Qed.

Lemma foldl_remove_quiet_filter (xs l : list A) :
  NoDup l →
  foldl (fun l x => Py.remove_quiet x l) l xs = filter (λ y, y ∉ xs) l.
Proof.
  revert l. induction xs as [| x xs IH]; intros l Hnd; simpl.
  - symmetry. clear Hnd. induction l as [| y l IHl]; [done |].
    rewrite filter_cons_True by apply not_elem_of_nil. by rewrite IHl.
  - rewrite remove_quiet_filter by done.
    rewrite IH by (by apply NoDup_filter).
    rewrite list_filter_filter. apply list_filter_iff.
    intros y. rewrite not_elem_of_cons. tauto.
Qed.
End remove_filter.

(** X21. In a scene that lists no item twice, the Delete key leaves exactly
    the items that were not in the multi-selection, in their order (or, the
    multi-selection being empty, all but the single selection); deleting or
    erasing one item leaves all the others in their order; and no removal
    touches an object. *)
Theorem removal_keeps_order (st : App) :
  NoDup (items st) →
  (selected_items st ≠ [] →
   items (delete_selection st) = filter (λ r, r ∉ selected_items st) (items st))
  ∧ (selected_items st = [] →
     items (delete_selection st)
     = filter (λ r, selection st ≠ Some r) (items st))
  ∧ objs (delete_selection st) = objs st
  ∧ (∀ r st', _delete_item st r = Some st' →
              items st' = filter (λ r', r' ≠ r) (items st) ∧ objs st' = objs st)
  ∧ (∀ e txt st', active_tool st = "eraser" → pan_active (pan st) = false →
                  _on_left_down st e txt = Some st' →
                  ∀ r, _hit_test st (ev_x e) (ev_y e) = Some (Some r) →
                       items st' = filter (λ r', r' ≠ r) (items st)
                       ∧ objs st' = objs st).
Proof.
  intros Hnd. split_and!.
  - intros Hm. unfold delete_selection.
    destruct (selected_items st) as [| r l] eqn:Hsel; [done |].
    simpl items. rewrite <- foldl_remove_quiet_filter by done. reflexivity.
  - intros Hm. unfold delete_selection. rewrite Hm.
    destruct (selection st) as [r |] eqn:Hs.
    + simpl items. rewrite remove_quiet_filter by done.
      apply list_filter_iff. intros r'. split; [congruence |].
      intros Hne ->. done.
    + symmetry. clear. induction (items st) as [| y l IHl]; [done |].
      rewrite filter_cons_True by done. by rewrite IHl.
  - unfold delete_selection.
    destruct (selected_items st); [destruct (selection st) |]; done.
  - intros r st' H. unfold _delete_item in H.
    case_decide as Hin.
    + cbv zeta in H. case_decide; simpl in H;
        rewrite (remove_filter r (items st)) in H by done; simpl in H;
        by injection H as <-.
    + injection H as <-. split; [| done].
      by rewrite filter_ne_notin.
  - intros e txt st' Ht Hp H r Hhit.
    assert (grid_px st ≠ 0) as Hg.
    { intros Hg. unfold _on_left_down, pointer_world, canvas_to_world, Py.div in H.
      rewrite !decide_True in H by done. done. }
    destruct (eraser_down st e txt r Ht Hp Hg Hhit)
      as (l & st'' & Hl & Hdown & Ho & Hi & _).
    assert (st'' = st') as -> by congruence.
    assert (r ∈ items st) as Hin.
    { unfold _hit_test in Hhit. by destruct (hit_test_from_in _ _ _ _ _ _ _ Hhit). }
    rewrite remove_filter in Hl by done. split; [congruence | done].
Qed.

Lemma removal_keeps_order_witness :
  NoDup (items eraser_app)
  ∧ items (delete_selection eraser_app)
    = filter (λ r, r ∉ selected_items eraser_app) (items eraser_app).
Proof.
  assert (NoDup (items eraser_app)) as H by exact group_app_NoDup.
  split; [exact H |].
  apply (removal_keeps_order eraser_app H). discriminate.
Defined.

(** ** Transform sessions *)


Lemma update_obj_update_obj (r : ref) (f g : Item → Item) (st : App) :
  (∀ it, g (f it) = g it) →
  update_obj r g (update_obj r f st) = update_obj r g st.
Proof.
  intros Hgf. unfold update_obj.
  assert (alter g r (alter f r (objs st)) = alter g r (objs st)) as Heq.
  { rewrite alter_alter_eq. apply alter_ext. intros it _. apply Hgf. }
  unfold set_objs. simpl. by rewrite Heq.
Qed.

(** *** Rotating a Text item *)





(** *** Rotating a segment *)

Lemma begin_segment_rotate_inv (st st0 : App) (r : ref) (px0 py0 : R) :
  _begin_segment_rotate st r px0 py0 = Some st0 →
  ∃ it a b,
    objs st !! r = Some it
    ∧ get_point (data it) "a" = Some a
    ∧ get_point (data it) "b" = Some b
    ∧ let c := ((a.1 + b.1) / 2, (a.2 + b.2) / 2) in
      let wc := world_to_canvas st c.1 c.2 in
      st0 = set_transform (seg_rotate r c (Py.hypot (b.1 - a.1) (b.2 - a.2))
                                      (screen_angle wc.1 wc.2 px0 py0)) st.
Proof.
  intros H.
  destruct (objs st !! r) as [it |] eqn:Hr;
    [| unfold _begin_segment_rotate in H; rewrite Hr in H; done].
  destruct (get_point (data it) "a") as [a |] eqn:Ha;
    [| unfold _begin_segment_rotate in H; rewrite Hr in H;
       cbn [mbind option_bind] in H; rewrite Ha in H; done].
  destruct (get_point (data it) "b") as [b |] eqn:Hb;
    [| unfold _begin_segment_rotate in H; rewrite Hr in H;
       cbn [mbind option_bind] in H; rewrite Ha in H;
       cbn [mbind option_bind] in H; rewrite Hb in H; done].
  rewrite (begin_segment_rotate_eq st r it a b px0 py0 Hr Ha Hb) in H.
  cbv zeta in H. injection H as <-. exists it, a, b. split_and!; done.
Qed.

Lemma insert_ab_twice (d : gmap string value) (va vb va' vb' : value) :
  <["b" := vb']> (<["a" := va']> (<["b" := vb]> (<["a" := va]> d)))
  = <["b" := vb']> (<["a" := va']> d).
Proof.
  apply map_eq. intros k.
  destruct (decide (k = "b")) as [-> | Hb]; [by rewrite !lookup_insert_eq |].
  destruct (decide (k = "a")) as [-> | Ha].
  - rewrite !(lookup_insert_ne _ "b" "a") by done. by rewrite !lookup_insert_eq.
  - by rewrite !lookup_insert_ne by done.
Qed.

(** A rotate update of a segment overwrites what the update before it
    stored. *)
Lemma update_segment_rotate_absolute (st st1 : App) (r : ref) (c : point)
      (len sc px py : R) :
  ds_transform (draw_state st) = Some (seg_rotate r c len sc) →
  _update_segment_rotate st px py = Some st1 →
  ∀ px' py', _update_segment_rotate st1 px' py' = _update_segment_rotate st px' py'.
Proof.
  intros Ht H px' py'. unfold _update_segment_rotate in *. rewrite Ht in *.
  destruct (rotated_endpoints st c len sc px py) as [a b] eqn:Hab.
  destruct (objs st !! r) as [it |] eqn:Hr; cbn [mbind option_bind] in *; [| done].
  injection H as <-.
  match goal with
  | |- context [draw_state (update_obj ?r ?f ?s)] =>
    change (draw_state (update_obj r f s)) with (draw_state s)
  end.
  rewrite Ht.
  match goal with
  | |- context [rotated_endpoints (update_obj ?r ?f ?s) ?c ?l ?k ?x ?y] =>
    change (rotated_endpoints (update_obj r f s) c l k x y)
      with (rotated_endpoints s c l k x y)
  end.
  destruct (rotated_endpoints st c len sc px' py') as [a' b'].
  rewrite objs_update_obj_eq, Hr.
  cbn [fmap option_fmap option_map mbind option_bind].
  match goal with
  | |- context [snap_enabled (update_obj ?r ?f ?s)] =>
    change (snap_enabled (update_obj r f s)) with (snap_enabled s)
  end.
  f_equal. apply update_obj_update_obj.
  intros i. unfold set_data. simpl. by rewrite insert_ab_twice.
Qed.

(** X23. During a rotate session of a Wall, Door or Window with snapping
    off, every pointer move keeps the midpoint the segment had at the press
    and gives it the length it had at the press (1e-6 if it was shorter);
    the result of a move does not depend on the moves before it. *)
Theorem segment_rotate_keeps_midpoint_and_length (st st0 : App) (r : ref)
        (px0 py0 : R) :
  _begin_segment_rotate st r px0 py0 = Some st0 →
  snap_enabled st = false →
  ∃ it a b,
    objs st !! r = Some it
    ∧ get_point (data it) "a" = Some a
    ∧ get_point (data it) "b" = Some b
    ∧ ∀ px py, ∃ st1 it1 a1 b1,
        _update_segment_rotate st0 px py = Some st1
        ∧ objs st1 !! r = Some it1
        ∧ get_point (data it1) "a" = Some a1
        ∧ get_point (data it1) "b" = Some b1
        ∧ (a1.1 + b1.1) / 2 = (a.1 + b.1) / 2
        ∧ (a1.2 + b1.2) / 2 = (a.2 + b.2) / 2
        ∧ Py.hypot (b1.1 - a1.1) (b1.2 - a1.2)
          = Rmax (1 / 1000000) (Py.hypot (b.1 - a.1) (b.2 - a.2))
        ∧ ∀ px' py', _update_segment_rotate st1 px' py'
                     = _update_segment_rotate st0 px' py'.
Proof.
  intros H Hsnap.
  destruct (begin_segment_rotate_inv _ _ _ _ _ H) as (it & a & b & Hr & Ha & Hb & Hst0).
  exists it, a, b. split_and!; try done.
  cbv zeta in Hst0.
  set (c := ((a.1 + b.1) / 2, (a.2 + b.2) / 2)) in *.
  set (len := Py.hypot (b.1 - a.1) (b.2 - a.2)) in *.
  set (sc := screen_angle _ _ px0 py0) in *.
  intros px py.
  assert (ds_transform (draw_state st0) = Some (seg_rotate r c len sc)) as Ht
    by (by rewrite Hst0).
  assert (objs st0 !! r = Some it) as Hr0 by (by rewrite Hst0).
  assert (snap_enabled st0 = false) as Hs0 by (by rewrite Hst0).
  destruct (update_segment_rotate_eq st0 r it c len sc px py Ht Hr0 Hs0)
    as (st1 & it1 & Hup & Hr1 & Ha1 & Hb1).
  eexists st1, it1, _, _. split_and!; try done.
  - rewrite rotated_endpoints_eq. simpl. field.
  - rewrite rotated_endpoints_eq. simpl. field.
  - rewrite rotated_endpoints_eq. cbn [fst snd].
    set (L := Rmax (1 / 1000000) len). set (t := Py.radians _).
    assert (0 <= L) as HL.
    { subst L. unfold Rmax. destruct (Rle_dec _ _); lra. }
    replace (c.1 + L / 2 * cos t - (c.1 - L / 2 * cos t)) with (L * cos t) by field.
    replace (c.2 + L / 2 * sin t - (c.2 - L / 2 * sin t)) with (L * sin t) by field.
    rewrite hypot_scale by done. rewrite hypot_cos_sin. ring.
  - by eapply update_segment_rotate_absolute.
Qed.

Lemma segment_rotate_keeps_midpoint_and_length_witness :
  ∃ st0, _begin_segment_rotate vertical_wall_app 0 52 160 = Some st0
         ∧ snap_enabled vertical_wall_app = false
         ∧ ∃ it, objs vertical_wall_app !! 0%nat = Some it.
Proof.
  destruct (get_point_ab_data (0, 0) (0, 5)) as [Ha Hb].
  pose proof (begin_segment_rotate_eq vertical_wall_app 0 _ _ _ 52 160
                vertical_wall_lookup Ha Hb) as H.
  cbv zeta in H. eexists. split; [exact H |]. split; [reflexivity |].
  destruct (segment_rotate_keeps_midpoint_and_length vertical_wall_app _ 0 52 160
              H eq_refl) as (it & _ & _ & Hr & _).
  by exists it.
Defined.

(** *** Resizing a Room *)

(** X24. A resize update of a Room stores corners in order (a.x <= b.x and
    a.y <= b.y). The side a handle grabs goes to the pointer's world
    coordinate, but not past the opposite side less 0.01 (as the code
    computes it: [min(wx, x1 - 0.01)] for a west handle, [max(wx, x0 +
    0.01)] for an east one, and so for north and south); the sides the
    handle does not grab stay where they were. *)
Theorem room_resize_keeps_order (st : App) (r : ref) (tag : string) (it : Item)
        (a b w : point) (px py : R) :
  ds_transform (draw_state st) = Some (room_resize r tag) →
  objs st !! r = Some it →
  get_point (data it) "a" = Some a →
  get_point (data it) "b" = Some b →
  pointer_world st px py = Some w →
  ∃ st' it' a' b',
    _update_room_resize st px py = Some st'
    ∧ objs st' !! r = Some it'
    ∧ get_point (data it') "a" = Some a'
    ∧ get_point (data it') "b" = Some b'
    ∧ a'.1 <= b'.1 ∧ a'.2 <= b'.2
    ∧ (if decide (tag ∈ ["w"; "nw"; "sw"])
       then a'.1 = Rmin w.1 (Rmax a.1 b.1 - 1 / 100) ∧ b'.1 = Rmax a.1 b.1
       else a'.1 = Rmin a.1 b.1)
    ∧ (if decide (tag ∈ ["e"; "ne"; "se"])
       then b'.1 = Rmax w.1 (Rmin a.1 b.1 + 1 / 100) ∧ a'.1 = Rmin a.1 b.1
       else b'.1 = Rmax a.1 b.1)
    ∧ (if decide (tag ∈ ["n"; "nw"; "ne"])
       then a'.2 = Rmin w.2 (Rmax a.2 b.2 - 1 / 100) ∧ b'.2 = Rmax a.2 b.2
       else a'.2 = Rmin a.2 b.2)
    ∧ (if decide (tag ∈ ["s"; "sw"; "se"])
       then b'.2 = Rmax w.2 (Rmin a.2 b.2 + 1 / 100) ∧ a'.2 = Rmin a.2 b.2
       else b'.2 = Rmax a.2 b.2).
Proof.
  intros Ht Hr Ha Hb Hw. unfold _update_room_resize.
  rewrite Ht, Hr. cbn [mbind option_bind]. rewrite Ha. cbn [mbind option_bind].
  rewrite Hb. cbn [mbind option_bind]. rewrite Hw. cbn [mbind option_bind].
  cbv zeta.
  eexists _, _, _, _. split; [reflexivity |].
  rewrite objs_update_obj_eq, Hr. cbn [fmap option_fmap option_map].
  split; [reflexivity |]. cbn [data set_data].
  split; [rewrite get_point_insert_ne by done; apply get_point_insert_eq |].
  split; [apply get_point_insert_eq |].
  cbn [fst snd].
  pose proof (Rmin_Rmax_le a.1 b.1) as Hx. pose proof (Rmin_Rmax_le a.2 b.2) as Hy.
  set (x0 := Rmin a.1 b.1) in *. set (x1 := Rmax a.1 b.1) in *.
  set (y0 := Rmin a.2 b.2) in *. set (y1 := Rmax a.2 b.2) in *.
  clearbody x0 x1 y0 y1.
  assert (∀ u v, Rmin u v <= v ∧ Rmin u v <= u ∧ u <= Rmax u v ∧ v <= Rmax u v)
    as Hmm.
  { intros u v. unfold Rmin, Rmax. repeat destruct (Rle_dec _ _); lra. }
  assert (∀ t, t ∈ ["w"; "nw"; "sw"] → t ∈ ["e"; "ne"; "se"] → False) as Hwe.
  { intros t H1 H2.
    repeat (apply elem_of_cons in H1 as [-> | H1]); try (by apply elem_of_nil in H1);
      not_in_literals H2. }
  assert (∀ t, t ∈ ["n"; "nw"; "ne"] → t ∈ ["s"; "sw"; "se"] → False) as Hns.
  { intros t H1 H2.
    repeat (apply elem_of_cons in H1 as [-> | H1]); try (by apply elem_of_nil in H1);
      not_in_literals H2. }
  pose proof (Hmm w.1 (x1 - 1 / 100)). pose proof (Hmm w.2 (y1 - 1 / 100)).
  destruct (decide (tag ∈ ["w"; "nw"; "sw"])) as [Hw1 | Hw1];
    destruct (decide (tag ∈ ["e"; "ne"; "se"])) as [He1 | He1];
    try (by destruct (Hwe tag));
    destruct (decide (tag ∈ ["n"; "nw"; "ne"])) as [Hn1 | Hn1];
    destruct (decide (tag ∈ ["s"; "sw"; "se"])) as [Hs1 | Hs1];
    try (by destruct (Hns tag));
    repeat match goal with
           | |- context [Rmax ?u ?v] =>
             pose proof (Hmm u v); generalize dependent (Rmax u v); intros
           end;
    (split_and!; first [done | lra]).
Qed.

Lemma room_resize_keeps_order_witness :
  let st := set_transform (room_resize 1 "e") group_app in
  ∃ st', _update_room_resize st 240 100 = Some st'.
Proof.
  cbv zeta.
  set (st := set_transform (room_resize 1 "e") group_app).
  assert (grid_px st ≠ 0) as Hg.
  { unfold grid_px, GRID_SIZE_PX. simpl. lra. }
  pose proof (pointer_world_eq st 240 100 Hg) as Hw. cbv zeta in Hw.
  change (snap_enabled st) with false in Hw. cbv iota in Hw.
  destruct (get_point_ab_data (1, 1) (3, 4)) as [Ha Hb].
  assert (objs st !! 1%nat = Some (new_item "room" (ab_data (1, 1) (3, 4)))) as Hr
    by reflexivity.
  destruct (room_resize_keeps_order st 1 "e" _ _ _ _ 240 100 eq_refl Hr Ha Hb Hw)
    as (st' & _ & _ & _ & H & _).
  by exists st'.
Defined.

(** *** Dragging an endpoint of a segment *)



(** ** Saving, loading, exporting *)

Lemma foldl_update_obj_same (f : ref → Item → Item) (l : list ref) (st : App) :
  same_but_objs st (foldl (fun s r => update_obj r (f r) s) st l).
Proof.
  revert st. induction l as [| r l IH]; intros st; simpl.
  - apply same_but_objs_refl.
  - eapply same_but_objs_trans; [apply (same_but_objs_update_obj r (f r)) | apply IH].
Qed.

Lemma clear_selection_same (st : App) :
  _clear_selection st
  = set_selected_items [] (set_selection None
      (set_objs (objs (_clear_selection st)) st)).
Proof.
  unfold _clear_selection.
  pose proof (foldl_update_obj_same (fun _ => set_selected false) (items st) st) as H.
  unfold same_but_objs in H.
  set (s := foldl _ st (items st)) in *. rewrite H at 1. reflexivity.
Qed.

Lemma setdefault_present (k : string) (v : value) (d : gmap string value) :
  is_Some (d !! k) → setdefault k v d = d.
Proof. intros [x Hx]. unfold setdefault. by rewrite Hx. Qed.

Lemma text_defaults_complete (it : Item) :
  text_complete it → text_defaults it = it.
Proof.
  intros Hc. unfold text_defaults. case_decide as Hk; [| done].
  destruct (Hc Hk) as (Ha & Hs & Hcol).
  rewrite (setdefault_present "angle") by done.
  rewrite (setdefault_present "size") by done.
  rewrite (setdefault_present "color") by done.
  by destruct it.
Qed.

Lemma load_json_meta (st : App) (doc : Doc) :
  grid_m (load_json st doc) = default GRID_METERS (doc_meters_per_grid doc)
  ∧ rulers (load_json st doc) = default [] (doc_rulers doc)
  ∧ selection (load_json st doc) = None
  ∧ selected_items (load_json st doc) = [].
Proof.
  unfold load_json.
  destruct (load_items st (default [] (doc_items doc))) as [rs st1].
  rewrite clear_selection_same.
  match goal with
  | |- context [foldl ?g ?s ?l] =>
    pose proof (foldl_update_obj_same (fun _ => text_defaults) l s) as H;
    unfold same_but_objs in H; cbv beta in H; set (s5 := foldl g s l) in *
  end.
  cbn [grid_m rulers selection selected_items set_selected_items set_selection
       set_objs].
  rewrite H. done.
Qed.

Lemma save_doc_items (st : App) (doc : Doc) :
  save_doc st = Some doc →
  ∃ its, doc = mkDoc (Some its) (Some (grid_m st)) (Some (rulers st))
         ∧ Forall2 (fun r kd => ∃ it, objs st !! r = Some it ∧ kd = (kind it, data it))
                   (items st) its.
Proof.
  intros H. unfold save_doc in H.
  destruct (mapM _ (items st)) as [its |] eqn:Hmap; simpl in H; [| done].
  injection H as <-. exists its. split; [done |].
  apply mapM_Some_1 in Hmap.
  eapply Forall2_impl; [exact Hmap |].
  intros r kd Hkd. simpl in Hkd.
  destruct (objs st !! r) as [it |]; simpl in Hkd; [| done].
  injection Hkd as <-. by exists it.
Qed.

(** X26. Loading the document that saving a scene writes gives a scene with
    one new item per saved item, in the same order, with the same kind and
    the same data (a Text item that lacked [angle], [size] or [color] gets
    the default), not selected and with empty caches; the grid scale and
    the rulers are those saved and nothing is selected. When every Text item
    is complete, saving the loaded scene writes the same document again. *)
Theorem save_load_round_trip (st st0 : App) (doc : Doc) :
  save_doc st = Some doc →
  let st' := load_json st0 doc in
  Forall2 (fun r' r => ∃ it, objs st !! r = Some it
                             ∧ objs st' !! r'
                               = Some (text_defaults (new_item (kind it) (data it))))
          (items st') (items st)
  ∧ (∀ r', r' ∈ items st' → objs st0 !! r' = None)
  ∧ grid_m st' = grid_m st ∧ rulers st' = rulers st
  ∧ selection st' = None ∧ selected_items st' = []
  ∧ ((∀ r it, r ∈ items st → objs st !! r = Some it → text_complete it) →
     Forall2 (fun r' r => ∃ it, objs st !! r = Some it
                                ∧ objs st' !! r' = Some (new_item (kind it) (data it)))
             (items st') (items st)
     ∧ save_doc st' = Some doc).
Proof.
  intros H. cbv zeta.
  destruct (save_doc_items st doc H) as (its & -> & Hits).
  pose proof (load_json_items st0 (mkDoc (Some its) (Some (grid_m st))
                                         (Some (rulers st)))) as Hload.
  destruct (load_json_meta st0 (mkDoc (Some its) (Some (grid_m st))
                                      (Some (rulers st)))) as (Hg & Hru & Hs & Hm).
  set (st' := load_json st0 _) in *. simpl in Hload, Hg, Hru.
  assert (Forall2 (fun r' r => ∃ it, objs st !! r = Some it
                     ∧ objs st' !! r'
                       = Some (text_defaults (new_item (kind it) (data it))))
                  (items st') (items st)) as Hall.
  { apply Forall2_same_length_lookup. split.
    - rewrite (Forall2_length _ _ _ Hload). symmetry. by eapply Forall2_length.
    - intros i r' r Hr' Hr.
      destruct (Forall2_lookup_l _ _ _ _ _ Hits Hr) as (kd & Hkd & it & Hit & ->).
      exists it. split; [done |].
      by rewrite (Forall2_lookup_lr _ _ _ _ _ _ Hload Hr' Hkd). }
  split_and!; try done.
  - intros r' Hr'. subst st'. unfold load_json in Hr'. simpl in Hr'.
    destruct (load_items_spec its st0) as (_ & Hfresh & _).
    destruct (load_items st0 its) as [rs st1] eqn:Hld. simpl in Hfresh.
    apply Hfresh.
    match type of Hr' with
    | _ ∈ items (_clear_selection ?s) =>
      destruct (clear_selection_frame s) as (Hi & _); rewrite Hi in Hr'
    end.
    match type of Hr' with
    | _ ∈ items (foldl ?g ?s ?l) =>
      destruct (foldl_update_obj_frame text_defaults l s) as (Hi' & _);
        rewrite Hi' in Hr'
    end.
    exact Hr'.
  - intros Hcomplete.
    assert (Forall2 (fun r' r => ∃ it, objs st !! r = Some it
                       ∧ objs st' !! r' = Some (new_item (kind it) (data it)))
                    (items st') (items st)) as Hsame.
    { apply Forall2_same_length_lookup. split; [by eapply Forall2_length |].
      intros i r' r Hr' Hr.
      destruct (Forall2_lookup_lr _ _ _ _ _ _ Hall Hr' Hr) as (it & Hit & Hit').
      exists it. split; [done |]. rewrite Hit'. f_equal.
      apply text_defaults_complete.
      assert (r ∈ items st) as Hin by (by eapply list_elem_of_lookup_2).
      exact (Hcomplete r it Hin Hit). }
    split; [done |].
    unfold save_doc. rewrite Hg, Hru.
    assert (mapM (fun r => it ← objs st' !! r; Some (kind it, data it)) (items st')
            = Some its) as ->; [| done].
    apply mapM_Some_2.
    apply Forall2_same_length_lookup. split; [by eapply Forall2_length |].
    intros i r' kd Hr' Hkd.
    destruct (Forall2_lookup_r _ _ _ _ _ Hits Hkd) as (r & Hr & it & Hit & ->).
    destruct (Forall2_lookup_lr _ _ _ _ _ _ Hsame Hr' Hr) as (it2 & Hit2 & Hit').
    assert (it2 = it) as -> by congruence.
    by rewrite Hit'.
Qed.

Lemma save_load_round_trip_witness :
  ∃ doc, save_doc vertical_wall_app = Some doc
         ∧ grid_m (load_json initial_app doc) = grid_m vertical_wall_app.
Proof.
  assert (∃ doc, save_doc vertical_wall_app = Some doc) as [doc H].
  { unfold save_doc. change (items vertical_wall_app) with [0%nat].
    cbn [mapM]. rewrite vertical_wall_lookup. eexists. reflexivity. }
  exists doc. split; [exact H |].
  apply (save_load_round_trip vertical_wall_app initial_app doc H).
Defined.

(** *** Exporting *)

Lemma set_selected_id (b : bool) (it : Item) :
  selected it = b → set_selected b it = it.
Proof. intros <-. by destruct it. Qed.

(** The objects after an export, from those the pending handlers left. *)
Lemma export_png_lookup_during (during : App → App) (st : App) (r : ref) :
  objs (export_png during st) !! r
  = let s := during (hide_overlays st) in
    if decide (r ∈ selected_items st) then set_selected true <$> objs s !! r
    else if decide (r ∈ items s) then set_selected false <$> objs s !! r
    else objs s !! r.
Proof.
  unfold export_png. cbv zeta.
  set (st3 := during (hide_overlays st)).
  set (st4 := foldl (fun s r => update_obj r (set_selected false) s) st3 (items st3)).
  set (st5 := set_selected_items (selected_items st) st4).
  set (st6 := foldl (fun s r => update_obj r (set_selected true) s) st5
                    (selected_items st5)).
  assert (objs (match ds_marquee (draw_state st) with
                | Some m =>
                  set_draw_state
                    (set_ds_marquee (Some m)
                       (draw_state (set_temp_preview (temp_preview st)
                                      (set_selection (selection st) st6))))
                    (set_temp_preview (temp_preview st)
                       (set_selection (selection st) st6))
                | None => set_temp_preview (temp_preview st)
                            (set_selection (selection st) st6)
                end) = objs st6) as -> by (by destruct (ds_marquee (draw_state st))).
  unfold st6. rewrite foldl_set_selected.
  change (selected_items st5) with (selected_items st).
  change (objs st5) with (objs st4).
  unfold st4. rewrite foldl_set_selected.
  destruct (objs st3 !! r) as [it |]; repeat case_decide; done.
Qed.

Lemma export_png_lookup (during : App → App) (st : App) (r : ref) :
  (∀ s, during s = s) →
  objs (export_png during st) !! r
  = if decide (r ∈ selected_items st) then set_selected true <$> objs st !! r
    else if decide (r ∈ items st) then set_selected false <$> objs st !! r
    else objs st !! r.
Proof.
  intros Hid. rewrite export_png_lookup_during. cbv zeta. rewrite Hid.
  change (objs (hide_overlays st)) with (objs (_clear_selection st)).
  change (items (hide_overlays st)) with (items (_clear_selection st)).
  destruct (clear_selection_frame st) as (-> & _).
  rewrite clear_selection_lookup.
  destruct (objs st !! r) as [it |]; repeat case_decide; done.
Qed.

Lemma export_png_same (during : App → App) (st : App) :
  (∀ s, during s = s) →
  export_png during st = set_objs (objs (export_png during st)) st.
Proof.
  intros Hid. unfold export_png, hide_overlays. cbv zeta. rewrite Hid.
  rewrite clear_selection_same.
  set (o1 := objs (_clear_selection st)).
  match goal with
  | |- context [foldl (fun u v => update_obj v (set_selected false) u) ?s0 ?l0] =>
    pose proof (foldl_update_obj_same (fun _ => set_selected false) l0 s0) as H4;
    unfold same_but_objs in H4; cbv beta in H4;
    set (s4 := foldl (fun u v => update_obj v (set_selected false) u) s0 l0) in *
  end.
  rewrite H4. clearbody s4.
  match goal with
  | |- context [foldl (fun u v => update_obj v (set_selected true) u) ?s0 ?l0] =>
    pose proof (foldl_update_obj_same (fun _ => set_selected true) l0 s0) as H6;
    unfold same_but_objs in H6; cbv beta in H6;
    set (s6 := foldl (fun u v => update_obj v (set_selected true) u) s0 l0) in *
  end.
  rewrite H6. clearbody s6.
  destruct st as [? ? ? ? ? ? ? ? [? ? [m |] ?] ? ? ? ? ?]; reflexivity.
Qed.

Lemma export_png_marquee (during : App → App) (st : App) (m : point * point) :
  ds_marquee (draw_state st) = Some m →
  ds_marquee (draw_state (export_png during st)) = Some m.
Proof. intros Hm. unfold export_png. cbv zeta. by rewrite Hm. Qed.

(** X27. [export_png] calls [self.update()] between hiding the overlays and
    putting them back; [during] is what the handlers of the events pending
    there do. Whatever they do, the export puts back the single selection,
    the multi-selection and the preview it saved, and the marquee if there
    was one; the scene list is the one the handlers left; and the
    [selected] flag is set on each saved item of the multi-selection and
    cleared on the other items of the scene the handlers left. When no
    event is pending, the export leaves the editor as it found it: every
    field but the objects is restored, no item's kind, data or caches
    change, only the [selected] flags are rewritten to say whether the item
    is in the multi-selection, and when they already said so the state
    after the export is the state before it. *)
Theorem export_png_restores (during : App → App) (st : App) :
  selection (export_png during st) = selection st
  ∧ selected_items (export_png during st) = selected_items st
  ∧ temp_preview (export_png during st) = temp_preview st
  ∧ (∀ m, ds_marquee (draw_state st) = Some m →
          ds_marquee (draw_state (export_png during st)) = Some m)
  ∧ items (export_png during st) = items (during (hide_overlays st))
  ∧ (∀ r, objs (export_png during st) !! r
          = let s := during (hide_overlays st) in
            if decide (r ∈ selected_items st)
            then set_selected true <$> objs s !! r
            else if decide (r ∈ items s) then set_selected false <$> objs s !! r
            else objs s !! r)
  ∧ ((∀ s, during s = s) →
     export_png during st = set_objs (objs (export_png during st)) st
     ∧ (∀ r, objs (export_png during st) !! r
             = if decide (r ∈ selected_items st)
               then set_selected true <$> objs st !! r
               else if decide (r ∈ items st) then set_selected false <$> objs st !! r
               else objs st !! r)
     ∧ (flags_agree st → export_png during st = st)).
Proof.
  destruct (export_png_views during st) as (Hs & Hm & Hp & _ & Hi).
  split; [exact Hs |]. split; [exact Hm |]. split; [exact Hp |].
  split; [intros m; apply export_png_marquee |].
  split; [exact Hi |]. split; [apply export_png_lookup_during |].
  intros Hid.
  split; [by apply export_png_same |]. split; [intros r; by apply export_png_lookup |].
  intros Hf. rewrite export_png_same by done.
  assert (objs (export_png during st) = objs st) as ->; [| by destruct st].
  apply map_eq. intros r. rewrite export_png_lookup by done.
  destruct (objs st !! r) as [it |] eqn:Hr; [| by repeat case_decide].
  case_decide as Hsel.
  - simpl. f_equal. apply set_selected_id. apply (Hf r it Hr); [by right | done].
  - case_decide as Hin; [| done].
    simpl. f_equal. apply set_selected_id.
    destruct (selected it) eqn:Hsl; [| done].
    exfalso. apply Hsel. apply (Hf r it Hr); [by left | done].
Qed.

Lemma export_png_restores_witness :
  let st := select_only 0 vertical_wall_app in
  flags_agree st ∧ export_png (fun s => s) st = st.
Proof.
  cbv zeta.
  assert (flags_agree (select_only 0 vertical_wall_app)) as H.
  { intros r it Hr _.
    change (selected_items (select_only 0 vertical_wall_app)) with [0%nat].
    change (objs (select_only 0 vertical_wall_app))
      with (objs (update_obj 0 (set_selected true)
                             (_clear_selection vertical_wall_app))) in Hr.
    destruct (decide (r = 0%nat)) as [-> | Hne].
    - rewrite objs_update_obj_eq, clear_selection_lookup in Hr.
      rewrite vertical_wall_lookup in Hr.
      split; [intros _; constructor |]. intros _.
      case_decide; simpl in Hr; by injection Hr as <-.
    - rewrite objs_update_obj_ne, clear_selection_lookup in Hr by done.
      assert (objs vertical_wall_app !! r = None) as Hnone.
      { unfold vertical_wall_app. simpl. by apply lookup_singleton_ne. }
      rewrite Hnone in Hr. by case_decide. }
  split; [exact H |].
  destruct (export_png_restores (fun s => s) (select_only 0 vertical_wall_app))
    as (_ & _ & _ & _ & _ & _ & Hquiet).
  destruct (Hquiet (fun s => eq_refl)) as (_ & _ & Hsame).
  exact (Hsame H).
Defined.

(** An eraser click pending when an export calls [self.update()] is
    dispatched with the selection hidden: it removes the item from the
    scene, and the export then puts back the multi-selection it saved,
    which names the removed item. In [eraser_app], whose three items are
    all selected, the click on the label leaves the scene [0; 1] and the
    multi-selection [0; 1; 2]. *)
Lemma export_with_pending_erase :
  scene_wf eraser_app
  ∧ ∃ st', run_op eraser_app (ExportPng [LeftDown (mkEvent 85 80 0) None])
           = Some st'
           ∧ items st' = [0%nat; 1%nat]
           ∧ selected_items st' = [0%nat; 1%nat; 2%nat]
           ∧ ¬ scene_wf st'.
Proof.
  split; [exact eraser_app_wf |].
  set (h := hide_overlays eraser_app).
  assert (∀ r, objs h !! r = set_selected false <$> objs eraser_app !! r) as Hobjs.
  { intros r. change (objs h) with (objs (_clear_selection eraser_app)).
    rewrite clear_selection_lookup.
    case_decide as Hin; [done |].
    destruct (objs eraser_app !! r) as [it |] eqn:Hr; [| done].
    exfalso. apply Hin. change (items eraser_app) with [0%nat; 1%nat; 2%nat].
    change (objs eraser_app) with (objs group_app) in Hr.
    unfold group_app in Hr. simpl in Hr.
    destruct (decide (r = 0%nat)) as [-> | H0]; [repeat constructor |].
    rewrite lookup_insert_ne in Hr by done.
    destruct (decide (r = 1%nat)) as [-> | H1]; [repeat constructor |].
    rewrite lookup_insert_ne in Hr by done.
    destruct (decide (r = 2%nat)) as [-> | H2]; [repeat constructor |].
    rewrite lookup_insert_ne in Hr by done. by rewrite lookup_empty in Hr. }
  assert (items h = [0%nat; 1%nat; 2%nat]) as Hitems.
  { change (items h) with (items (_clear_selection eraser_app)).
    by destruct (clear_selection_frame eraser_app) as (-> & _). }
  assert (_hit_test h 85 80 = Some (Some 2%nat)) as Hhit.
  { unfold _hit_test. rewrite Hitems.
    apply (hit_test_from_first_text h 85 80 2%nat (set_selected false label_item) []
                                    [0%nat; 1%nat]).
    - intros r' Hin.
      destruct (group_objs_before_label eraser_app r' eq_refl Hin)
        as (it' & Hr' & Hgeo & Hmiss).
      exists (set_selected false it'). rewrite Hobjs, Hr'.
      split; [done |]. split; [exact Hgeo |].
      intros [Hk Hbox]. apply Hmiss. by split.
    - rewrite Hobjs. reflexivity.
    - destruct label_text_hit as [Hk Hbox]. by split. }
  assert (grid_px h ≠ 0) as Hg.
  { change (grid_px h) with (GRID_SIZE_PX * zoom (_clear_selection eraser_app)).
    destruct (clear_selection_store eraser_app) as [_ ->].
    unfold GRID_SIZE_PX. simpl. lra. }
  assert (active_tool h = "eraser") as Htool.
  { change (active_tool h) with (active_tool (_clear_selection eraser_app)).
    rewrite clear_selection_same. reflexivity. }
  assert (pan_active (pan h) = false) as Hpan.
  { change (pan h) with (pan (_clear_selection eraser_app)).
    rewrite clear_selection_same. reflexivity. }
  destruct (eraser_down h (mkEvent 85 80 0) None 2%nat Htool Hpan Hg Hhit)
    as (l & s1 & Hl & Hdown & _ & Hi1 & _ & _).
  rewrite Hitems in Hl. simpl in Hl. injection Hl as <-.
  set (during := fun s => foldl (fun s' o' => default s' (run_op s' o')) s
                                [LeftDown (mkEvent 85 80 0) None]).
  assert (during h = s1) as Hd.
  { unfold during. simpl. by rewrite Hdown. }
  destruct (export_png_views during eraser_app) as (_ & Hm & _ & _ & Hi).
  fold h in Hi. rewrite Hd, Hi1 in Hi.
  exists (export_png during eraser_app).
  split; [reflexivity |]. split; [exact Hi |]. split; [exact Hm |].
  intros (_ & _ & _ & Hsel & _).
  assert (2%nat ∈ items (export_png during eraser_app)) as Hin.
  { apply Hsel. rewrite Hm. repeat constructor. }
  rewrite Hi in Hin.
  repeat (apply elem_of_cons in Hin as [Hin | Hin]; [discriminate Hin |]).
  by apply elem_of_nil in Hin.
Qed.

(** ** Drawing tools and rulers *)

(** X28. With the ruler tool, a click that starts a measurement and a click
    that ends it at another point leave exactly one more ruler, from the
    first point to the second, after the rulers there were when rulers are
    kept and alone otherwise; ending at the starting point adds none. Either
    way the measurement in progress and the preview are gone, and the scene
    and the selection are untouched. *)
Theorem ruler_two_clicks (st : App) (e1 e2 : Event) (t1 t2 : option string)
        (a b : point) :
  active_tool st = "ruler" →
  pan_active (pan st) = false →
  ds_ruler_start (draw_state st) = None →
  pointer_world st (ev_x e1) (ev_y e1) = Some a →
  pointer_world st (ev_x e2) (ev_y e2) = Some b →
  ∃ st1 st2,
    _on_left_down st e1 t1 = Some st1
    ∧ _on_left_down st1 e2 t2 = Some st2
    ∧ ds_ruler_start (draw_state st1) = Some a
    ∧ temp_preview st1 = Some ("ruler", a, a)
    ∧ rulers st1 = (if keep_rulers st then rulers st else [])
    ∧ rulers st2 = (if keep_rulers st then rulers st else [])
                   ++ (if decide (a ≠ b) then [(a, b)] else [])
    ∧ ds_ruler_start (draw_state st2) = None
    ∧ temp_preview st2 = None
    ∧ objs st2 = objs st ∧ items st2 = items st
    ∧ selection st2 = selection st ∧ selected_items st2 = selected_items st.
Proof.
  intros Ht Hp Hs Ha Hb.
  assert (∃ st1, _on_left_down st e1 t1 = Some st1
                 ∧ ds_ruler_start (draw_state st1) = Some a
                 ∧ temp_preview st1 = Some ("ruler", a, a)
                 ∧ rulers st1 = (if keep_rulers st then rulers st else [])
                 ∧ st1 = set_temp_preview (temp_preview st1)
                           (set_draw_state (draw_state st1)
                              (set_rulers (rulers st1) st)))
    as (st1 & H1 & Hs1 & Hpv1 & Hr1 & Hst1).
  { unfold _on_left_down. rewrite Ha, Hp, Ht. cbn [mbind option_bind].
    literal_decide. rewrite Hs.
    eexists. split; [reflexivity |].
    destruct (keep_rulers st) eqn:Hk; simpl.
    - split_and!; try done; try (by destruct st).
    - case_bool_decide as Hne; simpl; rewrite ?Hk; split_and!; try done;
        try (by destruct st);
        try (destruct (rulers st); [done | by destruct Hne]). }
  exists st1.
  assert (pointer_world st1 (ev_x e2) (ev_y e2) = Some b) as Hb1.
  { rewrite Hst1. exact Hb. }
  assert (active_tool st1 = "ruler" ∧ pan_active (pan st1) = false
          ∧ keep_rulers st1 = keep_rulers st ∧ objs st1 = objs st
          ∧ items st1 = items st ∧ selection st1 = selection st
          ∧ selected_items st1 = selected_items st)
    as (Ht1 & Hp1 & Hk1 & Ho1 & Hi1 & Hsel1 & Hm1).
  { rewrite Hst1. simpl. done. }
  unfold _on_left_down at 2. rewrite Hb1, Hp1, Ht1. cbn [mbind option_bind].
  literal_decide. rewrite Hs1.
  eexists. split; [exact H1 |]. split; [reflexivity |].
  split_and!; try done.
  - rewrite Hk1. case_decide as Hab; destruct (keep_rulers st); simpl;
      rewrite ?Hr1, ?app_nil_r; done.
  - case_decide; [destruct (negb (keep_rulers st1)) |]; simpl; congruence.
  - case_decide; [destruct (negb (keep_rulers st1)) |]; simpl; congruence.
  - case_decide; [destruct (negb (keep_rulers st1)) |]; simpl; congruence.
  - case_decide; [destruct (negb (keep_rulers st1)) |]; simpl; congruence.
Qed.

Lemma ruler_two_clicks_witness :
  let st := set_active_tool "ruler" initial_app in
  ∃ st1 st2,
    _on_left_down st (mkEvent 80 80 0) None = Some st1
    ∧ _on_left_down st1 (mkEvent 112 80 0) None = Some st2.
Proof.
  cbv zeta.
  set (st := set_active_tool "ruler" initial_app).
  assert (grid_px st ≠ 0) as Hg.
  { unfold grid_px, GRID_SIZE_PX. simpl. lra. }
  destruct (pointer_world_total st 80 80 Hg) as [a Ha].
  destruct (pointer_world_total st 112 80 Hg) as [b Hb].
  destruct (ruler_two_clicks st (mkEvent 80 80 0) (mkEvent 112 80 0) None None a b
              eq_refl eq_refl eq_refl Ha Hb) as (st1 & st2 & H1 & H2 & _).
  by exists st1, st2.
Defined.

(** X29. With any tool but select and eraser, no left-button event changes
    the single selection, the multi-selection or an existing object; the
    scene list stays as it is or gets one new item at its end, an item of
    the kind the tool names. *)
Theorem drawing_tools_keep_scene (st st' : App) (e : Event) (txt : option string) :
  active_tool st ∉ ["select"; "eraser"] →
  _on_left_down st e txt = Some st' ∨ _on_left_drag st e = Some st'
  ∨ _on_left_up st e = Some st' →
  selection st' = selection st
  ∧ selected_items st' = selected_items st
  ∧ (∀ r it, objs st !! r = Some it → objs st' !! r = Some it)
  ∧ (items st' = items st
     ∨ ∃ r d, items st' = items st ++ [r] ∧ objs st !! r = None
              ∧ objs st' !! r = Some (new_item (active_tool st) d)).
Proof.
  intros Htool H.
  apply not_elem_of_cons in Htool as [Hnsel Htool].
  apply not_elem_of_cons in Htool as [Hner _].
  assert (∀ s, objs s = objs st → items s = items st →
               selection s = selection st → selected_items s = selected_items st →
               s = st' →
               selection st' = selection st
               ∧ selected_items st' = selected_items st
               ∧ (∀ r it, objs st !! r = Some it → objs st' !! r = Some it)
               ∧ (items st' = items st
                  ∨ ∃ r d, items st' = items st ++ [r] ∧ objs st !! r = None
                           ∧ objs st' !! r = Some (new_item (active_tool st) d)))
    as Hsame.
  { intros s Ho Hi Hs Hm <-. split_and!; try done; [| by left].
    intros r it Hr. by rewrite Ho. }
  assert (∀ k d s, k = active_tool st →
               objs s = objs (append_item k d st) →
               items s = items (append_item k d st) →
               selection s = selection st → selected_items s = selected_items st →
               s = st' →
               selection st' = selection st
               ∧ selected_items st' = selected_items st
               ∧ (∀ r it, objs st !! r = Some it → objs st' !! r = Some it)
               ∧ (items st' = items st
                  ∨ ∃ r d, items st' = items st ++ [r] ∧ objs st !! r = None
                           ∧ objs st' !! r = Some (new_item (active_tool st) d)))
    as Hgrow.
  { intros k d s -> Ho Hi Hs Hm <-.
    destruct (append_item_spec (active_tool st) d st) as (r & Hi' & Hfresh & Ho' & _).
    split_and!; try done.
    - intros r' it Hr'. rewrite Ho, Ho'.
      rewrite lookup_insert_ne; [done |]. congruence.
    - right. exists r, d. split_and!; try done; [congruence |].
      rewrite Ho, Ho'. apply lookup_insert_eq. }
  destruct H as [H | [H | H]].
  - unfold _on_left_down in H.
    destruct (pointer_world st (ev_x e) (ev_y e)) as [w |]; simpl in H; [| done].
    destruct (pan_active (pan st)).
    { injection H as H. eapply Hsame; try exact H; done. }
    rewrite (decide_False (P := active_tool st = "select")) in H by done.
    case_decide as Hlinear.
    { destruct (ds_start (draw_state st)) as [a |]; injection H as H.
      - case_decide.
        + eapply (Hgrow (active_tool st) (ab_data a w)); try exact H; done.
        + eapply Hsame; try exact H; done.
      - eapply Hsame; try exact H; done. }
    case_decide as Hroom.
    { injection H as H. eapply Hsame; try exact H; done. }
    case_decide as Htext.
    { destruct txt as [s |]; [case_decide |]; injection H as H.
      - eapply (Hgrow "text" (text_data w.1 w.2 s)); try exact H; done.
      - eapply Hsame; try exact H; done.
      - eapply Hsame; try exact H; done. }
    case_decide as Hruler.
    { destruct (ds_ruler_start (draw_state st)) as [a |]; injection H as H.
      - eapply Hsame; try exact H;
          (case_decide; [destruct (keep_rulers st) |]; done).
      - eapply Hsame; try exact H;
          (destruct (negb (keep_rulers st) && bool_decide (rulers st ≠ [])); done). }
    rewrite (decide_False (P := active_tool st = "eraser")) in H by done.
    injection H as H. eapply Hsame; try exact H; done.
  - unfold _on_left_drag in H.
    destruct (pointer_world st (ev_x e) (ev_y e)) as [w |]; simpl in H; [| done].
    destruct (pan_active (pan st)) eqn:Hp.
    { injection H as H. eapply Hsame; try exact H;
        unfold _on_pan_drag; rewrite Hp; simpl;
        by destruct (pan_start (pan st)). }
    case_decide as Hdraw.
    { destruct (ds_start (draw_state st)); injection H as H; eapply Hsame; try exact H; done. }
    rewrite (decide_False (P := active_tool st = "select")) in H by done.
    case_decide as Hruler; [| injection H as H; eapply Hsame; try exact H; done].
    destruct (ds_ruler_start (draw_state st)); injection H as H; eapply Hsame; try exact H; done.
  - unfold _on_left_up in H.
    case_decide as Hroom.
    { destruct Hroom as [Hroom _].
      destruct (pointer_world st (ev_x e) (ev_y e)) as [w |]; simpl in H; [| done].
      destruct (ds_start (draw_state st)) as [a |]; simpl in H; [| done].
      injection H as H. case_decide.
      - eapply (Hgrow "room" (ab_data a w)); try exact H; done.
      - eapply Hsame; try exact H; done. }
    rewrite (decide_False (P := active_tool st = "select")) in H by done.
    injection H as H. eapply Hsame; try exact H; done.
Qed.

Lemma drawing_tools_keep_scene_witness :
  (active_tool wall_click_app ∉ ["select"; "eraser"])
  ∧ ∃ st', _on_left_drag wall_click_app (mkEvent 112 80 0) = Some st'
           ∧ selection st' = selection wall_click_app.
Proof.
  assert (active_tool wall_click_app ∉ ["select"; "eraser"]) as Ht.
  { intros H. change (active_tool wall_click_app) with "wall" in H.
    not_in_literals H. }
  split; [exact Ht |].
  assert (grid_px wall_click_app ≠ 0) as Hg.
  { unfold grid_px, GRID_SIZE_PX. simpl. lra. }
  destruct (pointer_world_total wall_click_app 112 80 Hg) as [w Hw].
  assert (∃ st', _on_left_drag wall_click_app (mkEvent 112 80 0) = Some st')
    as [st' H].
  { unfold _on_left_drag. simpl ev_x. simpl ev_y. rewrite Hw.
    cbn [mbind option_bind]. eexists. reflexivity. }
  exists st'. split; [exact H |].
  apply (drawing_tools_keep_scene wall_click_app st' (mkEvent 112 80 0) None Ht).
  right. left. exact H.
Defined.

(** *** The two flags of the context menu *)

Lemma toggle_lookup (k : string) (dflt : bool) (st : App) (r : ref) (it : Item) :
  objs st !! r = Some it →
  let st' := update_obj r (fun i =>
               set_data (<[k := VBool (negb (default dflt (truthy <$> data i !! k)))]>
                         (data i)) i) st in
  ∃ it', objs st' !! r = Some it'
         ∧ data it' !! k = Some (VBool (negb (default dflt (truthy <$> data it !! k))))
         ∧ (∀ k', k' ≠ k → data it' !! k' = data it !! k')
         ∧ kind it' = kind it
         ∧ (∀ r', r' ≠ r → objs st' !! r' = objs st !! r')
         ∧ st' = set_objs (objs st') st.
Proof.
  intros Hr. cbv zeta. eexists.
  rewrite objs_update_obj_eq, Hr. simpl. split; [reflexivity |]. simpl.
  split; [apply lookup_insert_eq |].
  split; [intros k' Hk'; by rewrite lookup_insert_ne |].
  split; [done |].
  split; [intros r' Hr'; by apply objs_update_obj_ne | done].
Qed.

(** X30. A menu toggle writes the negation of the item's flag, read as absent
    means off for [measure] and absent means on for [show_area], and touches
    no other key, no other item and nothing else of the state; toggling
    twice leaves the flag at the truth value it had. *)
Theorem toggle_flags (st : App) (r : ref) (it : Item) :
  objs st !! r = Some it →
  let measure0 := default false (truthy <$> data it !! "measure") in
  let area0 := default true (truthy <$> data it !! "show_area") in
  (∃ it1 it2,
      objs (_toggle_measure st r) !! r = Some it1
      ∧ data it1 !! "measure" = Some (VBool (negb measure0))
      ∧ (∀ k, k ≠ "measure" → data it1 !! k = data it !! k)
      ∧ objs (_toggle_measure (_toggle_measure st r) r) !! r = Some it2
      ∧ data it2 !! "measure" = Some (VBool measure0)
      ∧ (∀ k, k ≠ "measure" → data it2 !! k = data it !! k))
  ∧ (∃ it1 it2,
      objs (_toggle_area st r) !! r = Some it1
      ∧ data it1 !! "show_area" = Some (VBool (negb area0))
      ∧ (∀ k, k ≠ "show_area" → data it1 !! k = data it !! k)
      ∧ objs (_toggle_area (_toggle_area st r) r) !! r = Some it2
      ∧ data it2 !! "show_area" = Some (VBool area0)
      ∧ (∀ k, k ≠ "show_area" → data it2 !! k = data it !! k))
  ∧ (∀ r', r' ≠ r → objs (_toggle_measure st r) !! r' = objs st !! r'
                    ∧ objs (_toggle_area st r) !! r' = objs st !! r')
  ∧ _toggle_measure st r = set_objs (objs (_toggle_measure st r)) st
  ∧ _toggle_area st r = set_objs (objs (_toggle_area st r)) st.
Proof.
  intros Hr. cbv zeta. split_and!.
  - destruct (toggle_lookup "measure" false st r it Hr)
      as (it1 & Hr1 & Hm1 & Hk1 & _).
    destruct (toggle_lookup "measure" false _ r it1 Hr1)
      as (it2 & Hr2 & Hm2 & Hk2 & _).
    exists it1, it2. split_and!; try done.
    + rewrite Hm2, Hm1. simpl. by rewrite negb_involutive.
    + intros k Hk. by rewrite Hk2, Hk1.
  - destruct (toggle_lookup "show_area" true st r it Hr)
      as (it1 & Hr1 & Hm1 & Hk1 & _).
    destruct (toggle_lookup "show_area" true _ r it1 Hr1)
      as (it2 & Hr2 & Hm2 & Hk2 & _).
    exists it1, it2. split_and!; try done.
    + rewrite Hm2, Hm1. simpl. by rewrite negb_involutive.
    + intros k Hk. by rewrite Hk2, Hk1.
  - intros r' Hr'. split; by apply objs_update_obj_ne.
  - done.
  - done.
Qed.

Lemma toggle_flags_witness :
  objs vertical_wall_app !! 0%nat = Some (new_item "wall" (ab_data (0, 0) (0, 5)))
  ∧ ∃ it1, objs (_toggle_measure vertical_wall_app 0) !! 0%nat = Some it1
           ∧ data it1 !! "measure" = Some (VBool true).
Proof.
  split; [exact vertical_wall_lookup |].
  destruct (toggle_flags vertical_wall_app 0 _ vertical_wall_lookup)
    as ((it1 & _ & H1 & Hm & _) & _).
  exists it1. split; [exact H1 |]. exact Hm.
Defined.
